(** * Sutora: a shallow embedding of the ComfyUI orchestrator core

    The development follows the TypeScript sources:
    - [comfyuiCli.ts]   : [ComfyUICli] (argument builder, launch, readiness
                          poll, stop, log accessors),
    - [pythonUtils.ts]  : [getPythonPath] and its process-lifetime cache,
    - [portUtils.ts]    : [findAvailablePort],
    - [jobs/index.ts]   : the cancel route and [scheduleNextJob],
    - [monitoring.ts]   : [recordMetrics],
    - [instances/index.ts] : the create, stop and health routes,
    - [config/python.ts]   : the routes that read and set the interpreter,
    - [comfyLogParser.ts]  : the line classifiers,
    - [platformUtils.ts]   : [getPlatformEnv].

    JavaScript numbers that the code only uses as integers (ports, pids,
    priorities, timestamps, attempt counts) are modelled as [Z]; strings as
    [string]; the [Map]s of the code as [gmap]; database tables as lists of
    rows in table order.  Everything the code obtains from the operating
    system or the network (process probes, HTTP calls, the file system scan)
    is an explicit environment argument.  Queries on the job, worker and
    metric tables are taken to succeed; the two config-store queries of
    [getPythonPath] may throw. *)

From Stdlib Require Import ZArith Ascii String List Lia Bool.
From stdpp Require Import base tactics option list gmap strings pretty sorting.

Local Open Scope string_scope.
Local Open Scope Z_scope.
Local Open Scope list_scope.

(** ** JavaScript string primitives used by the sources *)

Module Js.

(** [hay.includes(needle)] *)
Fixpoint includes (hay needle : string) : bool :=
  String.prefix needle hay ||
  match hay with
  | EmptyString => false
  | String _ rest => includes rest needle
  end.

Definition is_upper (c : ascii) : bool :=
  let n := nat_of_ascii c in ((65 <=? n) && (n <=? 90))%nat.

Definition is_lower_or_digit (c : ascii) : bool :=
  let n := nat_of_ascii c in
  (((97 <=? n) && (n <=? 122)) || ((48 <=? n) && (n <=? 57)))%nat.

Definition lower_char (c : ascii) : ascii :=
  if is_upper c then ascii_of_nat (nat_of_ascii c + 32) else c.

(** [s.toLowerCase()] on the ASCII range (option names are ASCII
    identifiers). *)
Fixpoint toLowerCase (s : string) : string :=
  match s with
  | EmptyString => EmptyString
  | String c rest => String (lower_char c) (toLowerCase rest)
  end.

(** [s.replace(/([a-z0-9])([A-Z])/g, '$1-$2')]: a left-to-right scan; a
    match consumes both characters. *)
Fixpoint hyphenate (s : string) : string :=
  match s with
  | EmptyString => EmptyString
  | String c1 rest =>
      match rest with
      | EmptyString => String c1 EmptyString
      | String c2 rest' =>
          if is_lower_or_digit c1 && is_upper c2
          then String c1 (String "-" (String c2 (hyphenate rest')))
          else String c1 (hyphenate rest)
      end
  end.

(** [s.split(sep)] for a one-character separator. *)
Fixpoint split (sep : ascii) (s : string) : list string :=
  match s with
  | EmptyString => [EmptyString]
  | String c rest =>
      if Ascii.eqb c sep then EmptyString :: split sep rest
      else
        match split sep rest with
        | first :: others => String c first :: others
        | [] => [String c EmptyString]
        end
  end.

(** White space.  Strings here are sequences of ASCII characters, of which
    tab, line feed, vertical tab, form feed, carriage return and space are
    the ones [trim] and [parseInt] strip; the white space JavaScript knows
    beyond ASCII (no-break space, the byte order mark, the Unicode space
    separators) cannot occur in them. *)
Definition is_space (c : ascii) : bool :=
  let n := nat_of_ascii c in (((9 <=? n) && (n <=? 13)) || (n =? 32))%nat.

Fixpoint trim_start (s : string) : string :=
  match s with
  | EmptyString => EmptyString
  | String c rest => if is_space c then trim_start rest else s
  end.

Fixpoint trim_end (s : string) : string :=
  match s with
  | EmptyString => EmptyString
  | String c rest =>
      match trim_end rest with
      | EmptyString => if is_space c then EmptyString else String c EmptyString
      | kept => String c kept
      end
  end.

(** [s.trim()] *)
Definition trim (s : string) : string := trim_end (trim_start s).

Definition digit_value (c : ascii) : option Z :=
  let n := nat_of_ascii c in
  if ((48 <=? n) && (n <=? 57))%nat then Some (Z.of_nat n - 48) else None.

Definition hex_value (c : ascii) : option Z :=
  let n := nat_of_ascii c in
  if ((48 <=? n) && (n <=? 57))%nat then Some (Z.of_nat n - 48)
  else if ((97 <=? n) && (n <=? 102))%nat then Some (Z.of_nat n - 87)
  else if ((65 <=? n) && (n <=? 70))%nat then Some (Z.of_nat n - 55)
  else None.

(** The longest prefix of digits, read in the given radix; [acc] is
    [None] until a digit was seen. *)
Fixpoint read_digits (radix : Z) (value_of : ascii -> option Z)
         (s : string) (acc : option Z) : option Z :=
  match s with
  | EmptyString => acc
  | String c rest =>
      match value_of c with
      | Some d => read_digits radix value_of rest (Some (radix * default 0 acc + d))
      | None => acc
      end
  end.

Definition read_unsigned (s : string) : option Z :=
  match s with
  | String "0" (String "x" rest) => read_digits 16 hex_value rest None
  | String "0" (String "X" rest) => read_digits 16 hex_value rest None
  | _ => read_digits 10 digit_value s None
  end.

(** [parseInt(s)] without a radix; [None] is [NaN].  The result is the
    integer the digits denote: JavaScript rounds it to the nearest double,
    which is the same number up to 2^53. *)
Definition parseInt (s : string) : option Z :=
  match trim_start s with
  | String "-" rest => Z.opp <$> read_unsigned rest
  | String "+" rest => read_unsigned rest
  | body => read_unsigned body
  end.

(** The numbers a computation on integers can end in: an integer, an
    infinity or NaN. *)
Inductive number : Type :=
| Int (n : Z)
| PosInfinity
| NegInfinity
| NaN.

(** [a < b] *)
Definition less_than (a b : number) : bool :=
  match a, b with
  | NaN, _ => false
  | _, NaN => false
  | Int x, Int y => x <? y
  | Int _, PosInfinity => true
  | Int _, NegInfinity => false
  | PosInfinity, _ => false
  | NegInfinity, NegInfinity => false
  | NegInfinity, _ => true
  end.

(** [a - 1] *)
Definition minus_one (a : number) : number :=
  match a with
  | Int x => Int (x - 1)
  | other => other
  end.

(** [Math.ceil(a / b)] for integers [a] and [b]: division by zero gives an
    infinity, or NaN for [0 / 0]. *)
Definition ceil_div (a b : Z) : number :=
  if b =? 0 then
    if 0 <? a then PosInfinity else if a <? 0 then NegInfinity else NaN
  else Int (- ((- a) / b)).

(** [Array.prototype.slice(start)] with a single (integer) argument. *)
Definition slice_from {A} (start : Z) (l : list A) : list A :=
  let len := Z.of_nat (length l) in
  let k := if start <? 0 then Z.max (len + start) 0 else Z.min start len in
  drop (Z.to_nat k) l.

End Js.

(** ** Arrays *)

Module JsArray.

(** [items.join(sep)] *)
Fixpoint join (sep : string) (items : list string) : string :=
  match items with
  | [] => ""
  | [item] => item
  | item :: rest => item +:+ sep +:+ join sep rest
  end.

End JsArray.

(** ** [ComfyUICli.buildArgs] *)

Module BuildArgs.

(** The values an option of [ComfyUIOptions] can hold. *)
Inductive js_value : Type :=
| VUndefined
| VBool (b : bool)
| VNumber (n : Z)
| VString (s : string)
| VArray (items : list string).

(** An options object, as [Object.entries] enumerates it. *)
Definition ComfyUIOptions : Type := list (string * js_value).

Definition toKebabCase (str : string) : string :=
  Js.toLowerCase (Js.hyphenate str).

(** [value.toString()].  Numbers are integers and print in decimal, as
    JavaScript prints an integer below 1e21; an array prints its items
    joined by commas.  ([undefined] has no [toString]: no call site reaches
    that case.) *)
Definition toString (v : js_value) : string :=
  match v with
  | VUndefined => "undefined"
  | VBool true => "true"
  | VBool false => "false"
  | VNumber n => pretty n
  | VString s => s
  | VArray items => JsArray.join "," items
  end.

(** [args.push(x1, ..., xn)] *)
Definition push {A} (args : list A) (xs : list A) : list A := args ++ xs.

(** The body of the [for ... of Object.entries(options)] loop. *)
Definition buildArgs_body (args : list string) (entry : string * js_value)
  : list string :=
  let '(key, value) := entry in
  if String.eqb key "cudaDevice" || String.eqb key "useMps" then args
  else
    match value with
    | VUndefined => args
    | VBool false => args
    | VBool true => push args ["--" +:+ toKebabCase key]
    | VArray items =>
        let kebabKey := toKebabCase key in
        if String.eqb kebabKey "fast" then
          match items with
          | [] => push args ["--" +:+ kebabKey]
          | _ => push args (("--" +:+ kebabKey) :: items)
          end
        else
          fold_left (fun acc item => push acc ["--" +:+ kebabKey; item])
                    items args
    | _ => push args ["--" +:+ toKebabCase key; toString value]
    end.

Definition buildArgs (options : ComfyUIOptions) : list string :=
  fold_left buildArgs_body options [].

(** The argument builder as the specification words it. *)
Definition internal_option (key : string) : bool :=
  String.eqb key "cudaDevice" || String.eqb key "useMps".

Definition flag (key : string) : string := "--" +:+ toKebabCase key.

Definition emit_spec (entry : string * js_value) : list string :=
  let '(key, value) := entry in
  if internal_option key then []
  else
    match value with
    | VUndefined => []
    | VBool false => []
    | VBool true => [flag key]
    | VNumber n => [flag key; pretty n]
    | VString s => [flag key; s]
    | VArray items =>
        if String.eqb (toKebabCase key) "fast"
        then flag key :: items
        else flat_map (fun item => [flag key; item]) items
    end.

End BuildArgs.

(** ** [ComfyUICli]: in-memory worker records, launch, readiness, stop *)

Module Cli.
Import BuildArgs.

Inductive platform : Type := Linux | MacOS | Windows | OtherOS.

Inductive instance_status : Type := Running | Starting | Stopped | Error.

Definition status_text (s : instance_status) : string :=
  match s with
  | Running => "running"
  | Starting => "starting"
  | Stopped => "stopped"
  | Error => "error"
  end.

(** The [ChildProcess] handle returned by [spawn]; [child_pid] is
    [undefined] when the operating system could not start the child. *)
Record ChildProcess : Type := { child_pid : option Z }.

Record ComfyInstance : Type := mkInstance {
  id : string;
  process : option ChildProcess;
  port : Z;
  host : string;
  gpuIndices : string;
  options : ComfyUIOptions;
  status : instance_status;
  pid : option Z;
  logs : list string;
  errors : list string;
  warnings : list string;
  lastError : option string;
  startTime : option Z
}.

Definition with_status (s : instance_status) (i : ComfyInstance) :=
  mkInstance (id i) (process i) (port i) (host i) (gpuIndices i) (options i)
             s (pid i) (logs i) (errors i) (warnings i) (lastError i) (startTime i).
Definition with_lastError (e : string) (i : ComfyInstance) :=
  mkInstance (id i) (process i) (port i) (host i) (gpuIndices i) (options i)
             (status i) (pid i) (logs i) (errors i) (warnings i) (Some e) (startTime i).
Definition with_process (p : option ChildProcess) (i : ComfyInstance) :=
  mkInstance (id i) p (port i) (host i) (gpuIndices i) (options i)
             (status i) (pid i) (logs i) (errors i) (warnings i) (lastError i) (startTime i).
Definition with_pid (p : option Z) (i : ComfyInstance) :=
  mkInstance (id i) (process i) (port i) (host i) (gpuIndices i) (options i)
             (status i) p (logs i) (errors i) (warnings i) (lastError i) (startTime i).
Definition with_gpuIndices (g : string) (i : ComfyInstance) :=
  mkInstance (id i) (process i) (port i) (host i) g (options i)
             (status i) (pid i) (logs i) (errors i) (warnings i) (lastError i) (startTime i).
Definition push_log (l : string) (i : ComfyInstance) :=
  mkInstance (id i) (process i) (port i) (host i) (gpuIndices i) (options i)
             (status i) (pid i) (logs i ++ [l]) (errors i) (warnings i) (lastError i) (startTime i).
Definition push_error (l : string) (i : ComfyInstance) :=
  mkInstance (id i) (process i) (port i) (host i) (gpuIndices i) (options i)
             (status i) (pid i) (logs i) (errors i ++ [l]) (warnings i) (lastError i) (startTime i).
Definition push_warning (l : string) (i : ComfyInstance) :=
  mkInstance (id i) (process i) (port i) (host i) (gpuIndices i) (options i)
             (status i) (pid i) (logs i) (errors i) (warnings i ++ [l]) (lastError i) (startTime i).

(** The fields of the class.  The three timeouts are what [parseInt] made
    of the environment variables or of the defaults; they are taken to be
    integers (a variable that does not start with a number gives NaN, and
    the text "-0" gives the negative zero). *)
Record ComfyUICli : Type := mkCli {
  pythonPath : option string;
  comfyuiPath : string;
  instances : gmap string ComfyInstance;
  initialized : bool;
  apiTimeout : Z;
  startupTimeout : Z;
  checkInterval : Z
}.

Definition with_instances (m : gmap string ComfyInstance) (c : ComfyUICli) :=
  mkCli (pythonPath c) (comfyuiPath c) m (initialized c)
        (apiTimeout c) (startupTimeout c) (checkInterval c).
Definition with_python (p : string) (c : ComfyUICli) :=
  mkCli (Some p) (comfyuiPath c) (instances c) true
        (apiTimeout c) (startupTimeout c) (checkInterval c).

Definition DEFAULT_API_TIMEOUT : Z := 5000.
Definition DEFAULT_STARTUP_TIMEOUT : Z := 120000.
Definition DEFAULT_CHECK_INTERVAL : Z := 3000.

(** [new ComfyUICli(comfyuiPath)] with no environment overrides. *)
Definition new_cli (path : string) : ComfyUICli :=
  mkCli None path ∅ false
        DEFAULT_API_TIMEOUT DEFAULT_STARTUP_TIMEOUT DEFAULT_CHECK_INTERVAL.

(** What a call observes of the outside world, in order. *)
Inductive effect : Type :=
| EProcessProbe (p : Z)
| EApiProbe
| ESleep (ms : Z)
| ETaskkill (p : Z)
| EKillTerm (p : Z)
| EKillKill (p : Z)
| EHandleKill.

(** The operating system and the worker as seen by one call.  Oracles are
    indexed by the number of [await]s the call has completed, so they may
    answer differently over time; [async_events] is what the stdout,
    stderr, exit and error handlers of [launchInstance] do to the instance
    object while the call is suspended in its [n]-th [await]. *)
Record world : Type := {
  os : platform;
  isProcessRunning : nat -> Z -> bool;
  fetch_ok : nat -> string -> bool;
  async_events : nat -> ComfyInstance -> ComfyInstance;
  taskkill_ok : bool;
  kill_term_ok : bool;
  kill_kill_ok : bool
}.

(** Truthiness of [instance.pid]. *)
Definition pid_truthy (p : option Z) : option Z :=
  match p with
  | Some n => if n =? 0 then None else Some n
  | None => None
  end.

(** *** Option access used by [launchInstance] *)

Fixpoint get_option (key : string) (opts : ComfyUIOptions) : js_value :=
  match opts with
  | [] => VUndefined
  | (k, v) :: rest => if String.eqb k key then v else get_option key rest
  end.

Definition truthy (v : js_value) : bool :=
  match v with
  | VUndefined => false
  | VBool b => b
  | VNumber n => negb (n =? 0)
  | VString s => negb (String.eqb s "")
  | VArray _ => true
  end.

Definition option_port (opts : ComfyUIOptions) : Z :=
  match get_option "port" opts with
  | VNumber n => if n =? 0 then 8188 else n
  | _ => 8188
  end.

Definition option_host (opts : ComfyUIOptions) : string :=
  match get_option "listen" opts with
  | VString s => if String.eqb s "" then "127.0.0.1" else s
  | _ => "127.0.0.1"
  end.

Definition device_attribution (pf : platform) (opts : ComfyUIOptions) : string :=
  match get_option "cudaDevice" opts with
  | VUndefined =>
      match pf with
      | MacOS => if truthy (get_option "useMps" opts) then "mps" else "cpu"
      | _ => "cpu"
      end
  | v => toString v
  end.

(** *** [launchInstance] *)

Inductive spawn_outcome : Type :=
| Spawned (child : ChildProcess)
| SpawnThrows (err : string).

Record launcher : Type := {
  launch_os : platform;
  now : Z;
  getPythonPath : string -> string + string;
  spawn : string -> list string -> string -> spawn_outcome
}.

(** Truthiness of [this.pythonPath]. *)
Definition known_python (c : ComfyUICli) : option string :=
  match pythonPath c with
  | Some p => if String.eqb p "" then None else Some p
  | None => None
  end.

(** [initialize()]: resolve the interpreter once. *)
Definition initialize (l : launcher) (c : ComfyUICli) : (string + string) * ComfyUICli :=
  match (if initialized c then known_python c else None) with
  | Some p => (inr p, c)
  | None =>
      match getPythonPath l (comfyuiPath c) with
      | inr p => (inr p, with_python p c)
      | inl err => (inl err, c)
      end
  end.

(** A block-scoped constant.  It is in scope from the start of its block,
    and reading it before its declaration has been evaluated throws a
    [ReferenceError]. *)
Inductive binding (A : Type) : Type :=
| Uninitialized
| Initialized (value : A).
Arguments Uninitialized {A}.
Arguments Initialized {A} value.

(** What [launchInstance] throws. *)
Inductive launch_error : Type :=
| LookupFailed (err : string)
| ReferenceError (name : string)
| SpawnThrew (err : string).

Definition read {A} (name : string) (b : binding A) : launch_error + A :=
  match b with
  | Uninitialized => inl (ReferenceError name)
  | Initialized value => inr value
  end.

(** The object literal [launchInstance] starts from. *)
Definition new_instance (l : launcher) (instanceId : string) (opts : ComfyUIOptions)
  : ComfyInstance :=
  {| id := instanceId; process := None; port := option_port opts;
     host := option_host opts; gpuIndices := ""; options := opts;
     status := Starting; pid := None;
     logs := []; errors := []; warnings := [];
     lastError := None; startTime := Some (now l) |}.

(** The statements of [launchInstance] that follow the call of [spawn]. *)
Definition after_spawn (l : launcher) (c : ComfyUICli) (instanceId : string)
           (opts : ComfyUIOptions) (instance : ComfyInstance) (child : ChildProcess)
  : ComfyInstance * ComfyUICli :=
  let instance := with_process (Some child) instance in
  let instance := with_pid (child_pid child) instance in
  let instance :=
    with_gpuIndices (device_attribution (launch_os l) opts) instance in
  (* this.instances.set(instanceId, instance);
     instance.status = 'running'  -- the stored object is mutated *)
  let instance := with_status Running instance in
  (instance, with_instances (<[instanceId := instance]> (instances c)) c).

(** [launchInstance].  The child is started by

      const process = spawn(python, ['main.py', ...args],
                            { cwd, env: { ...process.env, ...env }, stdio })

    inside the [try] block.  The arguments of a call are evaluated before
    the call, and the [process] the third argument reads is the constant
    being declared, which shadows the global of that name throughout the
    block and has no value yet.  The [catch] clause logs and rethrows. *)
Definition launchInstance (l : launcher) (c : ComfyUICli)
           (instanceId : string) (opts : ComfyUIOptions)
  : (launch_error + ComfyInstance) * ComfyUICli :=
  let '(init, c) :=
    match known_python c with
    | Some p => (inr p, c)
    | None => initialize l c
    end in
  match init with
  | inl err => (inl (LookupFailed err), c)
  | inr python =>
      let args := buildArgs opts in
      let instance := new_instance l instanceId opts in
      let process : binding ChildProcess := Uninitialized in
      match read "process" process with
      | inl err => (inl err, c)
      | inr _ =>
          match spawn l python ("main.py" :: args) (comfyuiPath c) with
          | SpawnThrows err => (inl (SpawnThrew err), c)
          | Spawned child =>
              let '(instance, c) := after_spawn l c instanceId opts instance child in
              (inr instance, c)
          end
      end
  end.

(** The handlers [launchInstance] attaches to the child. *)
Definition on_exit (code : option Z) (signal : option string) (i : ComfyInstance) :=
  with_process None
    match code with
    | Some n => if n =? 0 then with_status Stopped i
                else with_lastError ("Process exited with code " +:+ pretty n)
                                    (with_status Error i)
    | None => with_status Stopped i
    end.

Definition on_error (message : string) (i : ComfyInstance) :=
  push_error ("Process error: " +:+ message)
             (with_lastError message (with_status Error i)).

Definition on_stdout_line (line : string) (i : ComfyInstance) :=
  let i := push_log line i in
  if Js.includes line "ERROR" || Js.includes line "error:" ||
     Js.includes line "Exception" || Js.includes line "Traceback"
  then push_error line i
  else if Js.includes line "WARNING" || Js.includes line "WARN" ||
          Js.includes line "warning:"
  then push_warning line i
  else i.

Definition on_stderr_line (line : string) (i : ComfyInstance) :=
  push_error line (push_log line i).

(** *** [isApiReady] *)

Definition endpoints : list string := ["/system_stats"; "/prompt"; "/"].

Definition isApiReady (w : world) (tick : nat) (c : ComfyUICli) (instanceId : string) : bool :=
  match instances c !! instanceId with
  | None => false
  | Some instance =>
      existsb (fun endpoint =>
                 fetch_ok w tick ("http://" +:+ host instance +:+ ":" +:+
                                  pretty (port instance) +:+ endpoint))
              endpoints
  end.

(** *** [isInstanceReady] *)

Record ready_result : Type := { ready : bool; result_status : string }.

(** [given || fallback] for an optional number. *)
Definition number_or (given : option Z) (fallback : Z) : Z :=
  match given with
  | Some n => if n =? 0 then fallback else n
  | None => fallback
  end.

(** [maxAttempts || Math.ceil(this.startupTimeout / this.checkInterval)] *)
Definition effective_attempts (c : ComfyUICli) (maxAttempts : option Z) : Js.number :=
  match maxAttempts with
  | Some n => if n =? 0 then Js.ceil_div (startupTimeout c) (checkInterval c) else Js.Int n
  | None => Js.ceil_div (startupTimeout c) (checkInterval c)
  end.

Definition effective_interval (c : ComfyUICli) (interval : option Z) : Z :=
  number_or interval (checkInterval c).

Definition is_fatal (err : string) : bool :=
  Js.includes err "Error: Cannot find module" ||
  Js.includes err "ModuleNotFoundError" ||
  Js.includes err "Fatal error" ||
  Js.includes err "Could not find model".

Definition hasFatalErrors (i : ComfyInstance) : bool := existsb is_fatal (errors i).

(** The instance object together with the effects performed so far. *)
Record poll_state : Type := { ps_instance : ComfyInstance; ps_trace : list effect }.

(** Completing an [await]: the effect is recorded and the handlers that
    fired meanwhile have run. *)
Definition await (w : world) (e : effect) (st : poll_state) : poll_state :=
  {| ps_instance := async_events w (length (ps_trace st)) (ps_instance st);
     ps_trace := ps_trace st ++ [e] |}.

Definition update (f : ComfyInstance -> ComfyInstance) (st : poll_state) : poll_state :=
  {| ps_instance := f (ps_instance st); ps_trace := ps_trace st |}.

(** One pass through the body of the polling loop: [inl] is a [return],
    [inr] falls through to the next iteration. *)
Definition poll_attempt (w : world) (c : ComfyUICli) (instanceId : string)
           (attempts : Js.number) (interval attempt : Z) (st : poll_state)
  : (ready_result * poll_state) + poll_state :=
  let '(processRunning, st) :=
    match pid_truthy (pid (ps_instance st)) with
    | Some p => (isProcessRunning w (length (ps_trace st)) p,
                 await w (EProcessProbe p) st)
    | None => (true, st)
    end in
  if negb processRunning then
    inl ({| ready := false; result_status := "error" |},
         update (fun i => with_lastError "Process not running" (with_status Error i)) st)
  else
    let apiReady :=
      isApiReady w (length (ps_trace st))
                 (with_instances (<[instanceId := ps_instance st]> (instances c)) c)
                 instanceId in
    let st := await w EApiProbe st in
    if apiReady then inl ({| ready := true; result_status := "running" |}, st)
    else if hasFatalErrors (ps_instance st) then
      inl ({| ready := false; result_status := "error" |},
           update (with_status Error) st)
    else if Js.less_than (Js.Int attempt) (Js.minus_one attempts)
         then inr (await w (ESleep interval) st)
         else inr st.

(** The code after the loop. *)
Definition poll_exhausted (w : world) (st : poll_state) : ready_result * poll_state :=
  let '(alive, st) :=
    match pid_truthy (pid (ps_instance st)) with
    | Some p => (isProcessRunning w (length (ps_trace st)) p,
                 await w (EProcessProbe p) st)
    | None => (false, st)
    end in
  if alive then ({| ready := false; result_status := "starting" |}, st)
  else ({| ready := false; result_status := "error" |},
        update (fun i => with_lastError "Process exited or API never became ready"
                                        (with_status Error i)) st).

(** [for (let attempt = 0; attempt < attempts; attempt++)].  The number
    of passes has no bound when [attempts] is infinite; [fuel] bounds the
    number of times the loop test is evaluated, and [None] means that the
    loop was still running when it ran out. *)
Fixpoint poll_loop (w : world) (c : ComfyUICli) (instanceId : string)
         (attempts : Js.number) (interval : Z) (fuel : nat) (attempt : Z) (st : poll_state)
  : option (ready_result * poll_state) :=
  match fuel with
  | O => None
  | S fuel' =>
      if Js.less_than (Js.Int attempt) attempts then
        match poll_attempt w c instanceId attempts interval attempt st with
        | inl out => Some out
        | inr st' => poll_loop w c instanceId attempts interval fuel' (attempt + 1) st'
        end
      else Some (poll_exhausted w st)
  end.

Definition isInstanceReady (w : world) (fuel : nat) (c : ComfyUICli) (instanceId : string)
           (maxAttempts checkInterval : option Z)
  : option (ready_result * ComfyUICli * list effect) :=
  let attempts := effective_attempts c maxAttempts in
  let interval := effective_interval c checkInterval in
  match instances c !! instanceId with
  | None => Some ({| ready := false; result_status := "not_found" |}, c, [])
  | Some instance =>
      match status instance with
      | Stopped | Error =>
          Some ({| ready := false; result_status := status_text (status instance) |}, c, [])
      | _ =>
          match poll_loop w c instanceId attempts interval fuel 0
                          {| ps_instance := instance; ps_trace := [] |} with
          | Some (r, st) =>
              Some (r, with_instances (<[instanceId := ps_instance st]> (instances c)) c,
                    ps_trace st)
          | None => None
          end
      end
  end.

(** *** [stopInstance] *)

(** The ten probes, 500 ms apart, after [kill -TERM]. *)
Fixpoint wait_for_exit (w : world) (p : Z) (remaining : nat) (st : poll_state)
  : bool * poll_state :=
  match remaining with
  | O => (false, st)
  | S remaining' =>
      let isRunning := isProcessRunning w (length (ps_trace st)) p in
      let st := await w (EProcessProbe p) st in
      if negb isRunning then (true, st)
      else wait_for_exit w p remaining' (await w (ESleep 500) st)
  end.

Definition terminate (w : world) (p : Z) (st : poll_state) : bool * poll_state :=
  match os w with
  | Windows =>
      (taskkill_ok w, await w (ETaskkill p) st)
  | Linux | MacOS =>
      let st := await w (EKillTerm p) st in
      if kill_term_ok w then
        let '(killed, st) := wait_for_exit w p 10 st in
        if killed then (true, st)
        else (kill_kill_ok w, await w (EKillKill p) st)
      else (false, st)
  | OtherOS => (false, st)
  end.

Definition stopInstance (w : world) (c : ComfyUICli) (instanceId : string)
  : bool * ComfyUICli * list effect :=
  match instances c !! instanceId with
  | None => (false, c, [])
  | Some instance =>
      match pid_truthy (pid instance) with
      | None => (false, c, [])
      | Some p =>
          let '(killed, st) :=
            terminate w p {| ps_instance := instance; ps_trace := [] |} in
          let st :=
            match process (ps_instance st) with
            | Some _ => {| ps_instance := ps_instance st;
                           ps_trace := ps_trace st ++ [EHandleKill] |}
            | None => st
            end in
          let instance := with_process None (with_status Stopped (ps_instance st)) in
          (killed, with_instances (<[instanceId := instance]> (instances c)) c,
           ps_trace st)
      end
  end.

(** *** Accessors *)

Definition getInstance (c : ComfyUICli) (instanceId : string) : option ComfyInstance :=
  instances c !! instanceId.

Definition getInstanceErrors (c : ComfyUICli) (instanceId : string) : list string :=
  match instances c !! instanceId with
  | None => []
  | Some instance => errors instance
  end.

Definition getInstanceWarnings (c : ComfyUICli) (instanceId : string) : list string :=
  match instances c !! instanceId with
  | None => []
  | Some instance => warnings instance
  end.

(** [limit] defaults to 50 at the call site. *)
Definition getInstanceLogs (c : ComfyUICli) (instanceId : string) (limit : Z) : list string :=
  match instances c !! instanceId with
  | None => []
  | Some instance => Js.slice_from (- limit) (logs instance)
  end.

(** *** Vocabulary for statements about the poll *)

(** [remaining] passes of the loop body, then the code after the loop:
    what the loop does when its test holds exactly [remaining] more
    times. *)
Fixpoint poll_passes (w : world) (c : ComfyUICli) (instanceId : string)
         (attempts : Js.number) (interval : Z) (remaining : nat) (attempt : Z)
         (st : poll_state)
  : ready_result * poll_state :=
  match remaining with
  | O => poll_exhausted w st
  | S remaining' =>
      match poll_attempt w c instanceId attempts interval attempt st with
      | inl out => out
      | inr st' => poll_passes w c instanceId attempts interval remaining' (attempt + 1) st'
      end
  end.

Definition fatal_substrings : list string :=
  ["Error: Cannot find module"; "ModuleNotFoundError"; "Fatal error";
   "Could not find model"].

Definition is_api_probe (e : effect) : bool :=
  match e with EApiProbe => true | _ => false end.

(** Number of API probes in an effect log. *)
Definition api_probes (t : list effect) : nat := length (List.filter is_api_probe t).

(** A world in which no pass of the poll can return: every process probe
    says alive, no endpoint answers, and the handlers leave [errors] and
    [pid] alone. *)
Definition unresponsive (w : world) : Prop :=
  (forall t p, isProcessRunning w t p = true) /\
  (forall t url, fetch_ok w t url = false) /\
  (forall t i, errors (async_events w t i) = errors i /\
               pid (async_events w t i) = pid i).

(** The state of a pass once its process probe, if any, has completed. *)
Definition after_process_probe (w : world) (st : poll_state) : poll_state :=
  match pid_truthy (pid (ps_instance st)) with
  | Some p => await w (EProcessProbe p) st
  | None => st
  end.

Definition process_probe_passes (w : world) (st : poll_state) : Prop :=
  forall p, pid_truthy (pid (ps_instance st)) = Some p ->
            isProcessRunning w (length (ps_trace st)) p = true.

Definition api_probe_fails (w : world) (c : ComfyUICli) (instanceId : string)
           (st : poll_state) : Prop :=
  isApiReady w (length (ps_trace st))
             (with_instances (<[instanceId := ps_instance st]> (instances c)) c)
             instanceId = false.

End Cli.

(** ** [portUtils.ts] *)

Module PortUtils.

(** What [server.listen(port)] on a fresh server leads to: the
    ['listening'] event, the ['error'] event, or a synchronous exception
    (the runtime refuses the port number). *)
Inductive listen_outcome : Type := Listening | ErrorEvent | ListenThrows.

(** [isPortAvailable]: [Some b] when the promise resolves to [b], [None]
    when the executor throws and the promise rejects. *)
Definition isPortAvailable (listen : Z -> listen_outcome) (port : Z) : option bool :=
  match listen port with
  | Listening => Some true
  | ErrorEvent => Some false
  | ListenThrows => None
  end.

Inductive port_result : Type :=
| Found (port : Z)
| Rejected
| OutOfFuel.

(** [findAvailablePort]: the [while] loop, unrolled at most [fuel] times. *)
Fixpoint findAvailablePort (listen : Z -> listen_outcome) (fuel : nat) (port : Z)
  : port_result :=
  match fuel with
  | O => OutOfFuel
  | S fuel' =>
      match isPortAvailable listen port with
      | None => Rejected
      | Some true => Found port
      | Some false => findAvailablePort listen fuel' (port + 1)
      end
  end.

Definition DEFAULT_BASE_PORT : Z := 8188.

End PortUtils.

(** ** [pythonUtils.ts] *)

Module PythonUtils.

Record env_row : Type := { value : string; description : option string }.

(** What a call does to the outside world, in order. *)
Inductive effect : Type :=
| ESelectConfig (key : string)
| EValidate (path : string)
| EScan (dir : string)
| EUpsertConfig (key : string) (val : string)
| EFindSystem.

(** The module-level cache, the [env_vars] table and the effect log. *)
Record state : Type := mkState {
  pythonPathCache : gmap string string;
  envVars : gmap string env_row;
  trace : list effect
}.

(** The interpreter probe, the disk scan and the store as one call sees
    them.  [validatePython] yields the version text when the candidate is
    valid; [findPythonInVenv] is the glob scan of the install directory;
    the two store operations may throw. *)
Record host : Type := {
  validatePython : string -> option string;
  findPythonInVenv : string -> option string;
  findSystemPython : string;
  select_throws : option string;
  upsert_throws : option string
}.

Definition log (e : effect) (s : state) : state :=
  mkState (pythonPathCache s) (envVars s) (trace s ++ [e]).

Definition cache_set (k v : string) (s : state) : state :=
  mkState (<[k := v]> (pythonPathCache s)) (envVars s) (trace s).

Definition upsert (k v descr : string) (s : state) : state :=
  mkState (pythonPathCache s)
          (<[k := {| value := v; description := Some descr |}]> (envVars s))
          (trace s).

Definition non_empty (v : string) : bool := negb (String.eqb v "").

(** The steps after the configured path was rejected or absent. *)
Definition detect (h : host) (s : state) (comfyuiPath : string)
  : (string + string) * state :=
  let s := log (EScan comfyuiPath) s in
  let fallback (s : state) :=
    let s := log EFindSystem s in
    (inr (findSystemPython h), cache_set comfyuiPath (findSystemPython h) s) in
  match (if findPythonInVenv h comfyuiPath is Some v
         then if non_empty v then Some v else None else None) with
  | Some venvPython =>
      let s := log (EValidate venvPython) s in
      match validatePython h venvPython with
      | Some version =>
          let s := log (EUpsertConfig "PYTHON_PATH" venvPython) s in
          match upsert_throws h with
          | Some err => (inl err, s)
          | None =>
              let s := upsert "PYTHON_PATH" venvPython
                         ("Automatically detected virtual environment (" +:+
                          version +:+ ")") s in
              (inr venvPython, cache_set comfyuiPath venvPython s)
          end
      | None => fallback s
      end
  | None => fallback s
  end.

(** [getPythonPath]: [inr path] when the promise resolves, [inl err] when
    it rejects. *)
Definition getPythonPath (h : host) (s : state) (comfyuiPath : string)
  : (string + string) * state :=
  match pythonPathCache s !! comfyuiPath with
  | Some cached => (inr cached, s)
  | None =>
      let s := log (ESelectConfig "PYTHON_PATH") s in
      match select_throws h with
      | Some err => (inl err, s)
      | None =>
          match envVars s !! "PYTHON_PATH" with
          | Some row =>
              if non_empty (value row) then
                let s := log (EValidate (value row)) s in
                match validatePython h (value row) with
                | Some _ => (inr (value row), cache_set comfyuiPath (value row) s)
                | None => detect h s comfyuiPath
                end
              else detect h s comfyuiPath
          | None => detect h s comfyuiPath
          end
      end
  end.

Definition clearPythonPathCache (s : state) : state :=
  mkState ∅ (envVars s) (trace s).

(** Number of disk scans in an effect log. *)
Definition is_scan (e : effect) : bool :=
  match e with EScan _ => true | _ => false end.

Definition scans (t : list effect) : nat := length (filter (fun e => is_scan e = true) t).

End PythonUtils.

(** ** The persisted tables ([schema.ts]) *)

Module Schema.

Inductive job_status : Type := Pending | Running | Completed | Failed | Cancelled.

Global Instance job_status_eq_dec : EqDecision job_status.
Proof. solve_decision. Defined.

(** A row of [job_queue]; [updatedAt] is not modelled. *)
Record job : Type := mkJob {
  id : string;
  workflowData : string;
  priority : Z;
  status : job_status;
  instanceId : option string;
  output : option string;
  error : option string;
  createdAt : Z
}.

Inductive worker_status : Type := WRunning | WStopped | WError.

Global Instance worker_status_eq_dec : EqDecision worker_status.
Proof. solve_decision. Defined.

(** A row of [comfy_instances]. *)
Record worker : Type := mkWorker {
  worker_id : string;
  name : string;
  port : Z;
  gpuIndices : string;
  worker_state : worker_status;
  options : string;
  pid : option Z;
  lastError : option string
}.

(** A row of [resource_metrics]; the generated [id] and [timestamp]
    columns are not modelled. *)
Record metric : Type := mkMetric {
  metric_instanceId : option string;
  gpuIndex : Z;
  vramUsed : option Z;
  vramTotal : option Z;
  gpuUtilization : option Z;
  ramUsed : option Z;
  cpuUtilization : option Z
}.

End Schema.

(** ** [jobs/index.ts]: cancellation and [scheduleNextJob] *)

Module Jobs.
Import Schema.

Inductive event : Type :=
| LogNoRunningInstances
| LogAllBusy
| LogNoPendingJobs
| HttpPostPrompt (port : Z) (body : string)
| LogSubmitted (jobId instId : string)
| LogSubmitError (jobId instId : string) (err : string)
| HttpPostInterrupt (port : Z)
| LogInterruptFailed (err : string).

(** The outcome of [$`curl ... /prompt`.json()]: curl exited with code 0
    and printed a JSON body (whatever the HTTP status, which the command
    line neither prints nor turns into an exit code), or the shell call
    threw.  The parsed body is the value [null] or another JSON value,
    given by its text. *)
Inductive curl_outcome : Type :=
| CurlJson (http_status : Z) (body : string)
| CurlNull (http_status : Z)
| CurlThrows (err : string).

(** The network, the JSON library and the runtime as the handlers see
    them; the [nat] is the number of events logged so far.
    [null_read_error] is [String(error)] for the [TypeError] the runtime
    raises when a property of [null] is read. *)
Record network : Type := {
  reserialize : string -> string + string;
  post_prompt : nat -> Z -> string -> curl_outcome;
  post_interrupt : nat -> Z -> option string;
  null_read_error : string
}.

Record state : Type := mkState {
  jobQueue : list job;
  comfyInstances : list worker;
  trace : list event
}.

Definition log (e : event) (s : state) : state :=
  mkState (jobQueue s) (comfyInstances s) (trace s ++ [e]).

Definition with_jobs (q : list job) (s : state) : state :=
  mkState q (comfyInstances s) (trace s).

(** [UPDATE job_queue SET ... WHERE cond] *)
Definition update_where (cond : job -> bool) (set : job -> job) (q : list job) : list job :=
  map (fun j => if cond j then set j else j) q.

(** The rows an [UPDATE ... RETURNING] hands back: the updated rows,
    with their new values. *)
Definition returning (cond : job -> bool) (set : job -> job) (q : list job) : list job :=
  map set (List.filter cond q).

Definition set_cancelled (j : job) : job :=
  mkJob (id j) (workflowData j) (priority j) Cancelled (instanceId j)
        (output j) (error j) (createdAt j).

Definition set_running (inst : string) (j : job) : job :=
  mkJob (id j) (workflowData j) (priority j) Running (Some inst)
        (output j) (error j) (createdAt j).

Definition set_failed (err : string) (j : job) : job :=
  mkJob (id j) (workflowData j) (priority j) Failed (instanceId j)
        (output j) (Some err) (createdAt j).

Definition has_status (st : job_status) (j : job) : bool := bool_decide (status j = st).
Definition has_id (i : string) (j : job) : bool := String.eqb (id j) i.

(** *** [POST /:id/cancel] *)

Inductive response : Type :=
| NotFound (message : string)
| Success (j : job).

Definition cancellable (i : string) (j : job) : bool :=
  has_id i j && (has_status Pending j || has_status Running j).

Definition cancel (net : network) (s : state) (i : string) : response * state :=
  let result := returning (cancellable i) set_cancelled (jobQueue s) in
  let s := with_jobs (update_where (cancellable i) set_cancelled (jobQueue s)) s in
  match result with
  | [] => (NotFound "Job not found or cannot be cancelled", s)
  | row :: _ =>
      let s :=
        match status row, instanceId row with
        | Running, Some inst =>
            if String.eqb inst "" then s
            else
              match List.filter (fun w => String.eqb (worker_id w) inst) (comfyInstances s) with
              | w :: _ =>
                  if port w =? 0 then s
                  else
                    let tick := length (trace s) in
                    let s := log (HttpPostInterrupt (port w)) s in
                    match post_interrupt net tick (port w) with
                    | Some err => log (LogInterruptFailed err) s
                    | None => s
                    end
              | [] => s
              end
        | _, _ => s
        end in
      (Success row, s)
  end.

(** *** [scheduleNextJob] *)

(** [ORDER BY priority DESC, created_at ASC] *)
Definition precedes (a b : job) : Prop :=
  priority b < priority a \/ (priority a = priority b /\ createdAt a <= createdAt b).

Global Instance precedes_dec a b : Decision (precedes a b).
Proof. unfold precedes. apply _. Defined.

(** The sort is stable: SQLite leaves the order of rows with equal keys
    open, and its sorter hands them back in table order.  Each row, taken
    from the end of the table, is put in front of the first row it does not
    come after. *)
Fixpoint insert_row (j : job) (sorted : list job) : list job :=
  match sorted with
  | [] => [j]
  | x :: rest =>
      if decide (precedes j x) then j :: x :: rest else x :: insert_row j rest
  end.

Definition orderBy (q : list job) : list job := foldr insert_row [] q.

Definition runningInstances (s : state) : list worker :=
  List.filter (fun w => bool_decide (worker_state w = WRunning)) (comfyInstances s).

Definition busyInstanceIds (s : state) : list (option string) :=
  map instanceId (List.filter (has_status Running) (jobQueue s)).

Definition availableInstances (s : state) : list worker :=
  List.filter (fun w => negb (bool_decide (Some (worker_id w) ∈ busyInstanceIds s)))
              (runningInstances s).

Definition pendingJobs (s : state) : list job :=
  take 1 (orderBy (List.filter (has_status Pending) (jobQueue s))).

(** The [try] block: parse the stored workflow, post it, read the JSON
    answer and log its [prompt_id].  Reading [response.prompt_id] throws
    when the answer is [null]; for every other JSON value it yields a
    value or [undefined]. *)
Definition submit (net : network) (tick : nat) (j : job) (w : worker)
  : list event * (string + string) :=
  match reserialize net (workflowData j) with
  | inl err => ([], inl err)
  | inr body =>
      match post_prompt net tick (port w) body with
      | CurlJson _ answer => ([HttpPostPrompt (port w) body], inr answer)
      | CurlNull _ => ([HttpPostPrompt (port w) body], inl (null_read_error net))
      | CurlThrows err => ([HttpPostPrompt (port w) body], inl err)
      end
  end.

Definition log_all (es : list event) (s : state) : state :=
  mkState (jobQueue s) (comfyInstances s) (trace s ++ es).

(** [scheduleNextJob].  The call it makes to itself after a failed
    submission is not awaited in the source; here it runs to completion
    before the outer call returns, and calls never interleave.  [None]
    means the recursion budget ran out before the call settled. *)
Fixpoint scheduleNextJob (net : network) (fuel : nat) (s : state) : option state :=
  match fuel with
  | O => None
  | S fuel' =>
      match runningInstances s with
      | [] => Some (log LogNoRunningInstances s)
      | _ :: _ =>
          match availableInstances s with
          | [] => Some (log LogAllBusy s)
          | instance :: _ =>
              match pendingJobs s with
              | [] => Some (log LogNoPendingJobs s)
              | job :: _ =>
                  let s := with_jobs (update_where (has_id (id job))
                                                   (set_running (worker_id instance))
                                                   (jobQueue s)) s in
                  let '(es, outcome) := submit net (length (trace s)) job instance in
                  let s := log_all es s in
                  match outcome with
                  | inr _ =>
                      Some (log (LogSubmitted (id job) (worker_id instance)) s)
                  | inl err =>
                      let s := log (LogSubmitError (id job) (worker_id instance) err) s in
                      let s := with_jobs (update_where (has_id (id job))
                                                       (set_failed err)
                                                       (jobQueue s)) s in
                      scheduleNextJob net fuel' s
                  end
              end
          end
      end
  end.

(** The job ids a log shows as bound to a worker, in order. *)
Definition bound_id (e : event) : option string :=
  match e with
  | LogSubmitted j _ => Some j
  | LogSubmitError j _ _ => Some j
  | _ => None
  end.

Definition bound_ids (t : list event) : list string := omap bound_id t.

(** [n] successive top-level calls. *)
Fixpoint dispatch_rounds (net : network) (fuel : nat) (n : nat) (s : state) : option state :=
  match n with
  | O => Some s
  | S n' =>
      match scheduleNextJob net fuel s with
      | Some s' => dispatch_rounds net fuel n' s'
      | None => None
      end
  end.

(** *** Vocabulary for statements about the queue *)

Definition is_pending (s : state) (j : job) : Prop :=
  j ∈ jobQueue s /\ status j = Pending.

Definition pending_count (s : state) : nat :=
  length (List.filter (has_status Pending) (jobQueue s)).

(** Strictly earlier in [(-priority, +created_at)]. *)
Definition strictly_precedes (a b : job) : Prop :=
  priority b < priority a \/ (priority a = priority b /\ createdAt a < createdAt b).

(** The pending rows have pairwise distinct [(priority, created_at)]. *)
Definition distinct_keys (s : state) : Prop :=
  forall a b, is_pending s a -> is_pending s b -> a <> b ->
              (priority a, createdAt a) <> (priority b, createdAt b).

(** The primary key of [job_queue]. *)
Definition unique_ids (s : state) : Prop := NoDup (id <$> jobQueue s).

(** [drained s js s']: going from [s] to [s'] bound exactly the jobs [js],
    in that order; they were pending in [s], each was first in the queue
    order among the jobs still pending when it was bound, and no other row
    changed its status from or to pending. *)
Definition drained (s : state) (js : list job) (s' : state) : Prop :=
  bound_ids (trace s') = bound_ids (trace s) ++ (id <$> js) /\
  (forall j, is_pending s' j <-> is_pending s j /\ j ∉ js) /\
  (forall j, j ∈ js -> is_pending s j) /\
  NoDup js /\
  StronglySorted precedes js /\
  (forall j j', j ∈ js -> is_pending s' j' -> precedes j j') /\
  id <$> jobQueue s' = id <$> jobQueue s /\
  comfyInstances s' = comfyInstances s /\
  (forall j, j ∈ jobQueue s -> status j <> Pending -> j ∈ jobQueue s').

(** Nothing to pair: no running worker is free, or no job is pending. *)
Definition idle (s : state) : Prop := availableInstances s = [] \/ pendingJobs s = [].

(** The state [scheduleNextJob] leaves a bound job in. *)
Definition bind_job (job : job) (instance : worker) (s : state) : state :=
  with_jobs (update_where (has_id (id job)) (set_running (worker_id instance)) (jobQueue s)) s.

(** The state in which [scheduleNextJob] calls itself after a submission
    threw [err]. *)
Definition fail_job (job : job) (instance : worker) (es : list event) (err : string)
           (s : state) : state :=
  let s := log (LogSubmitError (id job) (worker_id instance) err)
               (log_all es (bind_job job instance s)) in
  with_jobs (update_where (has_id (id job)) (set_failed err) (jobQueue s)) s.

(** The state [scheduleNextJob] returns after a submission succeeded. *)
Definition leave_running (job : job) (instance : worker) (es : list event)
           (s : state) : state :=
  log (LogSubmitted (id job) (worker_id instance)) (log_all es (bind_job job instance s)).


End Jobs.

(** ** [monitoring.ts]: the metric sampler *)

Module Monitoring.
Import Schema.

(** A device of the GPU inventory ([platformUtils.ts]). *)
Record GPUDevice : Type := {
  index : Z;
  device_name : string;
  memoryUsed : option Z;
  memoryTotal : option Z;
  utilization : option Z
}.

Record GPUInfo : Type := { available : bool; devices : list GPUDevice }.

Record SystemMetrics : Type := {
  host_cpuUtilization : Z;
  host_ramUsed : Z;
  host_ramTotal : Z
}.

(** The platform probes one tick consults. *)
Record probes : Type := {
  getGPUInfo : string -> GPUInfo;
  getGPUMetrics : list GPUDevice;
  getSystemMetrics : SystemMetrics
}.

Record state : Type := mkState {
  comfyInstances : list worker;
  envVars : gmap string string;
  resourceMetrics : list metric
}.

Definition insert_metric (m : metric) (s : state) : state :=
  mkState (comfyInstances s) (envVars s) (resourceMetrics s ++ [m]).

(** [instance.gpuIndices.split(',').map((idx) => parseInt(idx.trim()))] *)
Definition parse_selector (selector : string) : list (option Z) :=
  map (fun idx => Js.parseInt (Js.trim idx)) (Js.split "," selector).

(** [devices.find((device) => device.index === gpuIndex)]; a [NaN]
    index equals nothing. *)
Definition find_device (devs : list GPUDevice) (gpuIndex : option Z) : option GPUDevice :=
  match gpuIndex with
  | None => None
  | Some n => List.find (fun d => index d =? n) devs
  end.

(** [x || 0] *)
Definition or_zero (x : option Z) : Z := default 0 x.

Definition running (w : worker) : bool := bool_decide (worker_state w = WRunning).

(** The row written for one selector token, current version. *)
Definition sample_row (sys : SystemMetrics) (w : worker) (n : Z) (d : GPUDevice) : metric :=
  {| metric_instanceId := Some (worker_id w);
     gpuIndex := n;
     vramUsed := Some (or_zero (memoryUsed d));
     vramTotal := Some (or_zero (memoryTotal d));
     gpuUtilization := Some (or_zero (utilization d));
     ramUsed := Some (host_ramUsed sys);
     cpuUtilization := Some (host_cpuUtilization sys) |}.

(** The inner [for (const gpuIndex of gpuIndices)] loop. *)
Definition record_instance (row : worker -> Z -> GPUDevice -> metric)
           (devs : list GPUDevice) (s : state) (w : worker) : state :=
  fold_left
    (fun s gpuIndex =>
       match gpuIndex, find_device devs gpuIndex with
       | Some n, Some d => insert_metric (row w n d) s
       | _, _ => s
       end)
    (parse_selector (gpuIndices w)) s.

(** [recordMetrics], the version built on the platform probes. *)
Definition recordMetrics (p : probes) (s : state) : state :=
  match List.filter running (comfyInstances s) with
  | [] => s
  | instances =>
      match envVars s !! "COMFYUI_PATH" with
      | None => s
      | Some comfyuiPath =>
          let gpuInfo := getGPUInfo p comfyuiPath in
          let systemMetrics := getSystemMetrics p in
          fold_left (record_instance (sample_row systemMetrics) (devices gpuInfo))
                    instances s
      end
  end.

(** The row written by the version that queries [nvidia-smi] itself. *)
Definition sample_row_smi (sys : SystemMetrics) (w : worker) (n : Z) (d : GPUDevice) : metric :=
  {| metric_instanceId := Some (worker_id w);
     gpuIndex := n;
     vramUsed := memoryUsed d;
     vramTotal := memoryTotal d;
     gpuUtilization := utilization d;
     ramUsed := Some (host_ramUsed sys);
     cpuUtilization := Some (host_cpuUtilization sys) |}.

(** [recordMetrics], the version that queries [nvidia-smi] itself. *)
Definition recordMetrics_smi (p : probes) (s : state) : state :=
  match List.filter running (comfyInstances s) with
  | [] => s
  | instances =>
      let gpuMetrics := getGPUMetrics p in
      let systemMetrics := getSystemMetrics p in
      fold_left (record_instance (sample_row_smi systemMetrics) gpuMetrics) instances s
  end.

(** The rows a tick appended. *)
Definition appended (before after : state) : list metric :=
  drop (length (resourceMetrics before)) (resourceMetrics after).

Definition rows_of (w : string) (rows : list metric) : list metric :=
  List.filter (fun m => bool_decide (metric_instanceId m = Some w)) rows.

(** The rows one worker contributes to a tick: one per selector token that
    parses to an integer and matches a device of the inventory. *)
Definition rows_for (row : worker -> Z -> GPUDevice -> metric)
           (devs : list GPUDevice) (w : worker) : list metric :=
  flat_map (fun gpuIndex =>
              match gpuIndex, find_device devs gpuIndex with
              | Some n, Some d => [row w n d]
              | _, _ => []
              end)
           (parse_selector (gpuIndices w)).

(** The primary key of [comfy_instances]. *)
Definition unique_worker_ids (s : state) : Prop := NoDup (worker_id <$> comfyInstances s).

Definition has_device (devs : list GPUDevice) (n : Z) : Prop :=
  exists d, d ∈ devs /\ index d = n.

(** What one tick [tick] attributes to the running worker [w]: two rows,
    for devices 0 and 1, when its selector is "0,1" and the inventory has
    both devices; no row when no token of its selector parses to an
    integer. *)
Definition attributes (tick : state -> state)
           (row : worker -> Z -> GPUDevice -> metric)
           (devs : list GPUDevice) (s : state) (w : worker) : Prop :=
  (gpuIndices w = "0,1" -> has_device devs 0 -> has_device devs 1 ->
   exists d0 d1,
     d0 ∈ devs /\ index d0 = 0 /\ d1 ∈ devs /\ index d1 = 1 /\
     rows_of (worker_id w) (appended s (tick s)) = [row w 0 d0; row w 1 d1]) /\
  (Forall (fun tok => tok = None) (parse_selector (gpuIndices w)) ->
   rows_of (worker_id w) (appended s (tick s)) = []).

(** A row carries the worker, the device index and the host metrics. *)
Definition carries_host_metrics (sys : SystemMetrics) (w : worker) (n : Z) (m : metric) : Prop :=
  metric_instanceId m = Some (worker_id w) /\ gpuIndex m = n /\
  ramUsed m = Some (host_ramUsed sys) /\
  cpuUtilization m = Some (host_cpuUtilization sys).

End Monitoring.

(** ** [comfyuiCli.ts]: child handlers, API calls, compatibility wrappers *)

(** The module-level functions of the older [comfyuiCli.ts]. *)
Module Legacy.
Import BuildArgs.

Definition buildArgs_body (args : list string) (entry : string * js_value)
  : list string :=
  let '(key, value) := entry in
  match value with
  | VUndefined => args
  | VBool false => args
  | VBool true => push args ["--" +:+ toKebabCase key]
  | VArray items =>
      let kebabKey := toKebabCase key in
      if String.eqb kebabKey "fast" then
        match items with
        | [] => push args ["--" +:+ kebabKey]
        | _ => push args (("--" +:+ kebabKey) :: items)
        end
      else
        fold_left (fun acc item => push acc ["--" +:+ kebabKey; item])
                  items args
  | _ => push args ["--" +:+ toKebabCase key; toString value]
  end.

Definition buildArgs (options : ComfyUIOptions) : list string :=
  fold_left buildArgs_body options [].

End Legacy.

Module CliExt.
Import BuildArgs Cli.

(** *** The [data], [exit] and [error] handlers of [launchInstance] *)

Definition line_feed : ascii := ascii_of_nat 10.

(** The lines a [data] handler walks over:
    [data.toString().trim().split('\n')] without the empty ones. *)
Definition data_lines (data : string) : list string :=
  List.filter (fun line => negb (String.eqb line ""))
              (Js.split line_feed (Js.trim data)).

Definition on_stdout_data (data : string) (i : ComfyInstance) : ComfyInstance :=
  fold_left (fun i line => on_stdout_line line i) (data_lines data) i.

Definition on_stderr_data (data : string) (i : ComfyInstance) : ComfyInstance :=
  fold_left (fun i line => on_stderr_line line i) (data_lines data) i.

Inductive child_event : Type :=
| StdoutData (data : string)
| StderrData (data : string)
| ChildExit (code : option Z) (signal : option string)
| ChildError (message : string).

Definition handle (e : child_event) (i : ComfyInstance) : ComfyInstance :=
  match e with
  | StdoutData data => on_stdout_data data i
  | StderrData data => on_stderr_data data i
  | ChildExit code signal => on_exit code signal i
  | ChildError message => on_error message i
  end.

Definition handle_all (es : list child_event) (i : ComfyInstance) : ComfyInstance :=
  fold_left (fun i e => handle e i) es i.

(** A world in which the instance object is written, between the awaits
    of a call, by these handlers only. *)
Definition handlers_only (w : world) : Prop :=
  forall t i, exists es, async_events w t i = handle_all es i.

(** What the handlers keep of a record's buffers: no logged line is empty
    or spans two lines, every warning is a logged line, and every error is
    a logged line or the report of an [error] event. *)
Definition single_line (l : string) : Prop :=
  l <> "" /\ Js.includes l (String line_feed "") = false.

Definition well_logged (i : ComfyInstance) : Prop :=
  (forall l, l ∈ logs i -> single_line l) /\
  (forall l, l ∈ warnings i -> l ∈ logs i) /\
  (forall l, l ∈ errors i -> l ∈ logs i \/ String.prefix "Process error: " l = true).

(** The fields no handler writes. *)
Definition same_identity (i i' : ComfyInstance) : Prop :=
  id i' = id i /\ pid i' = pid i /\ port i' = port i /\ host i' = host i /\
  options i' = options i /\ gpuIndices i' = gpuIndices i /\ startTime i' = startTime i.

(** [i'] is [i] with lines added at the end of its buffers. *)
Definition grows (i i' : ComfyInstance) : Prop :=
  same_identity i i' /\
  logs i `prefix_of` logs i' /\
  errors i `prefix_of` errors i' /\
  warnings i `prefix_of` warnings i'.

(** *** Effect logs *)

Definition is_sleep (e : effect) : bool :=
  match e with ESleep _ => true | _ => false end.

Definition sleeps (t : list effect) : nat := length (List.filter is_sleep t).

Definition is_process_probe (e : effect) : bool :=
  match e with EProcessProbe _ => true | _ => false end.

Definition process_probes (t : list effect) : nat :=
  length (List.filter is_process_probe t).

(** An effect of the readiness poll: a probe, or a sleep of [interval]. *)
Definition polling (interval : Z) (e : effect) : Prop :=
  match e with
  | EProcessProbe _ | EApiProbe => True
  | ESleep ms => ms = interval
  | _ => False
  end.

(** An effect of [stopInstance] on the process [p]. *)
Definition stopping (p : Z) (e : effect) : Prop :=
  match e with
  | EProcessProbe q | ETaskkill q | EKillTerm q | EKillKill q => q = p
  | ESleep ms => ms = 500
  | EHandleKill => True
  | EApiProbe => False
  end.

(** *** [queuePrompt] and [getSystemStats] *)

Inductive request : Type :=
| Post (url body : string)
| Get (url : string).

(** What [fetch] does: a response with its status, its text and what
    [response.json()] gives ([inl] when it throws), an abort by the
    timeout, or another failure. *)
Inductive fetch_outcome : Type :=
| Responded (http_status : Z) (text : string) (json : string + string)
| Aborted
| FetchThrows (message : string).

(** [response.ok] *)
Definition response_ok (http_status : Z) : bool :=
  (200 <=? http_status) && (http_status <=? 299).

Definition apiUrl (i : ComfyInstance) : string :=
  "http://" +:+ host i +:+ ":" +:+ pretty (port i).

(** The [try] block shared by the two calls; [inl] is the message of the
    error thrown. *)
Definition call (c : ComfyUICli) (fetch : request -> fetch_outcome) (req : request)
  : string + string :=
  match fetch req with
  | Responded http_status text json =>
      if response_ok http_status then json
      else inl ("ComfyUI API error (" +:+ pretty http_status +:+ "): " +:+ text)
  | Aborted =>
      inl ("ComfyUI API request timed out after " +:+ pretty (apiTimeout c) +:+ "ms")
  | FetchThrows message => inl message
  end.

(** [prompt] is [JSON.stringify(prompt)]; the list is the requests sent. *)
Definition queuePrompt (fetch : request -> fetch_outcome) (c : ComfyUICli)
           (instanceId : string) (prompt : string)
  : (string + string) * list request :=
  match instances c !! instanceId with
  | None => (inl ("Instance " +:+ instanceId +:+ " not found"), [])
  | Some instance =>
      match status instance with
      | Running =>
          let req := Post (apiUrl instance +:+ "/prompt") prompt in
          (call c fetch req, [req])
      | _ => (inl ("Instance " +:+ instanceId +:+ " is not running"), [])
      end
  end.

Definition getSystemStats (fetch : request -> fetch_outcome) (c : ComfyUICli)
           (instanceId : string)
  : (string + string) * list request :=
  match instances c !! instanceId with
  | None => (inl ("Instance " +:+ instanceId +:+ " not found"), [])
  | Some instance =>
      let req := Get (apiUrl instance +:+ "/system_stats") in
      (call c fetch req, [req])
  end.

(** *** The exported wrappers *)

(** The three timeouts a new object reads from the environment. *)
Record timeouts : Type := { env_api : Z; env_startup : Z; env_check : Z }.

(** [new ComfyUICli(comfyuiPath)] *)
Definition construct (env : timeouts) (path : string) : ComfyUICli :=
  mkCli None path ∅ false (env_api env) (env_startup env) (env_check env).

Definition launchComfyUI (l : launcher) (env : timeouts) (path : string)
           (opts : ComfyUIOptions) : launch_error + ComfyInstance :=
  let cli := construct env path in
  match initialize l cli with
  | (inl err, _) => inl (LookupFailed err)
  | (inr _, cli) => fst (launchInstance l cli "default" opts)
  end.

Definition isComfyUIReady (w : world) (fuel : nat) (env : timeouts) (instance : ComfyInstance)
           (maxAttempts checkInterval : option Z) : option (ready_result * list effect) :=
  let cli := construct env "" in
  match isInstanceReady w fuel cli (id instance) maxAttempts checkInterval with
  | Some (r, _, t) => Some (r, t)
  | None => None
  end.

Definition stopComfyInstance (w : world) (env : timeouts) (instance : ComfyInstance)
  : bool * list effect :=
  let cli := construct env "" in
  let '(killed, _, t) := stopInstance w cli (id instance) in
  (killed, t).

End CliExt.

(** ** [pythonUtils.ts] and the [config/python] route *)

Module PythonExt.
Import PythonUtils.

(** The effects a call added to the log. *)
Definition new_effects (before after : state) : list effect :=
  drop (length (trace before)) (trace after).

(** [findSystemPython]: [which] is the outcome of [which python3] (or
    [where python]), [inl] when the command throws. *)
Definition findSystemPython (isWindows : bool) (which : string + string) : string :=
  match which with
  | inl _ => "python"
  | inr result =>
      let pythonPath := hd "" (Js.split (ascii_of_nat 10) (Js.trim result)) in
      if String.eqb pythonPath ""
      then (if isWindows then "python" else "python3")
      else pythonPath
  end.

(** *** [GET /] and [POST /] of the [config/python] route *)

Definition get_python (s : state) : option (string * option string) :=
  match envVars s !! "PYTHON_PATH" with
  | None => None
  | Some row => Some (value row, description row)
  end.

Inductive set_response : Type :=
| Invalid (message : string)
| Saved (pythonPath version : string)
| ServerError (err : string).

(** [body.description || fallback] *)
Definition description_or (given : option string) (fallback : string) : string :=
  match given with
  | Some d => if String.eqb d "" then fallback else d
  | None => fallback
  end.

(** [explain] is the error text [validatePython] reports for a candidate
    it rejects. *)
Definition set_python (h : host) (explain : string -> string) (s : state)
           (pythonPath : string) (descr : option string) : set_response * state :=
  let s := log (EValidate pythonPath) s in
  match validatePython h pythonPath with
  | None => (Invalid ("Invalid Python path: " +:+ explain pythonPath), s)
  | Some version =>
      let s := log (EUpsertConfig "PYTHON_PATH" pythonPath) s in
      match upsert_throws h with
      | Some err => (ServerError err, s)
      | None =>
          (Saved pythonPath version,
           upsert "PYTHON_PATH" pythonPath
                  (description_or descr ("User-configured Python path (" +:+ version +:+ ")"))
                  s)
      end
  end.

End PythonExt.

(** ** [instances/index.ts]: the worker routes *)

Module Instances.
Import Schema.

(** What the handlers do to the operating system, in order. *)
Inductive effect : Type :=
| EKill (p : Z)
| ETaskkill (p : Z)
| EPs (p : Z)
| ETasklist (p : Z)
| ECurl (port : Z).

(** The operating system as the handlers see it; the [nat] is the number
    of effects performed so far. *)
Record host : Type := {
  os : Cli.platform;
  ps_exit : nat -> Z -> Z;
  tasklist_text : nat -> Z -> string;
  curl_stats : nat -> Z -> Z * string
}.

Record state : Type := mkState {
  comfyInstances : list worker;
  trace : list effect
}.

Definition log (e : effect) (s : state) : state :=
  mkState (comfyInstances s) (trace s ++ [e]).

Definition has_id (i : string) (w : worker) : bool := String.eqb (worker_id w) i.

(** [db.select().from(comfyInstances).where(eq(comfyInstances.id, id))] *)
Definition select (s : state) (i : string) : list worker :=
  List.filter (has_id i) (comfyInstances s).

(** [db.update(comfyInstances).set(...).where(eq(comfyInstances.id, id))] *)
Definition update (i : string) (set : worker -> worker) (s : state) : state :=
  mkState (map (fun w => if has_id i w then set w else w) (comfyInstances s)) (trace s).

(** *** [POST /] *)

(** The [gpuIndices] field of the request body. *)
Inductive gpu_body : Type :=
| GpuArray (indices : list Z)
| GpuString (selector : string)
| GpuOther.

Definition body_gpuIndices (g : gpu_body) : string :=
  match g with
  | GpuArray indices => JsArray.join "," (map pretty indices)
  | GpuString selector => selector
  | GpuOther => "cpu"
  end.

(** [newId] is the generated primary key, [optionsString] is
    [JSON.stringify(body.options || {})]. *)
Definition create (s : state) (newId name : string) (port : Z) (g : gpu_body)
           (optionsString : string) : worker * state :=
  let row := mkWorker newId name port (body_gpuIndices g) WStopped optionsString None None in
  (row, mkState (comfyInstances s ++ [row]) (trace s)).

(** *** [POST /:id/stop] *)

Inductive stop_response : Type :=
| StopNotFound
| StopNotRunning
| Stopped (i : string).

Definition set_stopped (w : worker) : worker :=
  mkWorker (worker_id w) (name w) (port w) (gpuIndices w) WStopped (options w) None
           (lastError w).

(** A kill command that throws is caught and logged; the handler goes
    on. *)
Definition stop (h : host) (s : state) (i : string) : stop_response * state :=
  match select s i with
  | [] => (StopNotFound, s)
  | instance :: _ =>
      match Cli.pid_truthy (pid instance) with
      | None => (StopNotRunning, s)
      | Some p =>
          let s :=
            match os h with
            | Cli.Linux | Cli.MacOS => log (EKill p) s
            | Cli.Windows => log (ETaskkill p) s
            | Cli.OtherOS => s
            end in
          (Stopped i, update i set_stopped s)
      end
  end.

(** *** [GET /:id/health] *)

Inductive health_response : Type :=
| HealthNotFound
| NotRunning (i : string) (st : worker_status)
| Unhealthy (i : string) (processRunning apiResponding : bool)
| Healthy (i : string).

Definition set_error (w : worker) : worker :=
  mkWorker (worker_id w) (name w) (port w) (gpuIndices w) WError (options w) (pid w)
           (lastError w).

Definition health (h : host) (s : state) (i : string) : health_response * state :=
  match select s i with
  | [] => (HealthNotFound, s)
  | instance :: _ =>
      match Cli.pid_truthy (pid instance), worker_state instance with
      | Some p, WRunning =>
          let '(isRunning, s) :=
            match os h with
            | Cli.Linux | Cli.MacOS =>
                (ps_exit h (length (trace s)) p =? 0, log (EPs p) s)
            | Cli.Windows =>
                (Js.includes (tasklist_text h (length (trace s)) p) (pretty p),
                 log (ETasklist p) s)
            | Cli.OtherOS => (false, s)
            end in
          let apiCheckResult := curl_stats h (length (trace s)) (port instance) in
          let s := log (ECurl (port instance)) s in
          let isApiResponding :=
            (fst apiCheckResult =? 0) && String.eqb (Js.trim (snd apiCheckResult)) "200" in
          if negb isRunning || negb isApiResponding
          then (Unhealthy i isRunning isApiResponding, update i set_error s)
          else (Healthy i, s)
      | _, _ => (NotRunning i (worker_state instance), s)
      end
  end.

(** Digits only, as [pretty] prints a natural number. *)
Definition is_digit (c : ascii) : bool :=
  let n := nat_of_ascii c in ((48 <=? n) && (n <=? 57))%nat.

Fixpoint all_digits (s : string) : bool :=
  match s with
  | EmptyString => true
  | String c rest => is_digit c && all_digits rest
  end.

End Instances.

(** ** [comfyLogParser.ts] and [getPlatformEnv] *)

Module LogParser.

Record ComfyLogParser : Type := { logs : list string }.

Definition new_parser : ComfyLogParser := {| logs := [] |}.

Definition addLog (logLine : string) (p : ComfyLogParser) : ComfyLogParser :=
  {| logs := logs p ++ [logLine] |}.

Definition addLogs (logLines : list string) (p : ComfyLogParser) : ComfyLogParser :=
  {| logs := logs p ++ logLines |}.

Definition clearLogs (p : ComfyLogParser) : ComfyLogParser := {| logs := [] |}.

Definition is_warning (log : string) : bool :=
  Js.includes log "WARNING" || Js.includes log "WARN" || Js.includes log "warning:".

Definition is_error (log : string) : bool :=
  Js.includes log "ERROR" || Js.includes log "error:" ||
  Js.includes log "Exception" || Js.includes log "Traceback".

Definition getWarnings (p : ComfyLogParser) : list string :=
  List.filter is_warning (logs p).

Definition getErrors (p : ComfyLogParser) : list string :=
  List.filter is_error (logs p).

End LogParser.

Module PlatformEnv.
Import BuildArgs Cli.

(** [getPlatformEnv]; [process_env] is [process.env]. *)
Definition getPlatformEnv (pf : platform) (process_env : gmap string string)
           (opts : ComfyUIOptions) : gmap string string :=
  let env := process_env in
  let env :=
    match pf with
    | Linux | Windows =>
        match get_option "cudaDevice" opts with
        | VUndefined => env
        | v => <["CUDA_VISIBLE_DEVICES" := toString v]> env
        end
    | _ => env
    end in
  match pf with
  | MacOS =>
      if truthy (get_option "useMps" opts)
      then <["PYTORCH_ENABLE_MPS_FALLBACK" := "1"]> env
      else env
  | _ => env
  end.

End PlatformEnv.

(** ** Further vocabulary for the job queue *)

Module QueueProps.
Import Schema Jobs.

(** No two running rows are bound to the same worker. *)
Definition one_job_per_worker (s : state) : Prop :=
  forall j1 j2 w,
    j1 ∈ jobQueue s -> j2 ∈ jobQueue s ->
    status j1 = Running -> status j2 = Running ->
    instanceId j1 = Some w -> instanceId j2 = Some w ->
    j1 = j2.

Definition is_post (e : event) : bool :=
  match e with HttpPostPrompt _ _ => true | _ => false end.

(** Number of POSTs to [/prompt] in a log. *)
Definition posts (t : list event) : nat := length (List.filter is_post t).

(** Every POST to [/prompt] fails at the transport level. *)
Definition unreachable (net : network) : Prop :=
  forall tick p body, exists err, post_prompt net tick p body = CurlThrows err.

(** [j'] is [j] after the scheduler handled it: the same row, or a pending
    row that became running or failed; the payload, the priority, the
    creation time and the output are those of [j]. *)
Definition scheduled_from (j j' : job) : Prop :=
  id j' = id j /\ workflowData j' = workflowData j /\ priority j' = priority j /\
  createdAt j' = createdAt j /\ output j' = output j /\
  (j' = j \/ (status j = Pending /\ (status j' = Running \/ status j' = Failed))).

(** A worker is free when it is up and no running job is bound to it. *)
Definition free_worker (s : state) (w : worker) : Prop :=
  w ∈ comfyInstances s /\ worker_state w = WRunning /\
  forall j, j ∈ jobQueue s -> status j = Running -> instanceId j <> Some (worker_id w).

(** [x] is the first element of [l] that has the property [P]. *)
Definition first_with {A} (P : A -> Prop) (l : list A) (x : A) : Prop :=
  P x /\ exists before after, l = before ++ x :: after /\ forall y, y ∈ before -> ~ P y.

(** [job] heads the queue: it is pending, no pending job comes before it in
    the order priority DESC, created_at ASC, and of the pending jobs with
    its priority and creation time it is the first in the table. *)
Definition heads_queue (s : state) (job : job) : Prop :=
  is_pending s job /\
  (forall j, is_pending s j -> precedes job j) /\
  exists before after,
    jobQueue s = before ++ job :: after /\
    forall j, j ∈ before -> status j = Pending -> strictly_precedes job j.

(** Nothing is left to pair: no job is pending, or no worker is free. *)
Definition settled (s : state) : Prop :=
  (forall j, ~ is_pending s j) \/ (forall w, ~ free_worker s w).

End QueueProps.

(** ** Sample inputs *)

Module CliSamples.
Import BuildArgs Cli.

(** A launcher whose interpreter lookup and spawn both succeed. *)
Definition sample_launcher : launcher :=
  {| launch_os := Linux;
     now := 1700000000;
     getPythonPath := fun _ => inr "/opt/ComfyUI/venv/bin/python";
     spawn := fun _ _ _ => Spawned {| child_pid := Some 4242 |} |}.

(** A world in which every process is alive, no endpoint answers and no
    handler fires. *)
Definition silent_world : world :=
  {| os := Linux;
     isProcessRunning := fun _ _ => true;
     fetch_ok := fun _ _ => false;
     async_events := fun _ i => i;
     taskkill_ok := true; kill_term_ok := true; kill_kill_ok := true |}.

Definition sample_instance : ComfyInstance :=
  {| id := "w1"; process := Some {| child_pid := Some 4242 |};
     port := 8190; host := "127.0.0.1"; gpuIndices := "cpu";
     options := [("port", VNumber 8190)]; status := Running;
     pid := Some 4242; logs := []; errors := []; warnings := [];
     lastError := None; startTime := Some 1700000000 |}.

(** The worker starts answering on [/system_stats] after a while. *)
Definition warming_world : world :=
  {| os := Linux;
     isProcessRunning := fun _ _ => true;
     fetch_ok := fun tick url =>
       (4 <=? tick)%nat && String.eqb url "http://127.0.0.1:8190/system_stats";
     async_events := fun _ i => i;
     taskkill_ok := true; kill_term_ok := true; kill_kill_ok := true |}.

(** The child prints a module-not-found error on stderr during the second
    pass of the poll. *)
Definition crashing_world : world :=
  {| os := Linux;
     isProcessRunning := fun _ _ => true;
     fetch_ok := fun _ _ => false;
     async_events := fun tick i =>
       if (tick =? 3)%nat then on_stderr_line "ModuleNotFoundError: No module named 'torch'" i
       else i;
     taskkill_ok := true; kill_term_ok := true; kill_kill_ok := true |}.

(** A worker whose child printed a module-not-found error while starting. *)
Definition failing_instance : ComfyInstance :=
  with_status Starting (push_error "ModuleNotFoundError: No module named 'torch'" sample_instance).

(** An object that knows its interpreter and holds the record of w1, as
    the statements after the spawn would leave it. *)
Definition sample_cli : ComfyUICli :=
  snd (after_spawn sample_launcher
                   (with_python "/opt/ComfyUI/venv/bin/python" (new_cli "/opt/ComfyUI"))
                   "w1" [("port", VNumber 8190)]
                   (new_instance sample_launcher "w1" [("port", VNumber 8190)])
                   {| child_pid := Some 4242 |}).

(** The same object when [COMFY_CHECK_INTERVAL] is 0. *)
Definition stalled_cli : ComfyUICli :=
  mkCli (pythonPath sample_cli) (comfyuiPath sample_cli) (instances sample_cli)
        (initialized sample_cli) 5000 120000 0.

(** Two lines of child output in one chunk, with a blank line between. *)
Definition two_lines : string :=
  "Starting server" +:+ String (ascii_of_nat 10) (String (ascii_of_nat 10) "WARNING: low memory")
  +:+ String (ascii_of_nat 10) "".

(** A world in which no kill command succeeds. *)
Definition stubborn_world : world :=
  {| os := Linux;
     isProcessRunning := fun _ _ => true;
     fetch_ok := fun _ _ => false;
     async_events := fun _ i => i;
     taskkill_ok := false; kill_term_ok := false; kill_kill_ok := false |}.

(** A worker with three logged lines. *)
Definition chatty_instance : ComfyInstance :=
  on_stdout_line "To see the GUI go to: http://127.0.0.1:8190"
    (on_stdout_line "WARNING: low memory" (on_stdout_line "Starting server" sample_instance)).

Definition chatty_cli : ComfyUICli :=
  with_instances (<["w1" := chatty_instance]> (instances sample_cli)) sample_cli.

End CliSamples.

Module CliExtSamples.
Import BuildArgs Cli CliSamples CliExt.

Definition sample_env : timeouts :=
  {| env_api := 5000; env_startup := 120000; env_check := 3000 |}.

(** A record under the id the wrappers launch with. *)
Definition default_instance : ComfyInstance :=
  {| id := "default"; process := Some {| child_pid := Some 4242 |};
     port := 8190; host := "127.0.0.1"; gpuIndices := "cpu";
     options := [("port", VNumber 8190)]; status := Running;
     pid := Some 4242; logs := []; errors := []; warnings := [];
     lastError := None; startTime := Some 1700000000 |}.

End CliExtSamples.

Module HostSamples.
Import PortUtils PythonUtils.

(** Ports 65534 and 65535 are taken; the runtime refuses to listen on
    anything above 65535. *)
Definition crowded (port : Z) : listen_outcome :=
  if port <? 65534 then Listening
  else if port <? 65536 then ErrorEvent
  else ListenThrows.

(** Ports 8188 and 8189 are taken, everything else is free. *)
Definition two_workers_up (port : Z) : listen_outcome :=
  if (8188 <=? port) && (port <=? 8189) then ErrorEvent else Listening.

(** An install with a virtual environment and an empty config store. *)
Definition venv_host : host :=
  {| validatePython := fun _ => Some "Python 3.11.4";
     findPythonInVenv := fun dir => Some (dir +:+ "/venv/bin/python");
     findSystemPython := "/usr/bin/python3";
     select_throws := None;
     upsert_throws := None |}.

Definition fresh_state : state := mkState ∅ ∅ [].

End HostSamples.

Module PythonExtSamples.
Import PythonUtils HostSamples.

(** An install without a virtual environment. *)
Definition bare_host : host :=
  {| validatePython := fun _ => Some "Python 3.11.4";
     findPythonInVenv := fun _ => None;
     findSystemPython := "/usr/bin/python3";
     select_throws := None;
     upsert_throws := None |}.

(** The install path is already resolved to the system interpreter. *)
Definition cached_state : state :=
  mkState (<["/opt/ComfyUI" := "/usr/bin/python3"]> ∅) ∅ [].

End PythonExtSamples.

Module InstancesSamples.
Import Schema Instances.

Definition empty_table : state := mkState [] [].

(** A worker the table has as running, with a pid. *)
Definition row_W : worker :=
  {| worker_id := "W"; name := "gpu0"; port := 8190; gpuIndices := "0";
     worker_state := WRunning; options := "{}"; pid := Some 4242; lastError := None |}.

Definition one_worker : state := mkState [row_W] [].

(** A Linux host on which the process is gone and nothing answers. *)
Definition dead_host : host :=
  {| os := Cli.Linux;
     ps_exit := fun _ _ => 1;
     tasklist_text := fun _ _ => "";
     curl_stats := fun _ _ => (7, "000") |}.

End InstancesSamples.

Module JobSamples.
Import Schema Jobs.

Definition worker_W : worker :=
  {| worker_id := "W"; name := "gpu0"; port := 8190; gpuIndices := "0,1";
     worker_state := WRunning; options := "{}"; pid := Some 4242; lastError := None |}.

Definition job_J1 : job :=
  {| id := "J1"; workflowData := "[1]"; priority := 0; status := Pending;
     instanceId := None; output := None; error := None; createdAt := 100 |}.

Definition job_J2 : job :=
  {| id := "J2"; workflowData := "[2]"; priority := 10; status := Pending;
     instanceId := None; output := None; error := None; createdAt := 101 |}.

(** Every request is answered with HTTP 200 and the request body. *)
Definition echo_net : network :=
  {| reserialize := fun body => inr body;
     post_prompt := fun _ _ body =>
       if String.eqb body "null" then CurlNull 200 else CurlJson 200 body;
     post_interrupt := fun _ _ => None;
     null_read_error := "TypeError: null is not an object (evaluating 'response.prompt_id')" |}.

(** Nothing listens: every curl call exits with a connection error. *)
Definition dead_net : network :=
  {| reserialize := fun body => inr body;
     post_prompt := fun _ _ _ => CurlThrows "ShellError: Failed with exit code 7";
     post_interrupt := fun _ _ => Some "ShellError: Failed with exit code 7";
     null_read_error := "TypeError: null is not an object (evaluating 'response.prompt_id')" |}.


(** Worker W is up; J1 (priority 0) and J2 (priority 10) are queued. *)
Definition two_queued : state :=
  {| jobQueue := [job_J1; job_J2]; comfyInstances := [worker_W]; trace := [] |}.

(** Worker W is up and J1 is running on it. *)
Definition one_running : state :=
  {| jobQueue := [set_running "W" job_J1]; comfyInstances := [worker_W]; trace := [] |}.

(** A second worker, up and without a job. *)
Definition worker_W2 : worker :=
  {| worker_id := "W2"; name := "gpu1"; port := 8191; gpuIndices := "1";
     worker_state := WRunning; options := "{}"; pid := Some 4243; lastError := None |}.


(** W and W2 are up; J1 and J2 are queued. *)
Definition two_queued_two_workers : state :=
  {| jobQueue := [job_J1; job_J2]; comfyInstances := [worker_W; worker_W2]; trace := [] |}.

End JobSamples.

Module MonitoringSamples.
Import Schema Monitoring.

Definition gpu (n : Z) : GPUDevice :=
  {| index := n; device_name := "NVIDIA RTX"; memoryUsed := Some 1024;
     memoryTotal := Some 8192; utilization := Some 25 |}.

(** A stubbed inventory with devices 0 and 1, and fixed host metrics. *)
Definition stub : probes :=
  {| getGPUInfo := fun _ => {| available := true; devices := [gpu 0; gpu 1] |};
     getGPUMetrics := [gpu 0; gpu 1];
     getSystemMetrics :=
       {| host_cpuUtilization := 10; host_ramUsed := 4096; host_ramTotal := 16384 |} |}.

Definition worker_W : worker :=
  {| worker_id := "W"; name := "gpu01"; port := 8190; gpuIndices := "0,1";
     worker_state := WRunning; options := "{}"; pid := Some 4242; lastError := None |}.

(** W is running; the config store has no [COMFYUI_PATH] entry. *)
Definition unconfigured : state :=
  {| comfyInstances := [worker_W]; envVars := ∅; resourceMetrics := [] |}.

(** W is running and [COMFYUI_PATH] is set. *)
Definition configured : state :=
  {| comfyInstances := [worker_W];
     envVars := {[ "COMFYUI_PATH" := "/opt/ComfyUI" ]};
     resourceMetrics := [] |}.

End MonitoringSamples.

(** * Theorems *)

Module BuildArgsFacts.
Import BuildArgs.

Example toKebabCase_fp8 : toKebabCase "fp8E4m3fnUnet" = "fp8-e4m3fn-unet".
Proof. reflexivity. Qed.

Example toKebabCase_cors : toKebabCase "enableCorsHeader" = "enable-cors-header".
Proof. reflexivity. Qed.

Example buildArgs_sample :
  buildArgs [("port", VNumber 8190); ("cudaDevice", VNumber 1);
             ("lowvram", VBool true); ("cpu", VBool false);
             ("fast", VArray ["fp16_accumulation"; "fp8_matrix_mult"]);
             ("extraModelPathsConfig", VArray ["a.yaml"; "b.yaml"])]
  = ["--port"; "8190"; "--lowvram";
     "--fast"; "fp16_accumulation"; "fp8_matrix_mult";
     "--extra-model-paths-config"; "a.yaml";
     "--extra-model-paths-config"; "b.yaml"].
Proof. reflexivity. Qed.

Lemma buildArgs_body_emit args entry :
  buildArgs_body args entry = args ++ emit_spec entry.
Proof.
  destruct entry as [key value]. unfold buildArgs_body, emit_spec, internal_option, push, flag.
  destruct (String.eqb key "cudaDevice" || String.eqb key "useMps").
  { by rewrite app_nil_r. }
  destruct value as [|[]|n|s|items]; try done; try by rewrite app_nil_r.
  destruct (String.eqb (toKebabCase key) "fast").
  - by destruct items.
  - generalize args. induction items as [|item items IH]; intros acc; simpl.
    + by rewrite app_nil_r.
    + rewrite IH. by rewrite <- app_assoc.
Qed.

Lemma fold_buildArgs_body options : forall args,
  fold_left buildArgs_body options args = args ++ flat_map emit_spec options.
Proof.
  induction options as [|entry options IH]; intros args; simpl.
  - by rewrite app_nil_r.
  - rewrite IH, buildArgs_body_emit. by rewrite <- app_assoc.
Qed.

Lemma buildArgs_flat_map options :
  buildArgs options = flat_map emit_spec options.
Proof. unfold buildArgs. by rewrite fold_buildArgs_body. Qed.

Lemma internal_option_true key :
  key = "cudaDevice" \/ key = "useMps" -> internal_option key = true.
Proof. by intros [-> | ->]. Qed.

(** C4.  [buildArgs] is the concatenation, in entry order, of what the
    specification prescribes per option: nothing for the two internal
    options [cudaDevice] and [useMps], nothing for an unset or [false]
    option, the bare flag for [true], the flag followed by the value for a
    scalar, [--fast a b] for the [fast] array and [--flag a --flag b] for
    any other array. *)
Theorem buildArgs_emits_flags :
  (forall options, buildArgs options = flat_map emit_spec options) /\
  (forall key, internal_option key = false ->
     buildArgs [(key, VBool true)] = [flag key] /\
     buildArgs [(key, VBool false)] = [] /\
     buildArgs [(key, VUndefined)] = [] /\
     (forall n, buildArgs [(key, VNumber n)] = [flag key; pretty n]) /\
     (forall s, buildArgs [(key, VString s)] = [flag key; s]) /\
     (forall a b, toKebabCase key <> "fast" ->
        buildArgs [(key, VArray [a; b])] = [flag key; a; flag key; b])) /\
  (forall a b, buildArgs [("fast", VArray [a; b])] = ["--fast"; a; b]) /\
  (forall key value before after,
     key = "cudaDevice" \/ key = "useMps" ->
     buildArgs (before ++ (key, value) :: after) = buildArgs (before ++ after)).
Proof.
  split; [exact buildArgs_flat_map|].
  split; [|split].
  - intros key Hkey. rewrite !buildArgs_flat_map. simpl. rewrite Hkey.
    do 3 (split; [reflexivity|]).
    split; [|split].
    + intros n. rewrite buildArgs_flat_map. simpl. by rewrite Hkey.
    + intros s. rewrite buildArgs_flat_map. simpl. by rewrite Hkey.
    + intros a b Hfast. rewrite buildArgs_flat_map. simpl. rewrite Hkey.
      apply String.eqb_neq in Hfast. by rewrite Hfast.
  - done.
  - intros key value before after Hkey.
    rewrite !buildArgs_flat_map, !flat_map_app. simpl.
    by rewrite (internal_option_true key Hkey).
Qed.

Lemma buildArgs_emits_flags_witness :
  internal_option "extraModelPathsConfig" = false /\
  toKebabCase "extraModelPathsConfig" <> "fast" /\
  buildArgs [("extraModelPathsConfig", VArray ["a.yaml"; "b.yaml"])]
  = ["--extra-model-paths-config"; "a.yaml";
     "--extra-model-paths-config"; "b.yaml"] /\
  buildArgs ([("port", VNumber 8190)] ++ ("cudaDevice", VNumber 1) :: [("cpu", VBool true)])
  = buildArgs ([("port", VNumber 8190)] ++ [("cpu", VBool true)]).
Proof.
  split; [reflexivity|]. split; [discriminate|]. split.
  - apply (proj1 (proj2 buildArgs_emits_flags) "extraModelPathsConfig").
    + reflexivity.
    + discriminate.
  - apply (proj2 (proj2 (proj2 buildArgs_emits_flags))). left. reflexivity.
Defined.

End BuildArgsFacts.

Module CliFacts.
Import BuildArgs Cli CliSamples.

Example sample_cli_instance : getInstance sample_cli "w1" = Some sample_instance.
Proof. reflexivity. Qed.

Example poll_becomes_ready :
  isInstanceReady warming_world 11 sample_cli "w1" (Some 10) (Some 1000)
  = Some ({| ready := true; result_status := "running" |}, sample_cli,
          [EProcessProbe 4242; EApiProbe; ESleep 1000;
           EProcessProbe 4242; EApiProbe]).
Proof. reflexivity. Qed.

Example poll_sees_fatal_log :
  match isInstanceReady crashing_world 11 sample_cli "w1" (Some 10) (Some 1000) with
  | Some (r, c', t) =>
      r = {| ready := false; result_status := "error" |} /\
      t = [EProcessProbe 4242; EApiProbe; ESleep 1000; EProcessProbe 4242; EApiProbe] /\
      status <$> getInstance c' "w1" = Some Error
  | None => False
  end.
Proof. vm_compute. repeat split. Qed.

Example poll_never_ends_without_interval :
  effective_attempts stalled_cli None = Js.PosInfinity /\
  isInstanceReady silent_world 50 stalled_cli "w1" None None = None.
Proof. split; reflexivity. Qed.

Example stop_after_sigterm :
  stopInstance silent_world sample_cli "w1"
  = (true,
     with_instances (<["w1" := with_process None (with_status Stopped sample_instance)]>
                       (instances sample_cli)) sample_cli,
     [EKillTerm 4242] ++
     concat (replicate 10 [EProcessProbe 4242; ESleep 500]) ++
     [EKillKill 4242; EHandleKill]).
Proof. reflexivity. Qed.

(** *** Launch and the status field *)

(** Every launch ends at the first of two points: the lookup of the
    interpreter, or the read of [process]. *)
Lemma launchInstance_cases l c instanceId opts :
  (exists p, known_python c = Some p /\
             launchInstance l c instanceId opts = (inl (ReferenceError "process"), c)) \/
  (exists e, known_python c = None /\ getPythonPath l (comfyuiPath c) = inl e /\
             launchInstance l c instanceId opts = (inl (LookupFailed e), c)) \/
  (exists p, known_python c = None /\ getPythonPath l (comfyuiPath c) = inr p /\
             launchInstance l c instanceId opts
             = (inl (ReferenceError "process"), with_python p c)).
Proof.
  unfold launchInstance, initialize.
  destruct (known_python c) as [p|] eqn:Hp.
  - left. by exists p.
  - right.
    assert ((if initialized c then @None string else None) = None) as ->
      by by destruct (initialized c).
    destruct (getPythonPath l (comfyuiPath c)) as [e|p].
    + left. by exists e.
    + right. by exists p.
Qed.

Lemma poll_attempt_ready w c instanceId attempts interval attempt st r st' :
  poll_attempt w c instanceId attempts interval attempt st = inl (r, st') ->
  ready r = true ->
  result_status r = "running" /\
  exists st1, st' = await w EApiProbe st1 /\
              (st1 = st \/ exists p, st1 = await w (EProcessProbe p) st).
Proof.
  unfold poll_attempt.
  destruct (pid_truthy (pid (ps_instance st))) as [p|].
  - destruct (isProcessRunning w _ p); simpl.
    + destruct (isApiReady _ _ _ _).
      * intros [= <- <-] _. split; [done|]. eexists. split; [done|]. right. by exists p.
      * destruct (hasFatalErrors _); [by intros [= <- <-]|].
        by repeat case_match.
    + by intros [= <- <-].
  - simpl. destruct (isApiReady _ _ _ _).
    + intros [= <- <-] _. split; [done|]. eexists. split; [done|]. by left.
    + destruct (hasFatalErrors _); [by intros [= <- <-]|].
      by repeat case_match.
Qed.

(** C3, at the failing input: a new object launches worker w1, and both the
    lookup of the interpreter and the spawn would succeed.  The call throws
    a [ReferenceError] for [process] before it reaches [spawn]; no record
    is stored, so no worker has a status or a pid, and the readiness poll
    answers "not_found".  It is so for every launch: the call throws, for
    [process] or because the interpreter was not found, and the instance
    map is as before.  The statements after the spawn, which no call
    reaches, would take the record from [starting] to [running] before
    they store it under the worker's id; a pass of the poll that reports
    [ready] only awaits its probes and writes no status. *)
Theorem launchInstance_always_throws :
  (let c' := with_python "/opt/ComfyUI/venv/bin/python" (new_cli "/opt/ComfyUI") in
   launchInstance sample_launcher (new_cli "/opt/ComfyUI") "w1" [("port", VNumber 8190)]
   = (inl (ReferenceError "process"), c') /\
   getInstance c' "w1" = None /\
   forall w fuel,
     isInstanceReady w fuel c' "w1" None None
     = Some ({| ready := false; result_status := "not_found" |}, c', [])) /\
  (forall l c instanceId opts,
     exists err c',
       launchInstance l c instanceId opts = (inl err, c') /\
       instances c' = instances c /\
       (err = ReferenceError "process" \/
        exists e, err = LookupFailed e /\ known_python c = None /\
                  getPythonPath l (comfyuiPath c) = inl e)) /\
  (forall l c instanceId opts child,
     let before := new_instance l instanceId opts in
     let after := after_spawn l c instanceId opts before child in
     status before = Starting /\ pid before = None /\
     status (fst after) = Running /\ pid (fst after) = child_pid child /\
     instances (snd after) !! instanceId = Some (fst after)) /\
  (forall w c instanceId attempts interval attempt st r st',
     poll_attempt w c instanceId attempts interval attempt st = inl (r, st') ->
     ready r = true ->
     result_status r = "running" /\
     exists st1, st' = await w EApiProbe st1 /\
                 (st1 = st \/ exists p, st1 = await w (EProcessProbe p) st)).
Proof.
  split; [|split; [|split]].
  - cbv zeta. split; [reflexivity|]. split; [reflexivity|]. done.
  - intros l c instanceId opts.
    destruct (launchInstance_cases l c instanceId opts)
      as [(p & Hp & ->) | [(e & Hp & He & ->) | (p & Hp & He & ->)]].
    + exists (ReferenceError "process"), c. auto.
    + exists (LookupFailed e), c. split; [done|]. split; [done|]. right. by exists e.
    + exists (ReferenceError "process"), (with_python p c). auto.
  - intros l c instanceId opts child. cbv zeta. cbn.
    repeat split. by rewrite lookup_insert_eq.
  - intros. by eapply poll_attempt_ready.
Qed.

(** *** The readiness poll *)

Lemma ceil_div_is_ceiling a b :
  0 < b -> exists q, Js.ceil_div a b = Js.Int q /\ b * (q - 1) < a <= b * q.
Proof.
  intros Hb. unfold Js.ceil_div. destruct (Z.eqb_spec b 0) as [->|_]; [lia|].
  eexists. split; [reflexivity|].
  pose proof (Z.div_mod (- a) b ltac:(lia)) as Hdm.
  pose proof (Z.mod_pos_bound (- a) b Hb) as Hr.
  nia.
Qed.

Lemma ceil_div_by_zero a : 0 < a -> Js.ceil_div a 0 = Js.PosInfinity.
Proof. intros Ha. unfold Js.ceil_div. simpl. by destruct (Z.ltb_spec 0 a); [|lia]. Qed.

Lemma api_probes_snoc t e :
  api_probes (t ++ [e]) = (api_probes t + if is_api_probe e then 1 else 0)%nat.
Proof.
  unfold api_probes. rewrite List.filter_app, length_app. simpl.
  by destruct (is_api_probe e).
Qed.

Lemma hasFatalErrors_errors i j : errors i = errors j -> hasFatalErrors i = hasFatalErrors j.
Proof. unfold hasFatalErrors. by intros ->. Qed.

Lemma is_fatal_intro line needle :
  needle ∈ fatal_substrings -> Js.includes line needle = true -> is_fatal line = true.
Proof.
  unfold fatal_substrings, is_fatal. intros Hin Hinc.
  repeat (apply elem_of_cons in Hin as [-> | Hin];
          [rewrite Hinc; by rewrite ?orb_true_r|]).
  by apply elem_of_nil in Hin.
Qed.

Lemma hasFatalErrors_intro i line needle :
  line ∈ errors i -> needle ∈ fatal_substrings -> Js.includes line needle = true ->
  hasFatalErrors i = true.
Proof.
  intros Hline Hneedle Hinc. unfold hasFatalErrors.
  apply existsb_exists. exists line. split.
  - by apply list_elem_of_In.
  - by eapply is_fatal_intro.
Qed.

Lemma isApiReady_no_answer w t c instanceId :
  (forall url, fetch_ok w t url = false) -> isApiReady w t c instanceId = false.
Proof.
  intros H. unfold isApiReady. destruct (instances c !! instanceId); [|done].
  simpl. by rewrite !H.
Qed.

Lemma poll_attempt_fatal w c instanceId attempts interval attempt st :
  process_probe_passes w st ->
  api_probe_fails w c instanceId (after_process_probe w st) ->
  hasFatalErrors (ps_instance (await w EApiProbe (after_process_probe w st))) = true ->
  poll_attempt w c instanceId attempts interval attempt st
  = inl ({| ready := false; result_status := "error" |},
         update (with_status Error) (await w EApiProbe (after_process_probe w st))).
Proof.
  unfold process_probe_passes, api_probe_fails, after_process_probe, poll_attempt.
  intros Hproc Hapi Hfatal.
  destruct (pid_truthy (pid (ps_instance st))) as [p|].
  - rewrite (Hproc p eq_refl). change (negb true) with false. cbv iota.
    rewrite Hapi. by rewrite Hfatal.
  - change (negb true) with false. cbv iota. rewrite Hapi. by rewrite Hfatal.
Qed.

Lemma await_calm w e st :
  unresponsive w ->
  hasFatalErrors (ps_instance (await w e st)) = hasFatalErrors (ps_instance st) /\
  pid (ps_instance (await w e st)) = pid (ps_instance st) /\
  api_probes (ps_trace (await w e st))
  = (api_probes (ps_trace st) + if is_api_probe e then 1 else 0)%nat.
Proof.
  intros (_ & _ & Hcalm).
  destruct (Hcalm (length (ps_trace st)) (ps_instance st)) as [Herrors Hpid].
  split; [by apply hasFatalErrors_errors|]. split; [done|].
  apply api_probes_snoc.
Qed.

Lemma poll_attempt_unresponsive w c instanceId attempts interval attempt st :
  unresponsive w -> hasFatalErrors (ps_instance st) = false ->
  exists st',
    poll_attempt w c instanceId attempts interval attempt st = inr st' /\
    api_probes (ps_trace st') = S (api_probes (ps_trace st)) /\
    hasFatalErrors (ps_instance st') = false /\
    pid (ps_instance st') = pid (ps_instance st).
Proof.
  intros Hw Hclean. pose proof Hw as (Halive & Hfetch & _).
  assert (exists st1,
             hasFatalErrors (ps_instance st1) = false /\
             pid (ps_instance st1) = pid (ps_instance st) /\
             api_probes (ps_trace st1) = api_probes (ps_trace st) /\
             poll_attempt w c instanceId attempts interval attempt st
             = if hasFatalErrors (ps_instance (await w EApiProbe st1))
               then inl ({| ready := false; result_status := "error" |},
                         update (with_status Error) (await w EApiProbe st1))
               else if Js.less_than (Js.Int attempt) (Js.minus_one attempts)
                    then inr (await w (ESleep interval) (await w EApiProbe st1))
                    else inr (await w EApiProbe st1)) as (st1 & Hf1 & Hp1 & Hn1 & ->).
  { unfold poll_attempt. destruct (pid_truthy (pid (ps_instance st))) as [p|].
    - exists (await w (EProcessProbe p) st).
      destruct (await_calm w (EProcessProbe p) st Hw) as (-> & -> & ->).
      rewrite Halive. change (negb true) with false. cbv iota.
      rewrite isApiReady_no_answer by done. simpl. split; [done|]. split; [done|].
      split; [lia|done].
    - exists st. change (negb true) with false. cbv iota.
      by rewrite isApiReady_no_answer. }
  destruct (await_calm w EApiProbe st1 Hw) as (Hf2 & Hp2 & Hn2).
  rewrite Hf2, Hf1.
  destruct (Js.less_than (Js.Int attempt) (Js.minus_one attempts)).
  - destruct (await_calm w (ESleep interval) (await w EApiProbe st1) Hw) as (Hf3 & Hp3 & Hn3).
    eexists. split; [reflexivity|].
    rewrite Hf3, Hp3, Hn3, Hf2, Hp2, Hn2, Hf1, Hp1, Hn1. simpl.
    split; [lia|done].
  - eexists. split; [reflexivity|].
    rewrite Hf2, Hp2, Hn2, Hf1, Hp1, Hn1. simpl.
    split; [lia|done].
Qed.

Lemma poll_exhausted_unresponsive w st :
  unresponsive w ->
  fst (poll_exhausted w st)
  = {| ready := false;
       result_status := match pid_truthy (pid (ps_instance st)) with
                        | Some _ => "starting"
                        | None => "error"
                        end |} /\
  api_probes (ps_trace (snd (poll_exhausted w st))) = api_probes (ps_trace st).
Proof.
  intros (Halive & _ & _). unfold poll_exhausted.
  destruct (pid_truthy (pid (ps_instance st))) as [p|].
  - rewrite Halive. simpl. rewrite api_probes_snoc. simpl. split; [done|lia].
  - done.
Qed.

Lemma poll_passes_unresponsive w c instanceId attempts interval remaining :
  unresponsive w ->
  forall attempt st,
    hasFatalErrors (ps_instance st) = false ->
    fst (poll_passes w c instanceId attempts interval remaining attempt st)
    = {| ready := false;
         result_status := match pid_truthy (pid (ps_instance st)) with
                        | Some _ => "starting"
                        | None => "error"
                        end |} /\
    api_probes (ps_trace (snd (poll_passes w c instanceId attempts interval remaining
                                           attempt st)))
    = (api_probes (ps_trace st) + remaining)%nat.
Proof.
  intros Hw. induction remaining as [|remaining IH]; intros attempt st Hclean.
  - simpl. destruct (poll_exhausted_unresponsive w st Hw) as [-> ->]. split; [done|lia].
  - simpl.
    destruct (poll_attempt_unresponsive w c instanceId attempts interval attempt st Hw Hclean)
      as (st' & -> & Hcount & Hclean' & Hpid).
    destruct (IH (attempt + 1) st' Hclean') as [-> ->].
    rewrite Hpid, Hcount. split; [done|lia].
Qed.

(** With a finite number of attempts the loop makes the passes that are
    left and then runs the code after it. *)
Lemma poll_loop_finite w c instanceId n interval :
  forall remaining fuel attempt st,
    remaining = Z.to_nat (n - attempt) ->
    (remaining < fuel)%nat ->
    poll_loop w c instanceId (Js.Int n) interval fuel attempt st
    = Some (poll_passes w c instanceId (Js.Int n) interval remaining attempt st).
Proof.
  induction remaining as [|remaining IH]; intros [|fuel] attempt st Hr Hf; try lia;
    cbn [poll_loop poll_passes Js.less_than].
  - by destruct (Z.ltb_spec attempt n); [lia|].
  - destruct (Z.ltb_spec attempt n); [|lia].
    destruct (poll_attempt w c instanceId (Js.Int n) interval attempt st); [done|].
    apply IH; lia.
Qed.

(** With infinitely many attempts and nothing to stop it, the loop is still
    running after any number of passes. *)
Lemma poll_loop_forever w c instanceId interval :
  unresponsive w ->
  forall fuel attempt st,
    hasFatalErrors (ps_instance st) = false ->
    poll_loop w c instanceId Js.PosInfinity interval fuel attempt st = None.
Proof.
  intros Hw. induction fuel as [|fuel IH]; intros attempt st Hclean; [done|].
  cbn [poll_loop Js.less_than].
  destruct (poll_attempt_unresponsive w c instanceId Js.PosInfinity interval attempt st
              Hw Hclean) as (st' & -> & _ & Hclean' & _).
  by apply IH.
Qed.

(** C6.  The number of attempts is [maxAttempts], or else (none given, or
    0) [ceil(startupTimeout / checkInterval)], which for a positive interval
    is the least integer not below the quotient and for the interval 0 and
    a positive timeout is infinite.  When no pass can return (the process
    stays alive, no endpoint answers, no fatal line is logged) and the
    number of attempts is the integer [n], the poll returns after exactly
    [n] API probes with the answer [{false, "starting"}] ([{false,
    "error"}] when no pid is set); when the number of attempts is infinite
    it never returns.  A pass that gets as far as scanning the errors
    buffer and finds a line containing one of the fatal substrings sets the
    status to [error] and returns [{false, "error"}].  Once the loop test
    fails the answer is [{false, "starting"}] if the pid is set and the
    process probe says alive, and [{false, "error"}] (with the status set
    to [error]) otherwise. *)
Theorem readiness_poll_outcomes :
  (* effective attempts *)
  ((forall c n, n <> 0 -> effective_attempts c (Some n) = Js.Int n) /\
   (forall c given,
      given = None \/ given = Some 0 ->
      effective_attempts c given = Js.ceil_div (startupTimeout c) (checkInterval c)) /\
   (forall a b, 0 < b ->
                exists q, Js.ceil_div a b = Js.Int q /\ b * (q - 1) < a <= b * q) /\
   (forall a, 0 < a -> Js.ceil_div a 0 = Js.PosInfinity) /\
   (forall w c instanceId maxAttempts interval instance n fuel,
      unresponsive w ->
      instances c !! instanceId = Some instance ->
      status instance = Running \/ status instance = Starting ->
      hasFatalErrors instance = false ->
      effective_attempts c maxAttempts = Js.Int n ->
      (Z.to_nat n < fuel)%nat ->
      exists c' t,
        isInstanceReady w fuel c instanceId maxAttempts interval
        = Some ({| ready := false;
                   result_status := match pid_truthy (pid instance) with
                                    | Some _ => "starting"
                                    | None => "error"
                                    end |}, c', t) /\
        api_probes t = Z.to_nat n) /\
   (forall w c instanceId maxAttempts interval instance fuel,
      unresponsive w ->
      instances c !! instanceId = Some instance ->
      status instance = Running \/ status instance = Starting ->
      hasFatalErrors instance = false ->
      effective_attempts c maxAttempts = Js.PosInfinity ->
      isInstanceReady w fuel c instanceId maxAttempts interval = None)) /\
  (* a fatal line in the errors buffer *)
  (forall w c instanceId attempts interval fuel attempt st line needle,
     Js.less_than (Js.Int attempt) attempts = true ->
     process_probe_passes w st ->
     api_probe_fails w c instanceId (after_process_probe w st) ->
     line ∈ errors (ps_instance (await w EApiProbe (after_process_probe w st))) ->
     needle ∈ fatal_substrings ->
     Js.includes line needle = true ->
     poll_loop w c instanceId attempts interval (S fuel) attempt st
     = Some ({| ready := false; result_status := "error" |},
             update (with_status Error) (await w EApiProbe (after_process_probe w st)))) /\
  (* after the last pass *)
  (forall w c instanceId attempts interval fuel attempt st,
     Js.less_than (Js.Int attempt) attempts = false ->
     poll_loop w c instanceId attempts interval (S fuel) attempt st
     = Some (poll_exhausted w st) /\
     (forall p, pid_truthy (pid (ps_instance st)) = Some p ->
                isProcessRunning w (length (ps_trace st)) p = true ->
                fst (poll_exhausted w st) = {| ready := false; result_status := "starting" |}) /\
     ((pid_truthy (pid (ps_instance st)) = None \/
       exists p, pid_truthy (pid (ps_instance st)) = Some p /\
                 isProcessRunning w (length (ps_trace st)) p = false) ->
      fst (poll_exhausted w st) = {| ready := false; result_status := "error" |} /\
      status (ps_instance (snd (poll_exhausted w st))) = Error)).
Proof.
  split; [|split].
  - split; [|split; [|split; [|split; [|split]]]].
    + intros c n Hn. unfold effective_attempts.
      by destruct (Z.eqb_spec n 0).
    + by intros c given [-> | ->].
    + exact ceil_div_is_ceiling.
    + exact ceil_div_by_zero.
    + intros w c instanceId maxAttempts interval instance n fuel
             Hw Hget Hstatus Hclean Hn Hfuel.
      unfold isInstanceReady. rewrite Hget, Hn.
      rewrite (poll_loop_finite w c instanceId n (effective_interval c interval)
                 (Z.to_nat n) fuel 0 {| ps_instance := instance; ps_trace := [] |})
        by (done || f_equal; lia).
      pose proof (poll_passes_unresponsive w c instanceId (Js.Int n)
                    (effective_interval c interval) (Z.to_nat n) Hw 0
                    {| ps_instance := instance; ps_trace := [] |} Hclean) as [Hr Hcount].
      destruct (poll_passes _ _ _ _ _ _ _ _) as [r st'].
      simpl in Hr, Hcount. subst r.
      destruct Hstatus as [-> | ->]; by eexists _, _.
    + intros w c instanceId maxAttempts interval instance fuel Hw Hget Hstatus Hclean Hinf.
      unfold isInstanceReady. rewrite Hget, Hinf.
      rewrite (poll_loop_forever w c instanceId (effective_interval c interval) Hw fuel 0
                 {| ps_instance := instance; ps_trace := [] |} Hclean).
      by destruct Hstatus as [-> | ->].
  - intros w c instanceId attempts interval fuel attempt st line needle
           Hlt Hproc Hapi Hline Hneedle Hinc.
    cbn [poll_loop]. rewrite Hlt, poll_attempt_fatal; try done.
    by eapply hasFatalErrors_intro.
  - intros w c instanceId attempts interval fuel attempt st Hlt.
    split; [cbn [poll_loop]; by rewrite Hlt|]. split.
    + intros p Hp Halive. unfold poll_exhausted. by rewrite Hp, Halive.
    + intros [Hnone | (p & Hp & Hdead)]; unfold poll_exhausted.
      * by rewrite Hnone.
      * by rewrite Hp, Hdead.
Qed.

Lemma silent_world_unresponsive : unresponsive silent_world.
Proof. repeat split. Qed.

Lemma readiness_poll_outcomes_witness :
  unresponsive silent_world /\
  effective_attempts sample_cli None = Js.Int 40 /\
  (exists c' t,
     isInstanceReady silent_world 41 sample_cli "w1" None None
     = Some ({| ready := false; result_status := "starting" |}, c', t) /\
     api_probes t = 40%nat) /\
  effective_attempts stalled_cli None = Js.PosInfinity /\
  isInstanceReady silent_world 1000 stalled_cli "w1" None None = None /\
  poll_loop silent_world sample_cli "w1" (Js.Int 40) 3000 1 0
            {| ps_instance := failing_instance; ps_trace := [] |}
  = Some ({| ready := false; result_status := "error" |},
          {| ps_instance := with_status Error failing_instance;
             ps_trace := [EProcessProbe 4242; EApiProbe] |}) /\
  poll_loop silent_world sample_cli "w1" (Js.Int 40) 3000 1 40
            {| ps_instance := sample_instance; ps_trace := [] |}
  = Some (poll_exhausted silent_world {| ps_instance := sample_instance; ps_trace := [] |}).
Proof.
  split; [exact silent_world_unresponsive|].
  split; [reflexivity|]. split; [|split; [reflexivity|split; [|split]]].
  - apply (proj1 (proj2 (proj2 (proj2 (proj2 (proj1 readiness_poll_outcomes)))))
             silent_world sample_cli "w1" None None sample_instance 40 41%nat).
    + exact silent_world_unresponsive.
    + reflexivity.
    + left. reflexivity.
    + reflexivity.
    + reflexivity.
    + vm_compute. lia.
  - apply (proj2 (proj2 (proj2 (proj2 (proj2 (proj1 readiness_poll_outcomes)))))
             silent_world stalled_cli "w1" None None sample_instance 1000%nat).
    + exact silent_world_unresponsive.
    + reflexivity.
    + left. reflexivity.
    + reflexivity.
    + reflexivity.
  - apply (proj1 (proj2 readiness_poll_outcomes)
             silent_world sample_cli "w1" (Js.Int 40) 3000 0%nat 0
             {| ps_instance := failing_instance; ps_trace := [] |}
             "ModuleNotFoundError: No module named 'torch'" "ModuleNotFoundError").
    + reflexivity.
    + intros p _. reflexivity.
    + reflexivity.
    + apply list_elem_of_In. left. reflexivity.
    + apply list_elem_of_In. right. left. reflexivity.
    + reflexivity.
  - apply (proj2 (proj2 readiness_poll_outcomes)
             silent_world sample_cli "w1" (Js.Int 40) 3000 0%nat 40
             {| ps_instance := sample_instance; ps_trace := [] |}).
    reflexivity.
Defined.

(** C10.  For a worker id that is not in the instance map, the log, error
    and warning accessors return the empty list, the readiness poll
    returns [{ready: false, status: "not_found"}] and [stopInstance]
    returns [false]; none of them changes the map or touches the outside
    world. *)
Theorem unknown_worker_is_benign
  (w : world) (fuel : nat) (c : ComfyUICli) (instanceId : string)
  (limit : Z) (maxAttempts interval : option Z) :
  instances c !! instanceId = None ->
  getInstanceLogs c instanceId limit = [] /\
  getInstanceErrors c instanceId = [] /\
  getInstanceWarnings c instanceId = [] /\
  isInstanceReady w fuel c instanceId maxAttempts interval
  = Some ({| ready := false; result_status := "not_found" |}, c, []) /\
  stopInstance w c instanceId = (false, c, []).
Proof.
  intros Hnone.
  unfold getInstanceLogs, getInstanceErrors, getInstanceWarnings,
    isInstanceReady, stopInstance.
  rewrite Hnone. repeat split.
Qed.

Lemma unknown_worker_is_benign_witness :
  instances sample_cli !! "w2" = None /\
  getInstanceLogs sample_cli "w2" 50 = [] /\
  getInstanceErrors sample_cli "w2" = [] /\
  getInstanceWarnings sample_cli "w2" = [] /\
  isInstanceReady silent_world 0 sample_cli "w2" None None
  = Some ({| ready := false; result_status := "not_found" |}, sample_cli, []) /\
  stopInstance silent_world sample_cli "w2" = (false, sample_cli, []).
Proof.
  split; [reflexivity|].
  apply (unknown_worker_is_benign silent_world 0 sample_cli "w2" 50 None None).
  reflexivity.
Defined.

End CliFacts.

Module PortFacts.
Import PortUtils HostSamples.

Section Search.
Variable listen : Z -> listen_outcome.

Lemma findAvailablePort_complete p fuel : forall base,
  base <= p ->
  listen p = Listening ->
  (forall q, base <= q < p -> listen q = ErrorEvent) ->
  (Z.to_nat (p - base) < fuel)%nat ->
  findAvailablePort listen fuel base = Found p.
Proof.
  induction fuel as [|fuel IH]; intros base Hle Hp Hbelow Hfuel; [lia|].
  simpl. unfold isPortAvailable.
  destruct (Z.eq_dec base p) as [-> | Hne].
  - by rewrite Hp.
  - rewrite (Hbelow base) by lia.
    apply IH; [lia | done | | lia].
    intros q Hq. apply Hbelow. lia.
Qed.

Lemma findAvailablePort_sound fuel : forall base p,
  findAvailablePort listen fuel base = Found p ->
  base <= p /\ listen p = Listening /\
  (forall q, base <= q < p -> listen q = ErrorEvent).
Proof.
  induction fuel as [|fuel IH]; intros base p; [done|].
  simpl. unfold isPortAvailable.
  destruct (listen base) eqn:Hbase; [| |done].
  - intros [= <-]. repeat split; [lia | done | lia].
  - intros H. destruct (IH _ _ H) as (Hle & Hp & Hbelow).
    split; [lia|]. split; [done|].
    intros q Hq. destruct (Z.eq_dec q base) as [-> | Hne]; [done|].
    apply Hbelow. lia.
Qed.

(** When nothing at or above [base] listens, no budget yields a port. *)
Lemma findAvailablePort_none base :
  (forall q, base <= q -> listen q <> Listening) ->
  forall fuel p, findAvailablePort listen fuel base <> Found p.
Proof.
  intros Hnone fuel p Hfound.
  destruct (findAvailablePort_sound _ _ _ Hfound) as (Hle & Hp & _).
  by apply (Hnone p).
Qed.

End Search.

Example findAvailablePort_default :
  findAvailablePort two_workers_up 10 DEFAULT_BASE_PORT = Found 8190.
Proof. reflexivity. Qed.

(** C7, the claim as worded fails: with ports 65534 and 65535 taken, the
    search from base 65534 never yields a port, however long it runs (the
    third probe makes the promise reject). *)
Lemma findAvailablePort_counterexample :
  65534 <= 65534 /\
  (forall fuel p, findAvailablePort crowded fuel 65534 <> Found p) /\
  findAvailablePort crowded 3 65534 = Rejected.
Proof.
  split; [lia|]. split; [|reflexivity].
  intros [|[|[|fuel]]] p; discriminate.
Qed.

(** C7, as the code has it: if some port [p >= base] listens and every
    port in [[base, p)] raises the error event, the search terminates (any
    budget above [p - base] suffices) and returns [p]; and whenever the
    search returns a port [p], then [p >= base], [p] listened, and every
    port in [[base, p)] raised the error event. *)
Theorem findAvailablePort_first_free :
  (forall listen base p fuel,
     base <= p ->
     listen p = Listening ->
     (forall q, base <= q < p -> listen q = ErrorEvent) ->
     (Z.to_nat (p - base) < fuel)%nat ->
     findAvailablePort listen fuel base = Found p) /\
  (forall listen fuel base p,
     findAvailablePort listen fuel base = Found p ->
     base <= p /\ listen p = Listening /\
     (forall q, base <= q < p -> listen q = ErrorEvent)).
Proof.
  split.
  - intros listen base p fuel. apply findAvailablePort_complete.
  - intros listen fuel base p. apply findAvailablePort_sound.
Qed.

Lemma findAvailablePort_first_free_witness :
  8188 <= 8190 /\
  two_workers_up 8190 = Listening /\
  (forall q, 8188 <= q < 8190 -> two_workers_up q = ErrorEvent) /\
  (Z.to_nat (8190 - 8188) < 3)%nat /\
  findAvailablePort two_workers_up 3 8188 = Found 8190.
Proof.
  assert (forall q, 8188 <= q < 8190 -> two_workers_up q = ErrorEvent) as Hbusy.
  { intros q Hq. unfold two_workers_up.
    destruct (Z.leb_spec 8188 q); [|lia]. destruct (Z.leb_spec q 8189); [|lia].
    reflexivity. }
  split; [lia|]. split; [reflexivity|]. split; [exact Hbusy|]. split; [simpl; lia|].
  apply (proj1 findAvailablePort_first_free two_workers_up 8188 8190 3%nat).
  - lia.
  - reflexivity.
  - exact Hbusy.
  - simpl. lia.
Defined.

End PortFacts.

Module PythonFacts.
Import PythonUtils HostSamples.

Lemma scans_snoc t e : scans (t ++ [e]) = (scans t + if is_scan e then 1 else 0)%nat.
Proof.
  unfold scans. rewrite filter_app, length_app.
  destruct e; simpl; rewrite ?filter_cons_True, ?filter_cons_False by done; simpl; lia.
Qed.

Lemma detect_resolves h s comfyuiPath path s1 :
  detect h s comfyuiPath = (inr path, s1) ->
  pythonPathCache s1 !! comfyuiPath = Some path /\
  scans (trace s1) = S (scans (trace s)).
Proof.
  unfold detect.
  destruct (if findPythonInVenv h comfyuiPath is Some v
            then if non_empty v then Some v else None else None) as [venv|].
  - destruct (validatePython h venv) as [version|].
    + destruct (upsert_throws h); [done|].
      intros [= <- <-]. simpl. rewrite lookup_insert_eq. split; [done|].
      rewrite !scans_snoc. simpl. lia.
    + intros [= <- <-]. simpl. rewrite lookup_insert_eq. split; [done|].
      rewrite !scans_snoc. simpl. lia.
  - intros [= <- <-]. simpl. rewrite lookup_insert_eq. split; [done|].
    rewrite !scans_snoc. simpl. lia.
Qed.

Lemma getPythonPath_resolves h s comfyuiPath path s1 :
  getPythonPath h s comfyuiPath = (inr path, s1) ->
  pythonPathCache s1 !! comfyuiPath = Some path /\
  (scans (trace s1) <= S (scans (trace s)))%nat.
Proof.
  unfold getPythonPath.
  destruct (pythonPathCache s !! comfyuiPath) as [cached|] eqn:Hc.
  { intros [= <- <-]. split; [done|lia]. }
  destruct (select_throws h); [done|].
  assert (forall s0, scans (trace (log (ESelectConfig "PYTHON_PATH") s0)) = scans (trace s0))
    as Hsel by (intros; simpl; rewrite scans_snoc; simpl; lia).
  assert (forall v s0, scans (trace (log (EValidate v) s0)) = scans (trace s0))
    as Hval by (intros; simpl; rewrite scans_snoc; simpl; lia).
  simpl envVars.
  destruct (envVars s !! "PYTHON_PATH") as [row|].
  - destruct (non_empty (value row)).
    + destruct (validatePython h (value row)).
      * intros [= <- <-]. simpl. rewrite lookup_insert_eq. split; [done|].
        rewrite !scans_snoc. simpl. lia.
      * intros H. apply detect_resolves in H as [? H]. split; [done|].
        rewrite H, Hval, Hsel. lia.
    + intros H. apply detect_resolves in H as [? H]. split; [done|].
      rewrite H, Hsel. lia.
  - intros H. apply detect_resolves in H as [? H]. split; [done|].
    rewrite H, Hsel. lia.
Qed.

(** C9.  When a call of [getPythonPath] resolves to a path, that path is
    in the cache under the install path, a second call with the same
    install path returns it and leaves the state as it was (no disk scan,
    no config-store access, no other effect), and the two calls together
    have scanned the disk at most once. *)
Theorem getPythonPath_second_call_cached h s comfyuiPath path s1 :
  getPythonPath h s comfyuiPath = (inr path, s1) ->
  pythonPathCache s1 !! comfyuiPath = Some path /\
  getPythonPath h s1 comfyuiPath = (inr path, s1) /\
  (scans (trace (snd (getPythonPath h s1 comfyuiPath))) <= scans (trace s) + 1)%nat.
Proof.
  intros H. destruct (getPythonPath_resolves _ _ _ _ _ H) as [Hcache Hscans].
  assert (getPythonPath h s1 comfyuiPath = (inr path, s1)) as Hsecond.
  { unfold getPythonPath. by rewrite Hcache. }
  rewrite Hsecond. simpl. split; [done|]. split; [done|lia].
Qed.

Lemma getPythonPath_second_call_cached_witness :
  getPythonPath venv_host fresh_state "/opt/ComfyUI"
  = (inr "/opt/ComfyUI/venv/bin/python",
     snd (getPythonPath venv_host fresh_state "/opt/ComfyUI")) /\
  trace (snd (getPythonPath venv_host fresh_state "/opt/ComfyUI"))
  = [ESelectConfig "PYTHON_PATH"; EScan "/opt/ComfyUI";
     EValidate "/opt/ComfyUI/venv/bin/python";
     EUpsertConfig "PYTHON_PATH" "/opt/ComfyUI/venv/bin/python"] /\
  getPythonPath venv_host (snd (getPythonPath venv_host fresh_state "/opt/ComfyUI"))
                "/opt/ComfyUI"
  = (inr "/opt/ComfyUI/venv/bin/python",
     snd (getPythonPath venv_host fresh_state "/opt/ComfyUI")).
Proof.
  split; [reflexivity|]. split; [reflexivity|].
  apply (getPythonPath_second_call_cached venv_host fresh_state "/opt/ComfyUI").
  reflexivity.
Defined.

End PythonFacts.

Module JobsFacts.
Import Schema Jobs QueueProps JobSamples.

(** *** Cancellation *)

Lemma returning_cancelled i q row rest :
  returning (cancellable i) set_cancelled q = row :: rest -> status row = Cancelled.
Proof.
  unfold returning. destruct (List.filter (cancellable i) q); [done|].
  by intros [= <- _].
Qed.

(** The interrupt branch tests the row as returned by the update, whose
    status is already [cancelled]: no call of the route reaches the curl
    command. *)
Lemma cancel_never_interrupts net s i : trace (snd (cancel net s i)) = trace s.
Proof.
  unfold cancel.
  destruct (returning (cancellable i) set_cancelled (jobQueue s)) as [|row rest] eqn:Hr; [done|].
  by rewrite (returning_cancelled _ _ _ _ Hr).
Qed.

(** Only rows with the given id whose status is pending or running are
    touched, and they become cancelled. *)
Lemma cancel_transitions net s i :
  jobQueue (snd (cancel net s i))
  = map (fun j => if String.eqb (id j) i && (bool_decide (status j = Pending) ||
                                             bool_decide (status j = Running))
                  then set_cancelled j else j) (jobQueue s).
Proof.
  unfold cancel.
  destruct (returning (cancellable i) set_cancelled (jobQueue s)) as [|row rest] eqn:Hr; [done|].
  by rewrite (returning_cancelled _ _ _ _ Hr).
Qed.

(** C2, at the failing input: J1 is running on worker W (port 8190) and is
    cancelled.  The row becomes [cancelled], yet the log of the call holds
    no POST to [/interrupt]. *)
Theorem cancel_running_sends_no_interrupt :
  cancel echo_net one_running "J1"
  = (Success (set_cancelled (set_running "W" job_J1)),
     {| jobQueue := [set_cancelled (set_running "W" job_J1)];
        comfyInstances := [worker_W];
        trace := [] |}) /\
  HttpPostInterrupt 8190 ∉ trace (snd (cancel echo_net one_running "J1")).
Proof.
  split; [reflexivity|]. simpl. apply not_elem_of_nil.
Qed.

(** *** The order of the queue *)

Global Instance precedes_trans : Transitive precedes.
Proof. unfold precedes. intros a b c ? ?. lia. Qed.

Global Instance precedes_total : Total precedes.
Proof. unfold precedes. intros a b. lia. Qed.

Lemma elem_of_filter_status st j q :
  j ∈ List.filter (has_status st) q <-> j ∈ q /\ status j = st.
Proof.
  rewrite !list_elem_of_In, List.filter_In. unfold has_status.
  by rewrite bool_decide_eq_true.
Qed.

Lemma insert_row_Permutation j sorted : insert_row j sorted ≡ₚ j :: sorted.
Proof.
  induction sorted as [|x rest IH]; [done|]. cbn [insert_row].
  destruct (decide (precedes j x)); [done|]. rewrite IH. apply Permutation_swap.
Qed.

Lemma orderBy_Permutation q : orderBy q ≡ₚ q.
Proof.
  induction q as [|j q IH]; [done|]. cbn [orderBy foldr].
  fold (orderBy q). by rewrite insert_row_Permutation, IH.
Qed.

Lemma insert_row_sorted j sorted :
  StronglySorted precedes sorted -> StronglySorted precedes (insert_row j sorted).
Proof.
  induction 1 as [|x rest Hrest IH Hx]; cbn [insert_row].
  { repeat constructor. }
  destruct (decide (precedes j x)) as [Hjx | Hjx].
  - constructor; [by constructor|]. constructor; [done|].
    eapply Forall_impl; [exact Hx|]. intros y Hy. by etrans.
  - constructor; [done|]. rewrite insert_row_Permutation. constructor; [|done].
    by destruct (total precedes j x).
Qed.

Lemma StronglySorted_orderBy q : StronglySorted precedes (orderBy q).
Proof.
  induction q as [|j q IH]; [constructor|]. cbn [orderBy foldr]. by apply insert_row_sorted.
Qed.

Lemma pendingJobs_head s job rest :
  pendingJobs s = job :: rest ->
  rest = [] /\ is_pending s job /\ forall j, is_pending s j -> precedes job j.
Proof.
  unfold pendingJobs, is_pending. intros H.
  pose proof (orderBy_Permutation (List.filter (has_status Pending) (jobQueue s)))
    as Hperm.
  pose proof (StronglySorted_orderBy (List.filter (has_status Pending) (jobQueue s)))
    as Hsorted.
  destruct (orderBy _) as [|top others]; [done|].
  simpl in H. rewrite take_0 in H. injection H as <- <-.
  split; [done|]. split.
  - apply elem_of_filter_status. rewrite <- Hperm. apply list_elem_of_here.
  - intros j Hj. apply elem_of_filter_status in Hj. rewrite <- Hperm in Hj.
    apply elem_of_cons in Hj as [-> | Hj].
    + unfold precedes. lia.
    + apply StronglySorted_inv in Hsorted as [_ Hall].
      rewrite List.Forall_forall in Hall. apply Hall. by apply list_elem_of_In.
Qed.

Lemma pendingJobs_nil s : pendingJobs s = [] -> forall j, ~ is_pending s j.
Proof.
  unfold pendingJobs, is_pending. intros H j Hj.
  apply elem_of_filter_status in Hj.
  rewrite <- orderBy_Permutation in Hj.
  destruct (orderBy _); [by apply elem_of_nil in Hj|done].
Qed.

(** *** Updates by id *)

Lemma update_where_ids c f q :
  (forall j, id (f j) = id j) -> id <$> update_where c f q = id <$> q.
Proof.
  intros Hf. unfold update_where. induction q as [|j q IH]; [done|].
  simpl. f_equal; [|exact IH]. destruct (c j); [apply Hf|done].
Qed.

Lemma has_id_true i j : has_id i j = true <-> id j = i.
Proof. unfold has_id. apply String.eqb_eq. Qed.

Lemma has_id_false i j : has_id i j = false <-> id j <> i.
Proof. unfold has_id. apply String.eqb_neq. Qed.

Lemma elem_of_update_where_id f q job :
  NoDup (id <$> q) -> job ∈ q -> (forall j, id (f j) = id j) ->
  forall j, j ∈ update_where (has_id (id job)) f q <-> j = f job \/ (j ∈ q /\ j <> job).
Proof.
  intros Hnd Hjob Hf j. unfold update_where.
  induction q as [|x q IH]; [by apply elem_of_nil in Hjob|].
  simpl in Hnd. apply NoDup_cons in Hnd as [Hx Hnd].
  simpl. rewrite !elem_of_cons.
  apply elem_of_cons in Hjob as [-> | Hjob].
  - assert (has_id (id x) x = true) as -> by by apply has_id_true.
    assert (map (fun j0 => if has_id (id x) j0 then f j0 else j0) q = q) as ->.
    { clear IH Hnd. induction q as [|y q IHq]; [done|]. simpl.
      assert (has_id (id x) y = false) as ->.
      { apply has_id_false. intros Heq. apply Hx. rewrite <- Heq.
        apply list_elem_of_fmap_2. apply list_elem_of_here. }
      f_equal. apply IHq. intros Hin. apply Hx. simpl. by apply list_elem_of_further. }
    split.
    + intros [-> | Hin]; [by left|]. right. split; [by right|].
      intros ->. apply Hx. by apply list_elem_of_fmap_2.
    + intros [-> | [[-> | Hin] Hne]]; [by left|done|by right].
  - assert (has_id (id job) x = false) as ->.
    { apply has_id_false. intros Heq. apply Hx. rewrite Heq.
      by apply list_elem_of_fmap_2. }
    rewrite (IH Hnd Hjob). split.
    + intros [-> | [-> | [Hin Hne]]].
      * right. split; [by left|]. intros ->. apply Hx. by apply list_elem_of_fmap_2.
      * by left.
      * right. split; [by right|done].
    + intros [-> | [[-> | Hin] Hne]]; [by right; left|by left|].
      right. right. done.
Qed.

Lemma pending_count_update c f q :
  (forall j, status (f j) <> Pending) ->
  (length (List.filter (has_status Pending) (update_where c f q))
   <= length (List.filter (has_status Pending) q))%nat /\
  ((exists j, j ∈ q /\ c j = true /\ status j = Pending) ->
   (length (List.filter (has_status Pending) (update_where c f q))
    < length (List.filter (has_status Pending) q))%nat).
Proof.
  intros Hf. unfold update_where. induction q as [|x q [IHle IHlt]].
  { split; [done|]. intros (j & Hj & _). by apply elem_of_nil in Hj. }
  assert (has_status Pending (f x) = false) as Hfx.
  { unfold has_status. apply bool_decide_eq_false. apply Hf. }
  simpl. destruct (c x) eqn:Hc.
  - rewrite Hfx. destruct (has_status Pending x) eqn:Hx; simpl.
    + split; [lia|]. intros _. lia.
    + split; [lia|]. intros (j & Hj & Hcj & Hpj).
      apply elem_of_cons in Hj as [-> | Hj].
      * unfold has_status in Hx. apply bool_decide_eq_false in Hx. done.
      * apply IHlt. by exists j.
  - destruct (has_status Pending x) eqn:Hx; simpl.
    + split; [lia|]. intros (j & Hj & Hcj & Hpj).
      apply elem_of_cons in Hj as [-> | Hj]; [congruence|].
      assert (length (List.filter (has_status Pending)
                        (map (fun j0 => if c j0 then f j0 else j0) q))
              < length (List.filter (has_status Pending) q))%nat by (apply IHlt; by exists j).
      lia.
    + split; [lia|]. intros (j & Hj & Hcj & Hpj).
      apply elem_of_cons in Hj as [-> | Hj]; [congruence|].
      apply IHlt. by exists j.
Qed.

(** *** Draining *)

Lemma drained_nothing s s' :
  jobQueue s' = jobQueue s -> comfyInstances s' = comfyInstances s ->
  bound_ids (trace s') = bound_ids (trace s) ->
  drained s [] s'.
Proof.
  intros Hq Hw Ht. unfold drained, is_pending. rewrite Hq, Hw, Ht, app_nil_r.
  split; [done|]. split; [|split; [|split; [|split; [|split]]]].
  - intros j. split; [|by intros [? _]]. intros ?. split; [done|]. apply not_elem_of_nil.
  - intros j Hj. by apply elem_of_nil in Hj.
  - constructor.
  - constructor.
  - intros j j' Hj. by apply elem_of_nil in Hj.
  - done.
Qed.

Lemma drained_trans s js1 s1 js2 s2 :
  drained s js1 s1 -> drained s1 js2 s2 -> drained s (js1 ++ js2) s2.
Proof.
  intros (Ht1 & Hp1 & Hin1 & Hnd1 & Hs1 & Hlow1 & Hid1 & Hw1 & Hkeep1)
         (Ht2 & Hp2 & Hin2 & Hnd2 & Hs2 & Hlow2 & Hid2 & Hw2 & Hkeep2).
  unfold drained. split; [|split; [|split; [|split; [|split; [|split; [|split; [|split]]]]]]].
  - rewrite Ht2, Ht1, fmap_app. by rewrite <- app_assoc.
  - intros j. rewrite Hp2, Hp1, elem_of_app. tauto.
  - intros j [Hj | Hj]%elem_of_app; [by apply Hin1|].
    by apply Hp1, Hin2.
  - apply NoDup_app. split; [done|]. split; [|done].
    intros x Hx1 Hx2. apply Hin2, Hp1 in Hx2 as [_ Hx2]. done.
  - apply StronglySorted_app_2; [|done|done].
    intros x1 x2 Hx1 Hx2. apply Hlow1; [done|]. by apply Hin2.
  - intros j j' [Hj | Hj]%elem_of_app Hj'.
    + apply Hlow1; [done|]. by apply Hp2 in Hj' as [Hj' _].
    + by apply Hlow2.
  - by rewrite Hid2.
  - by rewrite Hw2.
  - intros j Hj Hst. apply Hkeep2; [|done]. by apply Hkeep1.
Qed.

Lemma unique_ids_eq q job j :
  NoDup (id <$> q) -> job ∈ q -> j ∈ q -> id j = id job -> j = job.
Proof.
  intros Hnd Hjob Hj Heq.
  induction q as [|x q IH]; [by apply elem_of_nil in Hj|].
  simpl in Hnd. apply NoDup_cons in Hnd as [Hx Hnd].
  apply elem_of_cons in Hjob as [-> | Hjob]; apply elem_of_cons in Hj as [-> | Hj].
  - done.
  - exfalso. apply Hx. rewrite <- Heq. by apply list_elem_of_fmap_2.
  - exfalso. apply Hx. rewrite Heq. by apply list_elem_of_fmap_2.
  - by apply IH.
Qed.

Lemma drained_bind s job f s1 :
  unique_ids s ->
  is_pending s job ->
  (forall j, is_pending s j -> precedes job j) ->
  (forall j, id (f j) = id j) ->
  (forall j, status (f j) <> Pending) ->
  jobQueue s1 = update_where (has_id (id job)) f (jobQueue s) ->
  comfyInstances s1 = comfyInstances s ->
  bound_ids (trace s1) = bound_ids (trace s) ++ [id job] ->
  drained s [job] s1.
Proof.
  intros Hnd [Hjob Hpending] Hfirst Hid Hst Hq Hw Ht.
  assert (forall j, j ∈ jobQueue s1 <-> j = f job \/ (j ∈ jobQueue s /\ j <> job)) as Hmem.
  { intros j. rewrite Hq. by apply elem_of_update_where_id. }
  unfold drained, is_pending.
  split; [done|]. split; [|split; [|split; [|split; [|split; [|split; [|split]]]]]].
  - intros j. rewrite Hmem, list_elem_of_singleton. split.
    + intros [[-> | [Hj Hne]] Hp]; [by apply Hst in Hp|done].
    + intros [[Hj Hp] Hne]. split; [|done]. by right.
  - intros j ->%list_elem_of_singleton. done.
  - apply NoDup_singleton.
  - repeat constructor.
  - intros j j' ->%list_elem_of_singleton [Hj' Hp']. apply Hfirst.
    apply Hmem in Hj' as [-> | [Hj' _]]; [by apply Hst in Hp'|done].
  - rewrite Hq. by apply update_where_ids.
  - done.
  - intros j Hj Hsettled. apply Hmem. right. split; [done|]. by intros ->.
Qed.

Lemma update_where_twice i f g q :
  (forall j, id (f j) = id j) ->
  update_where (has_id i) g (update_where (has_id i) f q)
  = update_where (has_id i) (fun j => g (f j)) q.
Proof.
  intros Hf. unfold update_where. rewrite map_map. apply map_ext. intros j.
  destruct (has_id i j) eqn:Hj; [|by rewrite Hj].
  unfold has_id in *. by rewrite Hf, Hj.
Qed.

Lemma bound_ids_snoc t e : bound_ids (t ++ [e]) = bound_ids t ++ option_list (bound_id e).
Proof. unfold bound_ids. rewrite omap_app. simpl. by destruct (bound_id e). Qed.

Lemma submit_succeeds net tick job w answer :
  snd (submit net tick job w) = inr answer <->
  exists body http_status,
    reserialize net (workflowData job) = inr body /\
    post_prompt net tick (port w) body = CurlJson http_status answer.
Proof.
  unfold submit. destruct (reserialize net _) as [err|body]; simpl.
  - split; [done|]. by intros (? & ? & ? & _).
  - destruct (post_prompt net _ _ _) as [http_status body'|http_status|err] eqn:Hpost; simpl.
    + split.
      * intros [= <-]. by exists body, http_status.
      * intros (? & ? & [= <-] & Hpost'). rewrite Hpost in Hpost'. by injection Hpost' as _ <-.
    + split; [done|]. intros (? & ? & [= <-] & Hpost'). by rewrite Hpost in Hpost'.
    + split; [done|]. intros (? & ? & [= <-] & Hpost'). by rewrite Hpost in Hpost'.
Qed.

Lemma submit_binds_nothing net tick job w :
  bound_ids (fst (submit net tick job w)) = [].
Proof.
  unfold submit. destruct (reserialize net _); [done|].
  by destruct (post_prompt net _ _ _).
Qed.

Lemma availableInstances_running s instance others :
  availableInstances s = instance :: others -> runningInstances s <> [].
Proof. unfold availableInstances. by destruct (runningInstances s). Qed.

(** What a call does once it has an idle worker and a pending job. *)
Lemma scheduleNextJob_pick net fuel s instance others job rest :
  availableInstances s = instance :: others ->
  pendingJobs s = job :: rest ->
  scheduleNextJob net (S fuel) s
  = match submit net (length (trace s)) job instance with
    | (es, inr _) => Some (leave_running job instance es s)
    | (es, inl err) => scheduleNextJob net fuel (fail_job job instance es err s)
    end.
Proof.
  intros Havail Hpend. simpl.
  pose proof (availableInstances_running _ _ _ Havail) as Hrun.
  destruct (runningInstances s); [done|].
  rewrite Havail, Hpend. simpl.
  by destruct (submit net (length (trace s)) job instance) as [es [err|answer]].
Qed.

Lemma scheduleNextJob_idle net fuel s :
  availableInstances s = [] \/ pendingJobs s = [] ->
  exists e, bound_id e = None /\ scheduleNextJob net (S fuel) s = Some (log e s).
Proof.
  intros H. simpl.
  destruct (runningInstances s) eqn:Hrun; [by exists LogNoRunningInstances|].
  destruct (availableInstances s); [by exists LogAllBusy|].
  destruct H as [H | H]; [done|].
  rewrite H. by exists LogNoPendingJobs.
Qed.

Lemma drained_leave_running net s job instance :
  unique_ids s -> is_pending s job ->
  (forall j, is_pending s j -> precedes job j) ->
  drained s [job]
          (leave_running job instance (fst (submit net (length (trace s)) job instance)) s).
Proof.
  intros Hnd Hjob Hfirst.
  apply (drained_bind s job (set_running (worker_id instance))); try done.
  simpl. unfold bound_ids. rewrite !omap_app.
  pose proof (submit_binds_nothing net (length (trace s)) job instance) as Hquiet.
  unfold bound_ids in Hquiet. rewrite Hquiet. simpl. by rewrite app_nil_r.
Qed.

Lemma drained_fail_job net s job instance err :
  unique_ids s -> is_pending s job ->
  (forall j, is_pending s j -> precedes job j) ->
  drained s [job]
          (fail_job job instance (fst (submit net (length (trace s)) job instance)) err s).
Proof.
  intros Hnd Hjob Hfirst.
  apply (drained_bind s job (fun j => set_failed err (set_running (worker_id instance) j)));
    try done.
  - simpl. by apply update_where_twice.
  - simpl. unfold bound_ids. rewrite !omap_app.
    pose proof (submit_binds_nothing net (length (trace s)) job instance) as Hquiet.
    unfold bound_ids in Hquiet. rewrite Hquiet. simpl. by rewrite app_nil_r.
Qed.

Lemma drained_unique_ids s js s' : drained s js s' -> unique_ids s -> unique_ids s'.
Proof. intros (_ & _ & _ & _ & _ & _ & Hid & _) Hnd. unfold unique_ids. by rewrite Hid. Qed.

Lemma scheduleNextJob_drains net fuel : forall s s',
  unique_ids s ->
  scheduleNextJob net fuel s = Some s' ->
  exists js, drained s js s'.
Proof.
  induction fuel as [|fuel IH]; intros s s' Hnd; [done|].
  destruct (availableInstances s) as [|instance others] eqn:Havail.
  { destruct (scheduleNextJob_idle net fuel s (or_introl Havail)) as (e & He & ->).
    intros [= <-]. exists []. apply drained_nothing; try done.
    simpl. rewrite bound_ids_snoc, He. simpl. by rewrite app_nil_r. }
  destruct (pendingJobs s) as [|job rest] eqn:Hpend.
  { destruct (scheduleNextJob_idle net fuel s (or_intror Hpend)) as (e & He & ->).
    intros [= <-]. exists []. apply drained_nothing; try done.
    simpl. rewrite bound_ids_snoc, He. simpl. by rewrite app_nil_r. }
  rewrite (scheduleNextJob_pick _ _ _ _ _ _ _ Havail Hpend).
  apply pendingJobs_head in Hpend as (-> & Hjob & Hfirst).
  pose proof (drained_leave_running net s job instance Hnd Hjob Hfirst) as Hok.
  pose proof (fun err => drained_fail_job net s job instance err Hnd Hjob Hfirst) as Hfail.
  destruct (submit net (length (trace s)) job instance) as [es [err|answer]]; simpl in *.
  - intros Hrec.
    destruct (IH _ _ (drained_unique_ids _ _ _ (Hfail err) Hnd) Hrec) as [js Hjs].
    exists ([job] ++ js). exact (drained_trans _ _ _ _ _ (Hfail err) Hjs).
  - intros [= <-]. by exists [job].
Qed.

(** A call that has an idle worker and a pending job binds the first job
    of the queue order first. *)
Lemma scheduleNextJob_binds_head net fuel s s' instance others job rest :
  unique_ids s ->
  availableInstances s = instance :: others ->
  pendingJobs s = job :: rest ->
  scheduleNextJob net (S fuel) s = Some s' ->
  exists js, drained s (job :: js) s'.
Proof.
  intros Hnd Havail Hpend.
  rewrite (scheduleNextJob_pick _ _ _ _ _ _ _ Havail Hpend).
  apply pendingJobs_head in Hpend as (-> & Hjob & Hfirst).
  pose proof (drained_leave_running net s job instance Hnd Hjob Hfirst) as Hok.
  pose proof (fun err => drained_fail_job net s job instance err Hnd Hjob Hfirst) as Hfail.
  destruct (submit net (length (trace s)) job instance) as [es [err|answer]]; simpl in *.
  - intros Hrec.
    destruct (scheduleNextJob_drains _ _ _ _ (drained_unique_ids _ _ _ (Hfail err) Hnd) Hrec)
      as [js Hjs].
    exists js. exact (drained_trans _ _ _ _ _ (Hfail err) Hjs).
  - intros [= <-]. by exists [].
Qed.

Lemma scheduleNextJob_terminates net fuel : forall s,
  (pending_count s < fuel)%nat -> is_Some (scheduleNextJob net fuel s).
Proof.
  induction fuel as [|fuel IH]; intros s Hfuel; [lia|]. simpl.
  destruct (runningInstances s); [done|].
  destruct (availableInstances s) as [|instance others]; [done|].
  destruct (pendingJobs s) as [|job rest] eqn:Hpend; [done|].
  apply pendingJobs_head in Hpend as (-> & [Hjob Hpending] & _).
  destruct (submit net _ job instance) as [es [err|answer]]; [|done].
  apply IH. unfold pending_count in *. simpl.
  pose proof (pending_count_update (has_id (id job)) (set_failed err)
                (update_where (has_id (id job)) (set_running (worker_id instance)) (jobQueue s))
                ltac:(done)) as [Hle _].
  pose proof (pending_count_update (has_id (id job)) (set_running (worker_id instance))
                (jobQueue s) ltac:(done)) as [_ Hlt].
  specialize (Hlt ltac:(exists job; split; [done|]; split; [by apply has_id_true|done])).
  lia.
Qed.

Lemma pending_count_leave_running s job instance es :
  is_pending s job ->
  (pending_count (leave_running job instance es s) < pending_count s)%nat.
Proof.
  intros [Hjob Hp]. unfold pending_count. simpl.
  apply (pending_count_update (has_id (id job)) (set_running (worker_id instance))); [done|].
  exists job. split; [done|]. split; [by apply has_id_true|done].
Qed.

Lemma pending_count_fail_job s job instance es err :
  is_pending s job ->
  (pending_count (fail_job job instance es err s) < pending_count s)%nat.
Proof.
  intros Hjob. pose proof (pending_count_leave_running s job instance es Hjob) as Hlt.
  unfold pending_count in *. simpl in *.
  pose proof (pending_count_update (has_id (id job)) (set_failed err)
                (update_where (has_id (id job)) (set_running (worker_id instance)) (jobQueue s))
                ltac:(done)) as [Hle _].
  lia.
Qed.

Lemma scheduleNextJob_pending_count net fuel : forall s s',
  scheduleNextJob net fuel s = Some s' -> (pending_count s' <= pending_count s)%nat.
Proof.
  induction fuel as [|fuel IH]; intros s s'; [done|].
  destruct (availableInstances s) as [|instance others] eqn:Havail.
  { destruct (scheduleNextJob_idle net fuel s (or_introl Havail)) as (e & He & ->).
    by intros [= <-]. }
  destruct (pendingJobs s) as [|job rest] eqn:Hpend.
  { destruct (scheduleNextJob_idle net fuel s (or_intror Hpend)) as (e & He & ->).
    by intros [= <-]. }
  rewrite (scheduleNextJob_pick _ _ _ _ _ _ _ Havail Hpend).
  apply pendingJobs_head in Hpend as (-> & Hjob & _).
  destruct (submit net (length (trace s)) job instance) as [es [err|answer]].
  - intros Hrec. apply IH in Hrec.
    pose proof (pending_count_fail_job s job instance es err Hjob). lia.
  - intros [= <-].
    pose proof (pending_count_leave_running s job instance es Hjob). lia.
Qed.

Lemma dispatch_rounds_drains net fuel n : forall s,
  unique_ids s -> (pending_count s < fuel)%nat ->
  exists s' js, dispatch_rounds net fuel n s = Some s' /\ drained s js s'.
Proof.
  induction n as [|n IH]; intros s Hnd Hfuel.
  - exists s, []. split; [done|]. by apply drained_nothing.
  - simpl. destruct (scheduleNextJob_terminates net fuel s Hfuel) as [s1 Hs1].
    rewrite Hs1.
    destruct (scheduleNextJob_drains _ _ _ _ Hnd Hs1) as [js1 Hjs1].
    pose proof (scheduleNextJob_pending_count _ _ _ _ Hs1) as Hcount.
    destruct (IH s1 (drained_unique_ids _ _ _ Hjs1 Hnd) ltac:(lia)) as (s' & js2 & Hs' & Hjs2).
    exists s', (js1 ++ js2). split; [done|]. by eapply drained_trans.
Qed.

Lemma precedes_strict s a b :
  distinct_keys s -> is_pending s a -> is_pending s b -> a <> b ->
  precedes a b -> strictly_precedes a b.
Proof.
  intros Hkeys Ha Hb Hne Hle. specialize (Hkeys a b Ha Hb Hne).
  unfold precedes, strictly_precedes in *.
  destruct Hle as [Hlt | [Hp Hc]]; [by left|].
  right. split; [done|].
  destruct (Z.eq_dec (createdAt a) (createdAt b)) as [Heq | Hneq]; [|lia].
  exfalso. apply Hkeys. by rewrite Hp, Heq.
Qed.

Lemma StronglySorted_strengthen {A} (R R' : relation A) l :
  NoDup l -> StronglySorted R l ->
  (forall x y, x ∈ l -> y ∈ l -> x <> y -> R x y -> R' x y) ->
  StronglySorted R' l.
Proof.
  induction l as [|x l IH]; intros Hnd Hs Himp; [constructor|].
  apply NoDup_cons in Hnd as [Hx Hnd].
  apply StronglySorted_inv in Hs as [Hs Hall].
  constructor.
  - apply IH; [done|done|].
    intros y z Hy Hz. apply Himp; by apply list_elem_of_further.
  - rewrite List.Forall_forall in *. intros y Hy.
    apply list_elem_of_In in Hy.
    apply Himp; [apply list_elem_of_here|by apply list_elem_of_further| |].
    + by intros ->.
    + apply Hall. by apply list_elem_of_In.
Qed.

Lemma drained_strict s js s' :
  distinct_keys s -> drained s js s' ->
  StronglySorted strictly_precedes js /\
  (forall j j', j ∈ js -> is_pending s j' -> j' ∉ js -> strictly_precedes j j').
Proof.
  intros Hkeys (_ & Hp & Hin & Hnd & Hs & Hlow & _). split.
  - apply (StronglySorted_strengthen precedes); [done|done|].
    intros x y Hx Hy Hne Hle. apply (precedes_strict s); auto.
  - intros j j' Hj Hj' Hout. apply (precedes_strict s); auto.
    + by intros ->.
    + apply Hlow; [done|]. by apply Hp.
Qed.

(** *** Repeated dispatch stops only when the queue or the workers run out *)

Lemma pending_count_zero s : pending_count s = 0%nat -> pendingJobs s = [].
Proof.
  unfold pending_count, pendingJobs, orderBy. intros Hlen.
  by rewrite (nil_length_inv _ Hlen).
Qed.

Lemma scheduleNextJob_idle_stays net fuel s s' :
  idle s -> scheduleNextJob net (S fuel) s = Some s' -> idle s'.
Proof.
  intros Hidle. destruct (scheduleNextJob_idle net fuel s Hidle) as (e & _ & ->).
  by intros [= <-].
Qed.

Lemma dispatch_rounds_idle net fuel n : forall s s',
  idle s -> dispatch_rounds net fuel n s = Some s' -> idle s'.
Proof.
  induction n as [|n IH]; intros s s' Hidle; simpl.
  - by intros [= <-].
  - destruct fuel as [|fuel]; [done|].
    destruct (scheduleNextJob net (S fuel) s) as [s1|] eqn:Hs1; [|done].
    apply IH. by eapply scheduleNextJob_idle_stays.
Qed.

Lemma scheduleNextJob_progress net fuel s s' :
  ~ idle s -> scheduleNextJob net fuel s = Some s' ->
  (pending_count s' < pending_count s)%nat.
Proof.
  intros Hbusy. destruct fuel as [|fuel]; [done|].
  destruct (availableInstances s) as [|instance others] eqn:Havail.
  { exfalso. apply Hbusy. by left. }
  destruct (pendingJobs s) as [|job rest] eqn:Hpend.
  { exfalso. apply Hbusy. by right. }
  rewrite (scheduleNextJob_pick _ _ _ _ _ _ _ Havail Hpend).
  apply pendingJobs_head in Hpend as (-> & Hjob & _).
  destruct (submit net (length (trace s)) job instance) as [es [err|answer]].
  - intros Hrec%scheduleNextJob_pending_count.
    pose proof (pending_count_fail_job s job instance es err Hjob). lia.
  - intros [= <-]. by apply pending_count_leave_running.
Qed.

Lemma idle_dec s : idle s \/ ~ idle s.
Proof.
  unfold idle. destruct (availableInstances s); [by left; left|].
  destruct (pendingJobs s); [by left; right|].
  right. by intros [|].
Qed.

Lemma dispatch_rounds_exhaust net fuel n : forall s s',
  (pending_count s <= n)%nat -> dispatch_rounds net fuel n s = Some s' -> idle s'.
Proof.
  induction n as [|n IH]; intros s s' Hn; simpl.
  - intros [= <-]. right. apply pending_count_zero. lia.
  - destruct (scheduleNextJob net fuel s) as [s1|] eqn:Hs1; [|done].
    destruct (idle_dec s) as [Hidle | Hbusy].
    + destruct fuel as [|fuel]; [done|].
      apply dispatch_rounds_idle. by eapply scheduleNextJob_idle_stays.
    + apply IH. pose proof (scheduleNextJob_progress _ _ _ _ Hbusy Hs1). lia.
Qed.

Example both_jobs_drain_in_order :
  bound_ids <$> (trace <$> scheduleNextJob dead_net 3 two_queued) = Some ["J2"; "J1"].
Proof. reflexivity. Qed.

Lemma two_queued_unique_ids : unique_ids two_queued.
Proof.
  unfold unique_ids. simpl. apply NoDup_cons. split.
  - intros Hin%list_elem_of_singleton. discriminate.
  - apply NoDup_singleton.
Qed.

Lemma two_queued_distinct_keys : distinct_keys two_queued.
Proof.
  intros a b [Ha _] [Hb _] Hne. simpl in Ha, Hb.
  apply elem_of_cons in Ha as [-> | Ha%list_elem_of_singleton];
    apply elem_of_cons in Hb as [-> | Hb%list_elem_of_singleton];
    subst; try done.
Qed.

(** *** What a submission does to the job *)

Lemma bound_rows_leave_running s job instance es j :
  unique_ids s -> is_pending s job ->
  j ∈ jobQueue (leave_running job instance es s) -> id j = id job ->
  j = set_running (worker_id instance) job.
Proof.
  intros Hnd [Hjob _]. simpl.
  rewrite (elem_of_update_where_id _ _ _ Hnd Hjob) by done.
  intros [-> | [Hj Hne]] Hid; [done|].
  exfalso. apply Hne. by eapply unique_ids_eq.
Qed.

Lemma bound_rows_fail_job s job instance es err j :
  unique_ids s -> is_pending s job ->
  j ∈ jobQueue (fail_job job instance es err s) <->
  j = set_failed err (set_running (worker_id instance) job) \/ (j ∈ jobQueue s /\ j <> job).
Proof.
  intros Hnd [Hjob _]. simpl. rewrite update_where_twice by done.
  by rewrite (elem_of_update_where_id _ _ _ Hnd Hjob).
Qed.


(** What a dispatch call does with the pair it picked, by the result of
    the [try] block. *)
Lemma submission_by_result net fuel s instance others job rest :
  unique_ids s ->
  availableInstances s = instance :: others ->
  pendingJobs s = job :: rest ->
  (pending_count s <= fuel)%nat ->
  let es := fst (submit net (length (trace s)) job instance) in
  match snd (submit net (length (trace s)) job instance) with
  | inr answer =>
      scheduleNextJob net (S fuel) s = Some (leave_running job instance es s) /\
      forall j, j ∈ jobQueue (leave_running job instance es s) -> id j = id job ->
                status j = Running /\ instanceId j = Some (worker_id instance) /\
                output j = output job /\ error j = error job
  | inl err =>
      scheduleNextJob net (S fuel) s
      = scheduleNextJob net fuel (fail_job job instance es err s) /\
      exists s',
        scheduleNextJob net fuel (fail_job job instance es err s) = Some s' /\
        forall j, j ∈ jobQueue s' -> id j = id job ->
                  status j = Failed /\ error j = Some err /\ output j = output job /\
                  instanceId j = Some (worker_id instance)
  end.
Proof.
  intros Hnd Havail Hpend Hfuel es.
  pose proof (scheduleNextJob_pick net fuel _ _ _ _ _ Havail Hpend) as Hpick.
  apply pendingJobs_head in Hpend as (-> & Hjob & Hfirst).
  pose proof (fun err => drained_fail_job net s job instance err Hnd Hjob Hfirst) as Hfail.
  subst es.
  destruct (submit net (length (trace s)) job instance) as [es [err|answer]]; simpl fst in *;
    simpl snd; cbv iota.
  - split; [done|].
    pose proof (pending_count_fail_job s job instance es err Hjob) as Hcount.
    destruct (scheduleNextJob_terminates net fuel (fail_job job instance es err s) ltac:(lia))
      as [s' Hs'].
    exists s'. split; [done|].
    pose proof (drained_unique_ids _ _ _ (Hfail err) Hnd) as Hnd2.
    destruct (scheduleNextJob_drains _ _ _ _ Hnd2 Hs') as [js Hjs].
    pose proof (drained_unique_ids _ _ _ Hjs Hnd2) as Hnd'.
    destruct Hjs as (_ & _ & _ & _ & _ & _ & Hids & _ & Hkeep).
    assert (set_failed err (set_running (worker_id instance) job) ∈ jobQueue s') as Hin.
    { apply Hkeep; [|done]. apply bound_rows_fail_job; [done|done|by left]. }
    intros j Hj Hid.
    by rewrite (unique_ids_eq _ _ j Hnd' Hin Hj Hid).
  - split; [done|].
    intros j Hj Hid.
    by rewrite (bound_rows_leave_running s job instance es j Hnd Hjob Hj Hid).
Qed.



(** *** The queue order and the workers, from the tables *)

Lemma busy_spec s i :
  Some i ∈ busyInstanceIds s <->
  exists j, j ∈ jobQueue s /\ status j = Running /\ instanceId j = Some i.
Proof.
  unfold busyInstanceIds. rewrite list_elem_of_In, List.in_map_iff. split.
  - intros (j & Hi & Hj). apply list_elem_of_In, elem_of_filter_status in Hj as [Hj Hst].
    by exists j.
  - intros (j & Hj & Hst & Hi). exists j. split; [done|].
    by apply list_elem_of_In, elem_of_filter_status.
Qed.

Lemma free_worker_available s w : free_worker s w <-> w ∈ availableInstances s.
Proof.
  unfold free_worker, availableInstances, runningInstances. split.
  - intros (Hw & Hrun & Hfree).
    apply list_elem_of_In, List.filter_In. split.
    + apply List.filter_In. split; [by apply list_elem_of_In|by apply bool_decide_eq_true].
    + apply negb_true_iff, bool_decide_eq_false. rewrite busy_spec.
      intros (j & Hj & Hst & Hi). by apply (Hfree j).
  - intros [[Hw Hrun]%List.filter_In Hfree]%list_elem_of_In%List.filter_In.
    apply negb_true_iff, bool_decide_eq_false in Hfree. rewrite busy_spec in Hfree.
    split; [by apply list_elem_of_In|]. split; [by apply bool_decide_eq_true in Hrun|].
    intros j Hj Hst Hi. apply Hfree. by exists j.
Qed.

Lemma filter_app_inv {A} (f : A -> bool) (l l1 : list A) x l2 :
  List.filter f l = l1 ++ x :: l2 ->
  exists q1 q2, l = q1 ++ x :: q2 /\ List.filter f q1 = l1 /\ List.filter f q2 = l2.
Proof.
  revert l1. induction l as [|a l IH]; intros l1; simpl.
  { by destruct l1. }
  destruct (f a) eqn:Hfa.
  - destruct l1 as [|b l1]; simpl; intros [= -> H].
    + by exists [], l.
    + destruct (IH l1 H) as (q1 & q2 & -> & H1 & H2).
      exists (b :: q1), q2. simpl. by rewrite Hfa, H1.
  - intros H. destruct (IH l1 H) as (q1 & q2 & -> & H1 & H2).
    exists (a :: q1), q2. simpl. by rewrite Hfa.
Qed.

(** The sort is stable: its head comes after no row, and every row before
    it in the input comes strictly after it. *)
Lemma orderBy_head l x rest :
  orderBy l = x :: rest ->
  exists l1 l2, l = l1 ++ x :: l2 /\ forall y, y ∈ l1 -> ~ precedes y x.
Proof.
  revert x rest. induction l as [|a l IH]; intros x rest; [done|].
  cbn [orderBy foldr]. fold (orderBy l).
  destruct (orderBy l) as [|x' rest'] eqn:Hsorted; cbn [insert_row].
  { intros [= <- <-]. exists [], l. split; [done|]. by intros y Hy%elem_of_nil. }
  destruct (decide (precedes a x')) as [Hax | Hax].
  - intros [= <- <-]. exists [], l. split; [done|]. by intros y Hy%elem_of_nil.
  - intros [= <- <-]. destruct (IH x' rest' eq_refl) as (l1 & l2 & -> & Hl1).
    exists (a :: l1), l2. split; [done|].
    intros y [-> | Hy]%elem_of_cons; [done|by apply Hl1].
Qed.

Lemma pendingJobs_heads_queue s job rest : pendingJobs s = job :: rest -> heads_queue s job.
Proof.
  intros Hpend. destruct (pendingJobs_head _ _ _ Hpend) as (_ & Hjob & Hfirst).
  split; [done|]. split; [done|].
  unfold pendingJobs in Hpend.
  destruct (orderBy (List.filter (has_status Pending) (jobQueue s))) as [|top others] eqn:Hsorted;
    [done|].
  simpl in Hpend. rewrite take_0 in Hpend. injection Hpend as -> <-.
  destruct (orderBy_head _ _ _ Hsorted) as (l1 & l2 & Hl & Hl1).
  destruct (filter_app_inv _ _ _ _ _ Hl) as (before & after & Hq & Hbefore & _).
  exists before, after. split; [done|].
  intros j Hj Hst.
  assert (~ precedes j job) as Hnot.
  { apply Hl1. rewrite <- Hbefore. by apply elem_of_filter_status. }
  unfold precedes in Hnot. unfold strictly_precedes. lia.
Qed.

Lemma availableInstances_first s instance others :
  availableInstances s = instance :: others ->
  first_with (free_worker s) (comfyInstances s) instance.
Proof.
  intros Havail. split.
  { apply free_worker_available. rewrite Havail. apply list_elem_of_here. }
  pose proof Havail as Hfree. unfold availableInstances in Hfree.
  destruct (filter_app_inv _ _ [] _ _ Hfree) as (r1 & r2 & Hrun & Hr1 & _).
  unfold runningInstances in Hrun.
  destruct (filter_app_inv _ _ _ _ _ Hrun) as (before & after & Hws & Hbefore & _).
  exists before, after. split; [done|].
  intros y Hy (_ & Hup & Hfy).
  assert (y ∈ r1) as Hyr.
  { rewrite <- Hbefore. apply list_elem_of_In, List.filter_In. split.
    - by apply list_elem_of_In.
    - by apply bool_decide_eq_true. }
  assert (In y (List.filter
                  (fun w => negb (bool_decide (Some (worker_id w) ∈ busyInstanceIds s))) r1))
    as Hin.
  { apply List.filter_In. split; [by apply list_elem_of_In|].
    apply negb_true_iff, bool_decide_eq_false. rewrite busy_spec.
    intros (j & Hj & Hst & Hi). by apply (Hfy j). }
  by rewrite Hr1 in Hin.
Qed.

Lemma idle_settled s : idle s -> settled s.
Proof.
  intros [Havail | Hpend].
  - right. intros w Hw%free_worker_available. rewrite Havail in Hw. by apply elem_of_nil in Hw.
  - left. by apply pendingJobs_nil.
Qed.

(** Dispatch frees no worker. *)
Lemma drained_frees_none s js s' w : drained s js s' -> free_worker s' w -> free_worker s w.
Proof.
  intros (_ & _ & _ & _ & _ & _ & _ & Hws & Hkeep) (Hw & Hup & Hfree).
  split; [by rewrite <- Hws|]. split; [done|].
  intros j Hj Hst. apply Hfree; [|done]. apply Hkeep; [done|]. by rewrite Hst.
Qed.

(** Calls that find nothing to pair only write to the log. *)
Lemma dispatch_rounds_settled net fuel n : forall s,
  idle s ->
  exists s',
    dispatch_rounds net (S fuel) n s = Some s' /\
    jobQueue s' = jobQueue s /\ comfyInstances s' = comfyInstances s /\
    bound_ids (trace s') = bound_ids (trace s).
Proof.
  induction n as [|n IH]; intros s Hidle; [by exists s|].
  cbn [dispatch_rounds].
  destruct (scheduleNextJob_idle net fuel s Hidle) as (e & He & ->).
  destruct (IH (log e s) ltac:(exact Hidle)) as (s' & Hs' & Hq & Hws & Hb).
  exists s'. split; [done|]. split; [done|]. split; [done|].
  rewrite Hb. cbn [trace log]. rewrite bound_ids_snoc, He. apply app_nil_r.
Qed.

(** C5, the claim as worded fails for the draining: worker W accepts J2 and
    keeps it, since no call ever takes a job out of [running]; however
    often dispatch is repeated, and with whatever budget, J2 is the only
    job bound and J1 stays pending. *)
Lemma dispatch_drain_counterexample :
  unique_ids two_queued /\ distinct_keys two_queued /\
  forall n fuel,
    exists s',
      dispatch_rounds echo_net (S fuel) (S n) two_queued = Some s' /\
      bound_ids (trace s') = ["J2"] /\
      is_pending s' job_J1 /\
      set_running "W" job_J2 ∈ jobQueue s'.
Proof.
  split; [exact two_queued_unique_ids|]. split; [exact two_queued_distinct_keys|].
  intros n fuel.
  set (s1 := leave_running job_J2 worker_W [HttpPostPrompt 8190 "[2]"] two_queued).
  assert (scheduleNextJob echo_net (S fuel) two_queued = Some s1) as Hfirst.
  { by rewrite (scheduleNextJob_pick echo_net fuel two_queued worker_W [] job_J2 []
                  eq_refl eq_refl). }
  assert (idle s1) as Hidle by (by left).
  destruct (dispatch_rounds_settled echo_net fuel n s1 Hidle) as (s' & Hs' & Hq & _ & Hb).
  exists s'. cbn [dispatch_rounds]. rewrite Hfirst. split; [done|].
  split; [by rewrite Hb|]. unfold is_pending. rewrite Hq.
  split; [split; [apply list_elem_of_here|done]|].
  apply list_elem_of_further, list_elem_of_here.
Qed.

(** C5, as the code has it.  When some running worker is free and some job
    is pending, a dispatch call returns and binds, first of all, the job
    that heads the queue (no pending job before it in the order priority
    DESC, created_at ASC; of fully tied rows the first in the table) to
    the first free worker of the table: the row of that id is afterwards
    bound to the worker and [running] or [failed].  Hence, when the
    pending jobs have pairwise distinct (priority, created_at), any number
    of repeated dispatch calls returns and binds jobs in strictly
    increasing (-priority, +created_at) order: the jobs bound were pending,
    each strictly precedes those bound after it and every pending job left
    unbound; no worker that was busy is free afterwards; and after as many
    calls as there were pending jobs, no job is pending or no worker is
    free. *)
Theorem dispatch_in_queue_order :
  (forall net fuel s w j,
     unique_ids s ->
     (pending_count s <= fuel)%nat ->
     free_worker s w ->
     is_pending s j ->
     exists job instance s' js,
       heads_queue s job /\
       first_with (free_worker s) (comfyInstances s) instance /\
       scheduleNextJob net (S fuel) s = Some s' /\
       bound_ids (trace s') = bound_ids (trace s) ++ id job :: (id <$> js) /\
       id <$> jobQueue s' = id <$> jobQueue s /\
       (forall row, row ∈ jobQueue s' -> id row = id job ->
                    instanceId row = Some (worker_id instance) /\
                    (status row = Running \/ status row = Failed))) /\
  (forall net fuel n s,
     unique_ids s ->
     distinct_keys s ->
     (pending_count s < fuel)%nat ->
     exists s' js,
       dispatch_rounds net fuel n s = Some s' /\
       bound_ids (trace s') = bound_ids (trace s) ++ (id <$> js) /\
       (forall j, j ∈ js -> is_pending s j) /\
       (forall j, is_pending s' j <-> is_pending s j /\ j ∉ js) /\
       StronglySorted strictly_precedes js /\
       (forall j j', j ∈ js -> is_pending s j' -> j' ∉ js -> strictly_precedes j j') /\
       (forall w, free_worker s' w -> free_worker s w) /\
       ((pending_count s <= n)%nat -> settled s')).
Proof.
  split.
  - intros net fuel s w j Hnd Hfuel Hw Hj.
    destruct (availableInstances s) as [|instance others] eqn:Havail.
    { apply free_worker_available in Hw. rewrite Havail in Hw. by apply elem_of_nil in Hw. }
    destruct (pendingJobs s) as [|job rest] eqn:Hpend.
    { by destruct (pendingJobs_nil s Hpend j). }
    destruct (scheduleNextJob_terminates net (S fuel) s ltac:(lia)) as [s' Hs'].
    destruct (scheduleNextJob_binds_head _ _ _ _ _ _ _ _ Hnd Havail Hpend Hs')
      as (js & Hbound & _ & _ & _ & _ & _ & Hids & _).
    exists job, instance, s', js.
    split; [by eapply pendingJobs_heads_queue|].
    split; [by eapply availableInstances_first|].
    split; [done|]. split; [done|]. split; [done|].
    pose proof (submission_by_result net fuel s instance others job rest
                  Hnd Havail Hpend Hfuel) as Hres.
    cbv zeta in Hres.
    destruct (snd (submit net (length (trace s)) job instance)) as [err|answer].
    + destruct Hres as (Hrec & s'' & Hs'' & Hrow).
      rewrite Hrec, Hs'' in Hs'. injection Hs' as ->.
      intros row Hin Hid. destruct (Hrow row Hin Hid) as (Hst & _ & _ & Hi). auto.
    + destruct Hres as (Hrun & Hrow). rewrite Hrun in Hs'. injection Hs' as <-.
      intros row Hin Hid. destruct (Hrow row Hin Hid) as (Hst & Hi & _). auto.
  - intros net fuel n s Hnd Hkeys Hfuel.
    destruct (dispatch_rounds_drains net fuel n s Hnd Hfuel) as (s' & js & Hs' & Hjs).
    destruct (drained_strict _ _ _ Hkeys Hjs) as [Hsorted Hprefix].
    pose proof (fun w => drained_frees_none s js s' w Hjs) as Hbusy.
    destruct Hjs as (Hbound & Hp & Hin & _).
    exists s', js. repeat (split; [done|]).
    intros Hn. apply idle_settled. by eapply dispatch_rounds_exhaust.
Qed.

Lemma two_workers_unique_ids : unique_ids two_queued_two_workers.
Proof. exact two_queued_unique_ids. Qed.

Lemma two_workers_distinct_keys : distinct_keys two_queued_two_workers.
Proof. exact two_queued_distinct_keys. Qed.

Lemma two_workers_free : free_worker two_queued_two_workers worker_W2.
Proof.
  split; [apply list_elem_of_further, list_elem_of_here|]. split; [done|].
  intros j [-> | [-> | Hj%elem_of_nil]%elem_of_cons]%elem_of_cons; done.
Qed.

Lemma two_workers_pending : is_pending two_queued_two_workers job_J1.
Proof. split; [apply list_elem_of_here|done]. Qed.

Lemma dispatch_in_queue_order_witness :
  (unique_ids two_queued_two_workers /\
   (pending_count two_queued_two_workers <= 2)%nat /\
   free_worker two_queued_two_workers worker_W2 /\
   is_pending two_queued_two_workers job_J1 /\
   exists job instance s' js,
     heads_queue two_queued_two_workers job /\
     first_with (free_worker two_queued_two_workers)
                (comfyInstances two_queued_two_workers) instance /\
     scheduleNextJob echo_net 3 two_queued_two_workers = Some s' /\
     bound_ids (trace s')
     = bound_ids (trace two_queued_two_workers) ++ id job :: (id <$> js) /\
     id <$> jobQueue s' = id <$> jobQueue two_queued_two_workers /\
     (forall row, row ∈ jobQueue s' -> id row = id job ->
                  instanceId row = Some (worker_id instance) /\
                  (status row = Running \/ status row = Failed))) /\
  (unique_ids two_queued_two_workers /\
   distinct_keys two_queued_two_workers /\
   (pending_count two_queued_two_workers < 3)%nat /\
   exists s' js,
     dispatch_rounds echo_net 3 2 two_queued_two_workers = Some s' /\
     bound_ids (trace s') = bound_ids (trace two_queued_two_workers) ++ (id <$> js) /\
     (forall j, j ∈ js -> is_pending two_queued_two_workers j) /\
     (forall j, is_pending s' j <-> is_pending two_queued_two_workers j /\ j ∉ js) /\
     StronglySorted strictly_precedes js /\
     (forall j j', j ∈ js -> is_pending two_queued_two_workers j' -> j' ∉ js ->
                   strictly_precedes j j') /\
     (forall w, free_worker s' w -> free_worker two_queued_two_workers w) /\
     ((pending_count two_queued_two_workers <= 2)%nat -> settled s')).
Proof.
  split.
  - split; [exact two_workers_unique_ids|]. split; [vm_compute; lia|].
    split; [exact two_workers_free|]. split; [exact two_workers_pending|].
    apply (proj1 dispatch_in_queue_order echo_net 2%nat two_queued_two_workers
             worker_W2 job_J1).
    + exact two_workers_unique_ids.
    + vm_compute. lia.
    + exact two_workers_free.
    + exact two_workers_pending.
  - split; [exact two_workers_unique_ids|]. split; [exact two_workers_distinct_keys|].
    split; [vm_compute; lia|].
    apply (proj2 dispatch_in_queue_order echo_net 3%nat 2%nat two_queued_two_workers).
    + exact two_workers_unique_ids.
    + exact two_workers_distinct_keys.
    + vm_compute. lia.
Defined.

Example two_workers_take_both_jobs :
  bound_ids <$> (trace <$> dispatch_rounds echo_net 3 2 two_queued_two_workers)
  = Some ["J2"; "J1"].
Proof. reflexivity. Qed.

End JobsFacts.

Module MonitoringFacts.
Import Schema Monitoring MonitoringSamples.

Example parse_selector_two : parse_selector "0,1" = [Some 0; Some 1].
Proof. reflexivity. Qed.

Example parse_selector_spaces : parse_selector " 0 , 1 " = [Some 0; Some 1].
Proof. reflexivity. Qed.

Example parse_selector_cpu : parse_selector "cpu" = [None].
Proof. reflexivity. Qed.

Example parse_selector_mps : parse_selector "mps" = [None].
Proof. reflexivity. Qed.

Example parseInt_prefix : Js.parseInt "12px" = Some 12 /\ Js.parseInt "-7" = Some (-7) /\
                          Js.parseInt "0x1f" = Some 31 /\ Js.parseInt "" = None.
Proof. repeat split. Qed.

Lemma record_instance_rows row devs s w :
  comfyInstances (record_instance row devs s w) = comfyInstances s /\
  envVars (record_instance row devs s w) = envVars s /\
  resourceMetrics (record_instance row devs s w) = resourceMetrics s ++ rows_for row devs w.
Proof.
  unfold record_instance, rows_for.
  generalize (parse_selector (gpuIndices w)) as tokens. intros tokens. revert s.
  induction tokens as [|tok tokens IH]; intros s; cbn [fold_left flat_map].
  - by rewrite app_nil_r.
  - match goal with
    | |- context [fold_left _ tokens ?next] => destruct (IH next) as (Hc & He & Hr)
    end.
    rewrite Hc, He, Hr.
    destruct tok as [n|]; [|done].
    destruct (find_device devs (Some n)) as [d|]; [|done].
    cbn [insert_metric comfyInstances envVars resourceMetrics].
    by rewrite <- app_assoc.
Qed.

Lemma record_all_rows row devs ws : forall s,
  resourceMetrics (fold_left (record_instance row devs) ws s)
  = resourceMetrics s ++ flat_map (rows_for row devs) ws.
Proof.
  induction ws as [|w ws IH]; intros s; cbn [fold_left flat_map].
  - by rewrite app_nil_r.
  - rewrite IH. destruct (record_instance_rows row devs s w) as (_ & _ & ->).
    by rewrite <- app_assoc.
Qed.

Lemma appended_app s s' rows :
  resourceMetrics s' = resourceMetrics s ++ rows -> appended s s' = rows.
Proof. unfold appended. intros ->. by rewrite drop_app_length. Qed.

Lemma recordMetrics_appended p s comfyuiPath :
  envVars s !! "COMFYUI_PATH" = Some comfyuiPath ->
  appended s (recordMetrics p s)
  = flat_map (rows_for (sample_row (getSystemMetrics p)) (devices (getGPUInfo p comfyuiPath)))
             (List.filter running (comfyInstances s)).
Proof.
  intros Hpath. unfold recordMetrics. rewrite Hpath.
  destruct (List.filter running (comfyInstances s)) as [|w ws] eqn:Hrun.
  - unfold appended. by rewrite drop_all.
  - apply appended_app. apply record_all_rows.
Qed.

Lemma recordMetrics_smi_appended p s :
  appended s (recordMetrics_smi p s)
  = flat_map (rows_for (sample_row_smi (getSystemMetrics p)) (getGPUMetrics p))
             (List.filter running (comfyInstances s)).
Proof.
  unfold recordMetrics_smi.
  destruct (List.filter running (comfyInstances s)) as [|w ws] eqn:Hrun.
  - unfold appended. by rewrite drop_all.
  - apply appended_app. apply record_all_rows.
Qed.

Lemma rows_of_rows_for row devs i w :
  (forall w n d, metric_instanceId (row w n d) = Some (worker_id w)) ->
  rows_of i (rows_for row devs w) = if String.eqb (worker_id w) i then rows_for row devs w else [].
Proof.
  intros Hrow. unfold rows_of, rows_for.
  induction (parse_selector (gpuIndices w)) as [|tok tokens IH]; cbn [flat_map].
  - by destruct (String.eqb _ _).
  - rewrite List.filter_app, IH.
    destruct tok as [n|]; [|by destruct (String.eqb _ _)].
    destruct (find_device devs (Some n)) as [d|]; [|by destruct (String.eqb _ _)].
    cbn [List.filter]. rewrite Hrow.
    destruct (String.eqb_spec (worker_id w) i) as [-> | Hne].
    + by rewrite bool_decide_eq_true_2.
    + rewrite bool_decide_eq_false_2; [done|]. by intros [= ?].
Qed.

Lemma rows_of_flat_map row devs ws w :
  (forall w n d, metric_instanceId (row w n d) = Some (worker_id w)) ->
  NoDup (worker_id <$> ws) -> w ∈ ws ->
  rows_of (worker_id w) (flat_map (rows_for row devs) ws) = rows_for row devs w.
Proof.
  intros Hrow Hnd Hw. induction ws as [|x ws IH]; [by apply elem_of_nil in Hw|].
  simpl in Hnd. apply NoDup_cons in Hnd as [Hx Hnd].
  cbn [flat_map]. unfold rows_of in *. rewrite List.filter_app.
  pose proof (rows_of_rows_for row devs (worker_id w) x Hrow) as Hhead.
  unfold rows_of in Hhead. rewrite Hhead.
  apply elem_of_cons in Hw as [-> | Hw].
  - rewrite String.eqb_refl.
    assert (List.filter (fun m => bool_decide (metric_instanceId m = Some (worker_id x)))
                        (flat_map (rows_for row devs) ws) = []) as ->; [|by rewrite app_nil_r].
    clear IH Hhead Hnd. induction ws as [|y ws IHws]; [done|].
    cbn [flat_map]. rewrite List.filter_app.
    pose proof (rows_of_rows_for row devs (worker_id x) y Hrow) as Hy.
    unfold rows_of in Hy. rewrite Hy.
    destruct (String.eqb_spec (worker_id y) (worker_id x)) as [Heq | Hne].
    + exfalso. apply Hx. rewrite <- Heq. apply list_elem_of_fmap_2, list_elem_of_here.
    + apply IHws. intros Hin. apply Hx. simpl. by apply list_elem_of_further.
  - destruct (String.eqb_spec (worker_id x) (worker_id w)) as [Heq | Hne].
    + exfalso. apply Hx. rewrite Heq. by apply list_elem_of_fmap_2.
    + by apply IH.
Qed.

Lemma filter_running_NoDup s :
  unique_worker_ids s -> NoDup (worker_id <$> List.filter running (comfyInstances s)).
Proof.
  unfold unique_worker_ids. induction (comfyInstances s) as [|x ws IH]; [done|].
  simpl. intros [Hx Hnd]%NoDup_cons.
  destruct (running x); [|by apply IH].
  simpl. apply NoDup_cons. split; [|by apply IH].
  intros (y & Hy & Hin)%list_elem_of_fmap. apply Hx. rewrite Hy.
  apply list_elem_of_fmap_2. apply list_elem_of_In in Hin.
  apply List.filter_In in Hin as [Hin _]. by apply list_elem_of_In.
Qed.

Lemma elem_of_filter_running s w :
  w ∈ comfyInstances s -> worker_state w = WRunning ->
  w ∈ List.filter running (comfyInstances s).
Proof.
  intros Hw Hst. apply list_elem_of_In, List.filter_In. split.
  - by apply list_elem_of_In.
  - unfold running. by apply bool_decide_eq_true.
Qed.

Lemma find_device_has devs n :
  has_device devs n ->
  exists d, find_device devs (Some n) = Some d /\ d ∈ devs /\ index d = n.
Proof.
  intros (d & Hd & Hn). unfold find_device.
  destruct (List.find (fun d0 => index d0 =? n) devs) as [d'|] eqn:Hfind.
  - apply List.find_some in Hfind as [Hin Heq]. exists d'.
    split; [done|]. split; [by apply list_elem_of_In|lia].
  - exfalso. apply list_elem_of_In in Hd.
    pose proof (List.find_none _ _ Hfind d Hd) as Hno. simpl in Hno. lia.
Qed.

Lemma rows_for_two row devs w :
  gpuIndices w = "0,1" -> has_device devs 0 -> has_device devs 1 ->
  exists d0 d1,
    d0 ∈ devs /\ index d0 = 0 /\ d1 ∈ devs /\ index d1 = 1 /\
    rows_for row devs w = [row w 0 d0; row w 1 d1].
Proof.
  intros Hsel (d0 & Hf0 & Hin0 & Hi0)%find_device_has (d1 & Hf1 & Hin1 & Hi1)%find_device_has.
  exists d0, d1. repeat (split; [done|]).
  unfold rows_for. rewrite Hsel.
  change (parse_selector "0,1") with [Some 0; Some 1].
  cbn [flat_map]. by rewrite Hf0, Hf1.
Qed.

Lemma rows_for_no_integer row devs w :
  Forall (fun tok => tok = None) (parse_selector (gpuIndices w)) -> rows_for row devs w = [].
Proof.
  unfold rows_for. induction 1 as [|tok tokens -> _ IH]; [done|].
  cbn [flat_map]. by rewrite IH.
Qed.

Lemma attributes_intro tick row devs s w :
  (forall w n d, metric_instanceId (row w n d) = Some (worker_id w)) ->
  appended s (tick s) = flat_map (rows_for row devs) (List.filter running (comfyInstances s)) ->
  unique_worker_ids s -> w ∈ comfyInstances s -> worker_state w = WRunning ->
  attributes tick row devs s w.
Proof.
  intros Hrow Happ Hnd Hw Hrun.
  assert (rows_of (worker_id w) (appended s (tick s)) = rows_for row devs w) as Hrows.
  { rewrite Happ. apply rows_of_flat_map; [done| |].
    - by apply filter_running_NoDup.
    - by apply elem_of_filter_running. }
  split.
  - intros Hsel H0 H1. rewrite Hrows. by apply rows_for_two.
  - intros Hnan. rewrite Hrows. by apply rows_for_no_integer.
Qed.

(** C8, the claim as worded fails for the sampler built on the platform
    probes: W is running with selector "0,1" and the inventory has devices
    0 and 1, but the config store has no [COMFYUI_PATH] entry, and the tick
    appends nothing. *)
Lemma sampler_tick_counterexample :
  worker_W ∈ comfyInstances unconfigured /\
  worker_state worker_W = WRunning /\
  gpuIndices worker_W = "0,1" /\
  (forall path, devices (getGPUInfo stub path) = [gpu 0; gpu 1]) /\
  recordMetrics stub unconfigured = unconfigured /\
  rows_of "W" (appended unconfigured (recordMetrics stub unconfigured)) = [].
Proof.
  split; [apply list_elem_of_here|]. by repeat split.
Qed.

(** C8, as the code has it.  In one tick of the sampler built on the
    platform probes, provided the config store has a [COMFYUI_PATH] entry,
    a running worker whose selector is "0,1" gets exactly two rows, for
    device 0 and device 1 of the inventory, when the inventory has both;
    a running worker none of whose selector tokens parses to an integer
    (as for "cpu" or "mps") gets none.  The sampler that queries nvidia-smi
    itself does the same without consulting the config store.  Every row
    carries the worker id, the device index and the host RAM and CPU values
    of the tick, and a tick with no running worker leaves the state as it
    was. *)
Theorem sampler_tick_rows :
  (forall p s w comfyuiPath,
     envVars s !! "COMFYUI_PATH" = Some comfyuiPath ->
     unique_worker_ids s -> w ∈ comfyInstances s -> worker_state w = WRunning ->
     attributes (recordMetrics p) (sample_row (getSystemMetrics p))
                (devices (getGPUInfo p comfyuiPath)) s w) /\
  (forall p s w,
     unique_worker_ids s -> w ∈ comfyInstances s -> worker_state w = WRunning ->
     attributes (recordMetrics_smi p) (sample_row_smi (getSystemMetrics p))
                (getGPUMetrics p) s w) /\
  (forall sys w n d,
     carries_host_metrics sys w n (sample_row sys w n d) /\
     carries_host_metrics sys w n (sample_row_smi sys w n d)) /\
  parse_selector "cpu" = [None] /\
  parse_selector "mps" = [None] /\
  (forall p s,
     List.filter running (comfyInstances s) = [] ->
     recordMetrics p s = s /\ recordMetrics_smi p s = s).
Proof.
  split; [|split; [|split; [|split; [|split]]]].
  - intros p s w comfyuiPath Hpath Hnd Hw Hrun.
    apply attributes_intro; try done. by apply recordMetrics_appended.
  - intros p s w Hnd Hw Hrun.
    apply attributes_intro; try done. by apply recordMetrics_smi_appended.
  - by repeat split.
  - reflexivity.
  - reflexivity.
  - intros p s Hnone. unfold recordMetrics, recordMetrics_smi. by rewrite Hnone.
Qed.

Lemma configured_unique_worker_ids : unique_worker_ids configured.
Proof. unfold unique_worker_ids. simpl. apply NoDup_singleton. Qed.

Lemma sampler_tick_rows_witness :
  envVars configured !! "COMFYUI_PATH" = Some "/opt/ComfyUI" /\
  unique_worker_ids configured /\
  worker_W ∈ comfyInstances configured /\
  worker_state worker_W = WRunning /\
  attributes (recordMetrics stub) (sample_row (getSystemMetrics stub))
             (devices (getGPUInfo stub "/opt/ComfyUI")) configured worker_W /\
  appended configured (recordMetrics stub configured)
  = [sample_row (getSystemMetrics stub) worker_W 0 (gpu 0);
     sample_row (getSystemMetrics stub) worker_W 1 (gpu 1)].
Proof.
  split; [reflexivity|]. split; [exact configured_unique_worker_ids|].
  split; [apply list_elem_of_here|]. split; [reflexivity|].
  split; [|reflexivity].
  apply (proj1 sampler_tick_rows stub configured worker_W "/opt/ComfyUI").
  - reflexivity.
  - exact configured_unique_worker_ids.
  - apply list_elem_of_here.
  - reflexivity.
Defined.

End MonitoringFacts.

Module QueueFacts.
Import Schema Jobs JobSamples QueueProps JobsFacts.

Lemma scheduleNextJob_idle_log net fuel s :
  idle s ->
  exists e, (e = LogNoRunningInstances \/ e = LogAllBusy \/ e = LogNoPendingJobs) /\
            scheduleNextJob net (S fuel) s = Some (log e s).
Proof.
  unfold idle. intros H. simpl.
  destruct (runningInstances s) eqn:Hrun; [exists LogNoRunningInstances; auto|].
  destruct (availableInstances s); [exists LogAllBusy; auto|].
  destruct H as [H | H]; [done|].
  rewrite H. exists LogNoPendingJobs. auto.
Qed.

(** Induction over the calls [scheduleNextJob] makes to itself. *)
Lemma scheduleNextJob_cases net (P : state -> state -> Prop) :
  (forall s e, idle s ->
               e = LogNoRunningInstances \/ e = LogAllBusy \/ e = LogNoPendingJobs ->
               P s (log e s)) ->
  (forall s instance others job rest es answer,
     availableInstances s = instance :: others ->
     pendingJobs s = job :: rest ->
     submit net (length (trace s)) job instance = (es, inr answer) ->
     P s (leave_running job instance es s)) ->
  (forall s instance others job rest es err fuel s',
     availableInstances s = instance :: others ->
     pendingJobs s = job :: rest ->
     submit net (length (trace s)) job instance = (es, inl err) ->
     scheduleNextJob net fuel (fail_job job instance es err s) = Some s' ->
     P (fail_job job instance es err s) s' ->
     P s s') ->
  forall fuel s s', scheduleNextJob net fuel s = Some s' -> P s s'.
Proof.
  intros Hidle Hok Hfail. induction fuel as [|fuel IH]; intros s s'; [done|].
  destruct (idle_dec s) as [Hi | Hbusy].
  { destruct (scheduleNextJob_idle_log net fuel s Hi) as (e & He & ->).
    intros [= <-]. by apply Hidle. }
  destruct (availableInstances s) as [|instance others] eqn:Havail.
  { exfalso. apply Hbusy. by left. }
  destruct (pendingJobs s) as [|job rest] eqn:Hpend.
  { exfalso. apply Hbusy. by right. }
  rewrite (scheduleNextJob_pick _ _ _ _ _ _ _ Havail Hpend).
  destruct (submit net (length (trace s)) job instance) as [es [err|answer]] eqn:Hsub.
  - intros Hrec. eapply Hfail; eauto.
  - intros [= <-]. eapply Hok; eauto.
Qed.

Lemma rows_leave_running s job instance es j :
  unique_ids s -> is_pending s job ->
  j ∈ jobQueue (leave_running job instance es s) <->
  j = set_running (worker_id instance) job \/ (j ∈ jobQueue s /\ j <> job).
Proof.
  intros Hnd [Hjob _]. simpl. by rewrite (elem_of_update_where_id _ _ _ Hnd Hjob).
Qed.

Lemma availableInstances_head s instance others :
  availableInstances s = instance :: others ->
  instance ∈ comfyInstances s /\ worker_state instance = WRunning /\
  Some (worker_id instance) ∉ busyInstanceIds s.
Proof.
  intros Havail.
  assert (In instance (availableInstances s)) as Hin by (rewrite Havail; by left).
  unfold availableInstances, runningInstances in Hin.
  apply List.filter_In in Hin as [Hin Hfree].
  apply List.filter_In in Hin as [Hin Hrun].
  split; [by apply list_elem_of_In|]. split.
  - by apply bool_decide_eq_true in Hrun.
  - apply negb_true_iff, bool_decide_eq_false in Hfree. done.
Qed.

Lemma running_row_busy s j :
  j ∈ jobQueue s -> status j = Running -> instanceId j ∈ busyInstanceIds s.
Proof.
  intros Hj Hst. unfold busyInstanceIds.
  apply list_elem_of_In, List.in_map, list_elem_of_In.
  by apply elem_of_filter_status.
Qed.

(** *** At most one running job per worker *)

Lemma one_job_per_worker_leave_running s job instance others es :
  unique_ids s -> is_pending s job ->
  availableInstances s = instance :: others ->
  one_job_per_worker s ->
  one_job_per_worker (leave_running job instance es s).
Proof.
  intros Hnd Hjob Havail Hone j1 j2 w Hj1 Hj2 Hr1 Hr2 Hw1 Hw2.
  destruct (availableInstances_head _ _ _ Havail) as (_ & _ & Hfree).
  apply (rows_leave_running s job instance es _ Hnd Hjob) in Hj1, Hj2.
  destruct Hj1 as [-> | [Hj1 _]], Hj2 as [-> | [Hj2 _]].
  - done.
  - exfalso. apply Hfree. simpl in Hw1. injection Hw1 as <-.
    rewrite <- Hw2. by apply running_row_busy.
  - exfalso. apply Hfree. simpl in Hw2. injection Hw2 as <-.
    rewrite <- Hw1. by apply running_row_busy.
  - by eapply Hone.
Qed.

Lemma one_job_per_worker_fail_job s job instance es err :
  unique_ids s -> is_pending s job ->
  one_job_per_worker s ->
  one_job_per_worker (fail_job job instance es err s).
Proof.
  intros Hnd Hjob Hone j1 j2 w Hj1 Hj2 Hr1 Hr2 Hw1 Hw2.
  apply (bound_rows_fail_job s job instance es err _ Hnd Hjob) in Hj1, Hj2.
  destruct Hj1 as [-> | [Hj1 _]]; [done|].
  destruct Hj2 as [-> | [Hj2 _]]; [done|].
  by eapply Hone.
Qed.

Lemma scheduleNextJob_keeps_one_job_per_worker net fuel s s' :
  scheduleNextJob net fuel s = Some s' ->
  unique_ids s -> one_job_per_worker s ->
  one_job_per_worker s' /\
  forall j, j ∈ jobQueue s' -> status j = Running ->
            j ∈ jobQueue s \/
            exists w, w ∈ comfyInstances s /\ worker_state w = WRunning /\
                      instanceId j = Some (worker_id w).
Proof.
  revert fuel s s'.
  apply (scheduleNextJob_cases net (fun s s' =>
    unique_ids s -> one_job_per_worker s ->
    one_job_per_worker s' /\
    forall j, j ∈ jobQueue s' -> status j = Running ->
              j ∈ jobQueue s \/
              exists w, w ∈ comfyInstances s /\ worker_state w = WRunning /\
                        instanceId j = Some (worker_id w))).
  - intros s e _ _ Hnd Hone. split; [done|]. intros j Hj _. by left.
  - intros s instance others job rest es answer Havail Hpend Hsub Hnd Hone.
    apply pendingJobs_head in Hpend as (_ & Hjob & _).
    split; [by eapply one_job_per_worker_leave_running|].
    intros j Hj Hst.
    apply (rows_leave_running s job instance es _ Hnd Hjob) in Hj as [-> | [Hj _]]; [|by left].
    right. exists instance.
    by destruct (availableInstances_head _ _ _ Havail) as (? & ? & _).
  - intros s instance others job rest es err fuel s' Havail Hpend Hsub _ IH Hnd Hone.
    pose proof Hpend as Hhead. apply pendingJobs_head in Hhead as (_ & Hjob & Hfirst).
    pose proof (drained_fail_job net s job instance err Hnd Hjob Hfirst) as Hstep.
    rewrite Hsub in Hstep. simpl in Hstep.
    destruct (IH (drained_unique_ids _ _ _ Hstep Hnd)
                 (one_job_per_worker_fail_job s job instance es err Hnd Hjob Hone))
      as [Hone' Hnew].
    split; [done|]. intros j Hj Hst.
    destruct (Hnew j Hj Hst) as [Hold | Hw]; [|by right].
    apply (bound_rows_fail_job s job instance es err _ Hnd Hjob) in Hold
      as [-> | [Hold _]]; [by simpl in Hst|by left].
Qed.

(** X1.  A call of [scheduleNextJob] (made with a budget above the number
    of pending jobs) returns, and keeps the queue free of two running jobs
    on one worker; every job it leaves running is bound to a worker whose
    row says [running]. *)
Theorem scheduleNextJob_one_job_per_worker net fuel s :
  unique_ids s -> one_job_per_worker s -> (pending_count s < fuel)%nat ->
  exists s',
    scheduleNextJob net fuel s = Some s' /\
    one_job_per_worker s' /\
    forall j, j ∈ jobQueue s' -> status j = Running ->
              j ∈ jobQueue s \/
              exists w, w ∈ comfyInstances s /\ worker_state w = WRunning /\
                        instanceId j = Some (worker_id w).
Proof.
  intros Hnd Hone Hfuel.
  destruct (scheduleNextJob_terminates net fuel s Hfuel) as [s' Hs'].
  exists s'. split; [done|]. by eapply scheduleNextJob_keeps_one_job_per_worker.
Qed.

Lemma two_queued_one_job_per_worker : one_job_per_worker two_queued.
Proof.
  intros j1 j2 w Hj1 _ Hr1 _ _ _. simpl in Hj1.
  apply elem_of_cons in Hj1 as [-> | Hj1%list_elem_of_singleton]; by subst.
Qed.

Lemma scheduleNextJob_one_job_per_worker_witness :
  unique_ids two_queued /\ one_job_per_worker two_queued /\
  (pending_count two_queued < 3)%nat /\
  exists s',
    scheduleNextJob echo_net 3 two_queued = Some s' /\
    one_job_per_worker s' /\
    forall j, j ∈ jobQueue s' -> status j = Running ->
              j ∈ jobQueue two_queued \/
              exists w, w ∈ comfyInstances two_queued /\ worker_state w = WRunning /\
                        instanceId j = Some (worker_id w).
Proof.
  split; [exact two_queued_unique_ids|]. split; [exact two_queued_one_job_per_worker|].
  split; [vm_compute; lia|].
  apply (scheduleNextJob_one_job_per_worker echo_net 3 two_queued).
  - exact two_queued_unique_ids.
  - exact two_queued_one_job_per_worker.
  - vm_compute. lia.
Defined.

(** *** What the scheduler leaves alone *)

Lemma scheduled_from_refl j : scheduled_from j j.
Proof. unfold scheduled_from. by repeat split; try left. Qed.

Lemma scheduled_from_trans j1 j2 j3 :
  scheduled_from j1 j2 -> scheduled_from j2 j3 -> scheduled_from j1 j3.
Proof.
  intros (Hi & Hw & Hp & Hc & Ho & H12) (Hi' & Hw' & Hp' & Hc' & Ho' & H23).
  destruct H23 as [-> | [Hpend Hst]]; [done|].
  destruct H12 as [-> | [_ [Hr | Hf]]].
  - unfold scheduled_from. repeat split; try done. by right.
  - congruence.
  - congruence.
Qed.

Lemma Forall2_update_where (R : job -> job -> Prop)
      (c : job -> bool) (f : job -> job) (q : list job) :
  (forall x, x ∈ q -> R x (if c x then f x else x)) ->
  Forall2 R q (update_where c f q).
Proof.
  unfold update_where. induction q as [|x q IH]; intros H; [constructor|].
  simpl. constructor.
  - apply H. apply list_elem_of_here.
  - apply IH. intros y Hy. apply H. by apply list_elem_of_further.
Qed.

Lemma Forall2_scheduled_trans q1 q2 q3 :
  Forall2 scheduled_from q1 q2 -> Forall2 scheduled_from q2 q3 ->
  Forall2 scheduled_from q1 q3.
Proof.
  intros H12. revert q3. induction H12 as [|x y q1 q2 Hxy _ IH]; intros q3 H23.
  - by inversion H23.
  - inversion H23 as [|? z ? q3' Hyz Hrest]; subst. constructor.
    + by eapply scheduled_from_trans.
    + by apply IH.
Qed.

Lemma scheduled_by_id s job f :
  unique_ids s -> is_pending s job ->
  (forall j, scheduled_from j (f j) \/ status j <> Pending) ->
  Forall2 scheduled_from (jobQueue s) (update_where (has_id (id job)) f (jobQueue s)).
Proof.
  intros Hnd [Hjob Hp] Hf. apply Forall2_update_where. intros x Hx.
  destruct (has_id (id job) x) eqn:Hid; [|apply scheduled_from_refl].
  apply has_id_true in Hid.
  rewrite (unique_ids_eq _ _ _ Hnd Hjob Hx Hid).
  by destruct (Hf job).
Qed.

Lemma scheduleNextJob_frame net fuel s s' :
  scheduleNextJob net fuel s = Some s' ->
  unique_ids s ->
  comfyInstances s' = comfyInstances s /\
  Forall2 scheduled_from (jobQueue s) (jobQueue s').
Proof.
  revert fuel s s'.
  apply (scheduleNextJob_cases net (fun s s' =>
    unique_ids s ->
    comfyInstances s' = comfyInstances s /\
    Forall2 scheduled_from (jobQueue s) (jobQueue s'))).
  - intros s e _ _ _. split; [done|]. simpl.
    apply Forall2_same_length_lookup_2; [done|].
    intros i x y Hx Hy. rewrite Hx in Hy. injection Hy as <-. apply scheduled_from_refl.
  - intros s instance others job rest es answer _ Hpend _ Hnd.
    apply pendingJobs_head in Hpend as (_ & Hjob & _).
    split; [done|]. simpl. apply scheduled_by_id; [done|done|].
    intros j. destruct (decide (status j = Pending)) as [Hp | Hp]; [|by right].
    left. unfold scheduled_from. simpl. repeat split. right. split; [done|by left].
  - intros s instance others job rest es err fuel s' _ Hpend Hsub _ IH Hnd.
    apply pendingJobs_head in Hpend as (_ & Hjob & Hfirst).
    pose proof (drained_fail_job net s job instance err Hnd Hjob Hfirst) as Hstep.
    rewrite Hsub in Hstep. simpl in Hstep.
    destruct (IH (drained_unique_ids _ _ _ Hstep Hnd)) as [Hw Hrows].
    split; [done|].
    eapply Forall2_scheduled_trans; [|exact Hrows].
    simpl. rewrite update_where_twice by done.
    apply scheduled_by_id; [done|done|].
    intros j. destruct (decide (status j = Pending)) as [Hp | Hp]; [|by right].
    left. unfold scheduled_from. simpl. repeat split. right. split; [done|by right].
Qed.

(** X2.  A call of [scheduleNextJob] never writes the worker table and
    never inserts, deletes or reorders job rows: row by row, the queue it
    returns holds the same row, or a row that was pending and is now running
    or failed, with its id, payload, priority, creation time and output
    untouched. *)
Theorem scheduleNextJob_leaves_rest_alone net fuel s :
  unique_ids s -> (pending_count s < fuel)%nat ->
  exists s',
    scheduleNextJob net fuel s = Some s' /\
    comfyInstances s' = comfyInstances s /\
    Forall2 scheduled_from (jobQueue s) (jobQueue s').
Proof.
  intros Hnd Hfuel.
  destruct (scheduleNextJob_terminates net fuel s Hfuel) as [s' Hs'].
  exists s'. split; [done|]. by eapply scheduleNextJob_frame.
Qed.

Lemma scheduleNextJob_leaves_rest_alone_witness :
  unique_ids two_queued /\ (pending_count two_queued < 3)%nat /\
  exists s',
    scheduleNextJob dead_net 3 two_queued = Some s' /\
    comfyInstances s' = comfyInstances two_queued /\
    Forall2 scheduled_from (jobQueue two_queued) (jobQueue s').
Proof.
  split; [exact two_queued_unique_ids|]. split; [vm_compute; lia|].
  apply (scheduleNextJob_leaves_rest_alone dead_net 3 two_queued).
  - exact two_queued_unique_ids.
  - vm_compute. lia.
Defined.

(** *** How much one call can do *)

Lemma posts_app t1 t2 : posts (t1 ++ t2) = (posts t1 + posts t2)%nat.
Proof. unfold posts. by rewrite List.filter_app, length_app. Qed.

Lemma posts_submit net tick job w : (posts (fst (submit net tick job w)) <= 1)%nat.
Proof.
  unfold submit, posts. destruct (reserialize net _); simpl; [lia|].
  destruct (post_prompt net _ _ _); simpl; lia.
Qed.

Lemma posts_leave_running s job instance es :
  posts (trace (leave_running job instance es s)) = (posts (trace s) + posts es)%nat.
Proof. simpl. rewrite !posts_app. unfold posts. simpl. lia. Qed.

Lemma posts_fail_job s job instance es err :
  posts (trace (fail_job job instance es err s)) = (posts (trace s) + posts es)%nat.
Proof. simpl. rewrite !posts_app. unfold posts. simpl. lia. Qed.

Lemma scheduleNextJob_budget net fuel s s' :
  scheduleNextJob net fuel s = Some s' ->
  (posts (trace s') + pending_count s' <= posts (trace s) + pending_count s)%nat.
Proof.
  revert fuel s s'.
  apply (scheduleNextJob_cases net (fun s s' =>
    (posts (trace s') + pending_count s' <= posts (trace s) + pending_count s)%nat)).
  - intros s e _ He. simpl. rewrite posts_app.
    assert (posts [e] = 0%nat) as -> by (by destruct He as [-> | [-> | ->]]).
    unfold pending_count. simpl. lia.
  - intros s instance others job rest es answer _ Hpend Hsub.
    apply pendingJobs_head in Hpend as (_ & Hjob & _).
    pose proof (pending_count_leave_running s job instance es Hjob).
    pose proof (posts_submit net (length (trace s)) job instance) as Hes.
    rewrite Hsub in Hes. simpl in Hes. rewrite posts_leave_running. lia.
  - intros s instance others job rest es err fuel s' _ Hpend Hsub _ IH.
    apply pendingJobs_head in Hpend as (_ & Hjob & _).
    pose proof (pending_count_fail_job s job instance es err Hjob).
    pose proof (posts_submit net (length (trace s)) job instance) as Hes.
    rewrite Hsub in Hes. simpl in Hes. rewrite posts_fail_job in IH. lia.
Qed.

(** X3.  One call of [scheduleNextJob] settles within as many calls to
    itself as there are pending jobs, and the POSTs to [/prompt] it issues
    are at most the number of jobs it took out of [pending]. *)
Theorem scheduleNextJob_settles net s :
  exists s',
    scheduleNextJob net (S (pending_count s)) s = Some s' /\
    (pending_count s' <= pending_count s)%nat /\
    (posts (trace s') - posts (trace s) <= pending_count s - pending_count s')%nat.
Proof.
  destruct (scheduleNextJob_terminates net (S (pending_count s)) s ltac:(lia)) as [s' Hs'].
  exists s'. split; [done|].
  pose proof (scheduleNextJob_pending_count _ _ _ _ Hs').
  pose proof (scheduleNextJob_budget _ _ _ _ Hs'). lia.
Qed.

(** *** Cancellation *)

Lemma update_where_none (c : job -> bool) (f : job -> job) (q : list job) :
  (forall j, j ∈ q -> c j = false) -> update_where c f q = q.
Proof.
  unfold update_where. induction q as [|x q IH]; intros H; [done|]. simpl.
  rewrite (H x) by apply list_elem_of_here. f_equal. apply IH.
  intros j Hj. apply H. by apply list_elem_of_further.
Qed.

Lemma filter_none {A} (c : A -> bool) (q : list A) :
  (forall j, j ∈ q -> c j = false) -> List.filter c q = [].
Proof.
  induction q as [|x q IH]; intros H; [done|]. simpl.
  rewrite (H x) by apply list_elem_of_here. apply IH.
  intros j Hj. apply H. by apply list_elem_of_further.
Qed.

Lemma cancel_rejected net s i :
  (forall j, j ∈ jobQueue s -> cancellable i j = false) ->
  cancel net s i = (NotFound "Job not found or cannot be cancelled", s).
Proof.
  intros H. unfold cancel, returning.
  rewrite (filter_none _ _ H), (update_where_none _ _ _ H). by destruct s.
Qed.

Lemma cancel_queue net s i :
  jobQueue (snd (cancel net s i)) = update_where (cancellable i) set_cancelled (jobQueue s) /\
  comfyInstances (snd (cancel net s i)) = comfyInstances s.
Proof.
  unfold cancel.
  destruct (returning (cancellable i) set_cancelled (jobQueue s)) as [|row rest] eqn:Hr; [done|].
  by rewrite (returning_cancelled _ _ _ _ Hr).
Qed.

Lemma cancellable_after net s i j :
  j ∈ jobQueue (snd (cancel net s i)) -> cancellable i j = false.
Proof.
  destruct (cancel_queue net s i) as [-> _]. unfold update_where.
  intros (x & -> & Hx)%list_elem_of_fmap.
  destruct (cancellable i x) eqn:Hc; [|done].
  unfold cancellable, has_status. simpl. by rewrite andb_false_r.
Qed.

(** X4.  The cancel route is guarded by the row's status: when no row with
    the id is pending or running it answers "not found" and changes
    nothing; when it succeeds the returned row has the id, is [cancelled]
    and is in the table; and whatever the first answer, cancelling the same
    id again is answered "not found" and changes nothing. *)
Theorem cancel_is_status_guarded net s i :
  ((forall j, j ∈ jobQueue s -> id j = i -> status j <> Pending /\ status j <> Running) ->
   cancel net s i = (NotFound "Job not found or cannot be cancelled", s)) /\
  (forall row s', cancel net s i = (Success row, s') ->
                  row ∈ jobQueue s' /\ id row = i /\ status row = Cancelled) /\
  cancel net (snd (cancel net s i)) i
  = (NotFound "Job not found or cannot be cancelled", snd (cancel net s i)).
Proof.
  split; [|split].
  - intros H. apply cancel_rejected. intros j Hj.
    unfold cancellable, has_status.
    destruct (has_id i j) eqn:Hid; [|done].
    apply has_id_true in Hid. destruct (H j Hj Hid) as [Hp Hr].
    by rewrite !bool_decide_eq_false_2.
  - intros row s' Hc.
    pose proof (cancel_queue net s i) as [Hq _]. rewrite Hc in Hq. simpl in Hq.
    unfold cancel in Hc.
    destruct (returning (cancellable i) set_cancelled (jobQueue s)) as [|r rest] eqn:Hr;
      [done|].
    injection Hc as <- _.
    assert (r ∈ returning (cancellable i) set_cancelled (jobQueue s)) as Hin
      by (rewrite Hr; apply list_elem_of_here).
    unfold returning in Hin. apply list_elem_of_fmap in Hin as (x & -> & Hx).
    apply list_elem_of_In, List.filter_In in Hx as [Hx Hcx].
    split; [|split].
    + rewrite Hq. unfold update_where. apply list_elem_of_fmap.
      exists x. rewrite Hcx. split; [done|by apply list_elem_of_In].
    + unfold cancellable in Hcx. apply andb_true_iff in Hcx as [Hid _].
      by apply has_id_true in Hid.
    + done.
  - apply cancel_rejected. intros j. apply cancellable_after.
Qed.

Lemma cancel_is_status_guarded_witness :
  cancel echo_net (snd (cancel echo_net one_running "J1")) "J1"
  = (NotFound "Job not found or cannot be cancelled", snd (cancel echo_net one_running "J1")) /\
  (forall j, j ∈ jobQueue two_queued -> id j = "J9" ->
             status j <> Pending /\ status j <> Running) /\
  cancel echo_net two_queued "J9"
  = (NotFound "Job not found or cannot be cancelled", two_queued).
Proof.
  assert (forall j, j ∈ jobQueue two_queued -> id j = "J9" ->
                    status j <> Pending /\ status j <> Running) as Hnone.
  { intros j Hj Hid. simpl in Hj.
    apply elem_of_cons in Hj as [-> | Hj%list_elem_of_singleton]; by subst. }
  split; [|split; [exact Hnone|]].
  - apply (proj2 (proj2 (cancel_is_status_guarded echo_net one_running "J1"))).
  - apply (proj1 (cancel_is_status_guarded echo_net two_queued "J9")). exact Hnone.
Defined.

(** X5.  Cancelling the job that runs on a worker makes that worker
    available to the scheduler again (as long as its row says [running]
    and no second job runs on it). *)
Theorem cancel_frees_the_worker net s j w :
  one_job_per_worker s ->
  j ∈ jobQueue s -> status j = Running -> instanceId j = Some (worker_id w) ->
  w ∈ runningInstances s ->
  (w ∉ availableInstances s) /\
  w ∈ availableInstances (snd (cancel net s (id j))).
Proof.
  intros Hone Hj Hst Hw Hrun. split.
  - intros Hin. apply list_elem_of_In in Hin.
    unfold availableInstances in Hin. apply List.filter_In in Hin as [_ Hfree].
    apply negb_true_iff, bool_decide_eq_false in Hfree. apply Hfree.
    rewrite <- Hw. by apply running_row_busy.
  - unfold availableInstances, runningInstances, busyInstanceIds.
    destruct (cancel_queue net s (id j)) as [-> ->].
    apply list_elem_of_In, List.filter_In. split; [by apply list_elem_of_In|].
    apply negb_true_iff, bool_decide_eq_false.
    intros Hbusy. apply list_elem_of_In, List.in_map_iff in Hbusy as (x & Hx & Hin).
    apply List.filter_In in Hin as [Hin Hxr].
    apply bool_decide_eq_true in Hxr.
    apply list_elem_of_In in Hin. unfold update_where in Hin.
    apply list_elem_of_fmap in Hin as (y & -> & Hy).
    destruct (cancellable (id j) y) eqn:Hc; [done|].
    assert (y = j) as -> by (by eapply Hone).
    unfold cancellable, has_id, has_status in Hc.
    rewrite String.eqb_refl, (bool_decide_eq_true_2 (status j = Running) Hst) in Hc.
    by rewrite orb_true_r in Hc.
Qed.

Lemma cancel_frees_the_worker_witness :
  one_job_per_worker one_running /\
  (worker_W ∉ availableInstances one_running) /\
  worker_W ∈ availableInstances (snd (cancel echo_net one_running "J1")).
Proof.
  assert (one_job_per_worker one_running) as Hone.
  { intros j1 j2 w Hj1 Hj2 _ _ _ _. simpl in Hj1, Hj2.
    apply list_elem_of_singleton in Hj1, Hj2. by subst. }
  split; [exact Hone|].
  apply (cancel_frees_the_worker echo_net one_running (set_running "W" job_J1) worker_W).
  - exact Hone.
  - apply list_elem_of_here.
  - reflexivity.
  - reflexivity.
  - apply list_elem_of_here.
Defined.

(** *** A worker that cannot be reached *)

Lemma busy_update_where (c : job -> bool) (f : job -> job) (q : list job) :
  (forall j, j ∈ q -> c j = true -> status j <> Running /\ status (f j) <> Running) ->
  instanceId <$> List.filter (has_status Running) (update_where c f q)
  = instanceId <$> List.filter (has_status Running) q.
Proof.
  unfold update_where. induction q as [|x q IH]; intros H; [done|].
  assert (instanceId <$> List.filter (has_status Running) (map (fun j => if c j then f j else j) q)
          = instanceId <$> List.filter (has_status Running) q) as IH'.
  { apply IH. intros j Hj. apply H. by apply list_elem_of_further. }
  cbn [map List.filter]. destruct (c x) eqn:Hc.
  - destruct (H x (list_elem_of_here _ _) Hc) as [Hx Hfx].
    assert (has_status Running (f x) = false) as -> by (by apply bool_decide_eq_false_2).
    assert (has_status Running x = false) as -> by (by apply bool_decide_eq_false_2).
    exact IH'.
  - destruct (has_status Running x); [|done]. cbn [fmap list_fmap]. f_equal. exact IH'.
Qed.

Lemma availableInstances_fail_job s job instance es err :
  unique_ids s -> is_pending s job ->
  availableInstances (fail_job job instance es err s) = availableInstances s.
Proof.
  intros Hnd [Hjob Hst]. unfold availableInstances, runningInstances, busyInstanceIds.
  simpl. rewrite update_where_twice by done.
  assert (map instanceId
            (List.filter (has_status Running)
               (update_where (has_id (id job))
                  (fun j => set_failed err (set_running (worker_id instance) j)) (jobQueue s)))
          = map instanceId (List.filter (has_status Running) (jobQueue s))) as ->; [|done].
  apply busy_update_where. intros j Hj Hid%has_id_true.
  assert (j = job) as -> by (by eapply unique_ids_eq).
  rewrite Hst. by split.
Qed.

Lemma unreachable_submit net tick j w :
  unreachable net -> exists es err, submit net tick j w = (es, inl err).
Proof.
  intros Hnet. unfold submit. destruct (reserialize net (workflowData j)) as [err|body].
  - by exists [], err.
  - destruct (Hnet tick (port w) body) as [err ->]. by eexists _, err.
Qed.

Lemma scheduleNextJob_unreachable net fuel s s' :
  unreachable net ->
  scheduleNextJob net fuel s = Some s' ->
  unique_ids s -> availableInstances s <> [] ->
  availableInstances s' = availableInstances s /\
  pending_count s' = 0%nat /\
  (forall j, is_pending s j ->
             exists j', j' ∈ jobQueue s' /\ id j' = id j /\ status j' = Failed /\
                        error j' <> None) /\
  (forall j, j ∈ jobQueue s -> status j <> Pending -> j ∈ jobQueue s').
Proof.
  intros Hnet Hrun. revert fuel s s' Hrun.
  apply (scheduleNextJob_cases net (fun s s' =>
    unique_ids s -> availableInstances s <> [] ->
    availableInstances s' = availableInstances s /\
    pending_count s' = 0%nat /\
    (forall j, is_pending s j ->
               exists j', j' ∈ jobQueue s' /\ id j' = id j /\ status j' = Failed /\
                          error j' <> None) /\
    (forall j, j ∈ jobQueue s -> status j <> Pending -> j ∈ jobQueue s'))).
  - intros s e [Hi | Hi] _ _ Hfree; [done|].
    pose proof (pendingJobs_nil s Hi) as Hnone.
    split; [done|]. split; [|split; [|done]].
    + unfold pending_count. simpl.
      destruct (List.filter (has_status Pending) (jobQueue s)) as [|x l] eqn:Hf; [done|].
      exfalso. apply (Hnone x). apply elem_of_filter_status. rewrite Hf. apply list_elem_of_here.
    + intros j Hj. by destruct (Hnone j).
  - intros s instance others job rest es answer _ _ Hsub.
    destruct (unreachable_submit net (length (trace s)) job instance Hnet) as (es' & err & Heq).
    congruence.
  - intros s instance others job rest es err fuel s' Havail Hpend Hsub _ IH Hnd Hfree.
    destruct (pendingJobs_head _ _ _ Hpend) as (_ & Hjob & _).
    pose proof (availableInstances_fail_job s job instance es err Hnd Hjob) as Hsame.
    pose proof (bound_rows_fail_job s job instance es err) as Hrows.
    destruct IH as (Hav & Hzero & Hfailed & Hkept).
    { unfold unique_ids, fail_job. simpl. rewrite !update_where_ids by done. exact Hnd. }
    { by rewrite Hsame. }
    split; [by rewrite Hav|]. split; [done|]. split.
    + intros j Hj. destruct (String.eqb_spec (id j) (id job)) as [Hid | Hne].
      * assert (j = job) as ->
          by (eapply unique_ids_eq; [exact Hnd|apply Hjob|apply Hj|exact Hid]).
        exists (set_failed err (set_running (worker_id instance) job)).
        split; [|done]. apply Hkept; [|done]. apply Hrows; auto.
      * apply Hfailed. destruct Hj as [Hj Hst]. split; [|done].
        apply Hrows; [done..|]. right. split; [done|]. by intros ->.
    + intros j Hj Hst. apply Hkept; [|done]. apply Hrows; [done..|].
      right. split; [done|]. intros ->. by destruct Hjob.
Qed.

(** X6.  When no worker can be reached and a running worker is free, one
    call of the scheduler empties the queue: the call returns, every job
    that was pending is now [failed] with an error message, the rows that
    were not pending are untouched, and the same workers are free
    afterwards. *)
Theorem scheduleNextJob_fails_whole_queue net s :
  unreachable net -> unique_ids s -> availableInstances s <> [] ->
  exists s',
    scheduleNextJob net (S (pending_count s)) s = Some s' /\
    availableInstances s' = availableInstances s /\
    pending_count s' = 0%nat /\
    (forall j, is_pending s j ->
               exists j', j' ∈ jobQueue s' /\ id j' = id j /\ status j' = Failed /\
                          error j' <> None) /\
    (forall j, j ∈ jobQueue s -> status j <> Pending -> j ∈ jobQueue s').
Proof.
  intros Hnet Hnd Hfree.
  destruct (scheduleNextJob_terminates net (S (pending_count s)) s) as [s' Hrun]; [lia|].
  exists s'. split; [done|]. by eapply scheduleNextJob_unreachable.
Qed.

Lemma scheduleNextJob_fails_whole_queue_witness :
  unreachable dead_net /\ unique_ids two_queued /\ availableInstances two_queued <> [] /\
  exists s',
    scheduleNextJob dead_net 3 two_queued = Some s' /\
    availableInstances s' = availableInstances two_queued /\
    pending_count s' = 0%nat /\
    (forall j, is_pending two_queued j ->
               exists j', j' ∈ jobQueue s' /\ id j' = id j /\ status j' = Failed /\
                          error j' <> None) /\
    (forall j, j ∈ jobQueue two_queued -> status j <> Pending -> j ∈ jobQueue s').
Proof.
  assert (unreachable dead_net) as Hnet by (intros tick p body; by eexists).
  assert (availableInstances two_queued <> []) as Hfree by (by vm_compute).
  split; [exact Hnet|]. split; [exact two_queued_unique_ids|]. split; [exact Hfree|].
  exact (scheduleNextJob_fails_whole_queue dead_net two_queued Hnet two_queued_unique_ids Hfree).
Defined.

(** *** [POST /]: the answer and the table *)





End QueueFacts.


(** ** More on [ComfyUICli] *)

Module CliExtFacts.
Import BuildArgs Cli CliSamples CliExt CliExtSamples.

(** *** The two argument builders *)

Lemma buildArgs_body_legacy args key value :
  buildArgs_body args (key, value)
  = if internal_option key then args else Legacy.buildArgs_body args (key, value).
Proof. unfold buildArgs_body, internal_option. by destruct (_ || _). Qed.

(** X8.  The class's argument builder is the module-level builder of the
    older file applied to the options without [cudaDevice] and [useMps]:
    the two differ on those two keys only. *)
Theorem buildArgs_is_legacy_without_internal opts :
  buildArgs opts
  = Legacy.buildArgs (List.filter (fun entry => negb (internal_option (fst entry))) opts).
Proof.
  unfold buildArgs, Legacy.buildArgs. generalize (@nil string) as args.
  induction opts as [|[key value] opts IH]; intros args; [done|].
  cbn [fold_left List.filter fst]. rewrite buildArgs_body_legacy.
  destruct (internal_option key); cbn [negb]; [apply IH|].
  cbn [fold_left]. apply IH.
Qed.

(** *** The handlers *)

Lemma split_no_sep sep s piece :
  piece ∈ Js.split sep s -> Js.includes piece (String sep "") = false.
Proof.
  revert piece. induction s as [|c s IH]; intros piece.
  - simpl. intros ->%list_elem_of_singleton. simpl. done.
  - cbn [Js.split]. destruct (Ascii.eqb c sep) eqn:Hc.
    + intros [-> | Hin]%elem_of_cons; [done|]. by apply IH.
    + destruct (Js.split sep s) as [|first others] eqn:Hs.
      * intros ->%list_elem_of_singleton. cbn [Js.includes String.prefix].
        destruct (ascii_dec sep c) as [-> | _]; [by rewrite Ascii.eqb_refl in Hc|done].
      * intros [-> | Hin]%elem_of_cons.
        -- cbn [Js.includes String.prefix].
           destruct (ascii_dec sep c) as [-> | _]; [by rewrite Ascii.eqb_refl in Hc|].
           cbn [orb]. apply IH. apply list_elem_of_here.
        -- apply IH. by apply list_elem_of_further.
Qed.

Lemma data_lines_single data l : l ∈ data_lines data -> single_line l.
Proof.
  unfold data_lines. intros Hin. apply list_elem_of_In, List.filter_In in Hin as [Hin Hne].
  split.
  - intros ->. done.
  - apply (split_no_sep line_feed (Js.trim data)). by apply list_elem_of_In.
Qed.

Lemma grows_refl i : grows i i.
Proof. by repeat split. Qed.

Lemma grows_trans i j k : grows i j -> grows j k -> grows i k.
Proof.
  intros ((? & ? & ? & ? & ? & ? & ?) & ? & ? & ?) ((? & ? & ? & ? & ? & ? & ?) & ? & ? & ?).
  split; [repeat split; congruence|]. split; [|split]; by etrans.
Qed.

Lemma grows_stdout_line line i : grows i (on_stdout_line line i).
Proof.
  unfold on_stdout_line.
  destruct (_ || _); [|destruct (_ || _)];
    (split; [done|]; simpl; split; [|split]; try done; by apply prefix_app_r).
Qed.

Lemma grows_stderr_line line i : grows i (on_stderr_line line i).
Proof. split; [done|]. simpl. split; [|split]; try done; by apply prefix_app_r. Qed.

Lemma grows_fold (f : string -> ComfyInstance -> ComfyInstance) lines :
  (forall line i, grows i (f line i)) ->
  forall i, grows i (fold_left (fun i line => f line i) lines i).
Proof.
  intros Hf. induction lines as [|line lines IH]; intros i; [apply grows_refl|].
  simpl. eapply grows_trans; [apply (Hf line)|apply IH].
Qed.

Lemma grows_handle e i : grows i (handle e i).
Proof.
  destruct e as [data|data|code signal|message]; simpl.
  - apply (grows_fold on_stdout_line), grows_stdout_line.
  - apply (grows_fold on_stderr_line), grows_stderr_line.
  - unfold on_exit. destruct code as [n|]; [destruct (n =? 0)|]; by repeat split.
  - split; [done|]. simpl. split; [|split]; try done. by apply prefix_app_r.
Qed.

Lemma grows_handle_all es : forall i, grows i (handle_all es i).
Proof.
  induction es as [|e es IH]; intros i; [apply grows_refl|].
  simpl. eapply grows_trans; [apply grows_handle|apply IH].
Qed.

Lemma hasFatalErrors_prefix i i' :
  errors i `prefix_of` errors i' -> hasFatalErrors i = true -> hasFatalErrors i' = true.
Proof.
  intros [more Hmore]. unfold hasFatalErrors. rewrite Hmore, existsb_app. by intros ->.
Qed.

(** X9.  The handlers attached to the child only append: after any sequence
    of [data], [exit] and [error] events the record has the same id, pid,
    port, host, options, device attribution and start time, each of its
    three buffers extends the old one, and a fatal error once buffered
    stays visible to the readiness poll. *)
Theorem handlers_append_only es i :
  grows i (handle_all es i) /\
  (hasFatalErrors i = true -> hasFatalErrors (handle_all es i) = true).
Proof.
  pose proof (grows_handle_all es i) as Hg. split; [done|].
  apply hasFatalErrors_prefix. apply Hg.
Qed.

Lemma well_logged_stdout_line line i :
  single_line line -> well_logged i -> well_logged (on_stdout_line line i).
Proof.
  intros Hline (Hlogs & Hwarn & Herr). unfold on_stdout_line.
  assert (forall l, l ∈ logs i ++ [line] -> single_line l) as Hlogs'.
  { intros l [Hl | ->%list_elem_of_singleton]%elem_of_app; auto. }
  destruct (_ || _); [|destruct (_ || _)]; simpl; (split; [done|]); split.
  - intros l Hl. apply elem_of_app. left. auto.
  - intros l [Hl | ->%list_elem_of_singleton]%elem_of_app.
    + destruct (Herr l Hl) as [Hin | Hp]; [|by right]. left. apply elem_of_app. by left.
    + left. apply elem_of_app. right. apply list_elem_of_here.
  - intros l [Hl | ->%list_elem_of_singleton]%elem_of_app.
    + apply elem_of_app. left. auto.
    + apply elem_of_app. right. apply list_elem_of_here.
  - intros l Hl. destruct (Herr l Hl) as [Hin | Hp]; [|by right]. left. apply elem_of_app. by left.
  - intros l Hl. apply elem_of_app. left. auto.
  - intros l Hl. destruct (Herr l Hl) as [Hin | Hp]; [|by right]. left. apply elem_of_app. by left.
Qed.

Lemma well_logged_stderr_line line i :
  single_line line -> well_logged i -> well_logged (on_stderr_line line i).
Proof.
  intros Hline (Hlogs & Hwarn & Herr). unfold on_stderr_line. simpl. split; [|split].
  - intros l [Hl | ->%list_elem_of_singleton]%elem_of_app; auto.
  - intros l Hl. apply elem_of_app. left. auto.
  - intros l [Hl | ->%list_elem_of_singleton]%elem_of_app.
    + destruct (Herr l Hl) as [Hin | Hp]; [|by right]. left. apply elem_of_app. by left.
    + left. apply elem_of_app. right. apply list_elem_of_here.
Qed.

Lemma well_logged_fold (f : string -> ComfyInstance -> ComfyInstance) lines :
  (forall line i, single_line line -> well_logged i -> well_logged (f line i)) ->
  (forall line, line ∈ lines -> single_line line) ->
  forall i, well_logged i -> well_logged (fold_left (fun i line => f line i) lines i).
Proof.
  intros Hf. induction lines as [|line lines IH]; intros Hlines i Hi; [done|].
  simpl. apply IH.
  - intros l Hl. apply Hlines. by apply list_elem_of_further.
  - apply Hf; [|done]. apply Hlines. apply list_elem_of_here.
Qed.

Lemma well_logged_handle e i : well_logged i -> well_logged (handle e i).
Proof.
  intros Hi. destruct e as [data|data|code signal|message]; simpl.
  - apply (well_logged_fold on_stdout_line); [apply well_logged_stdout_line| |done].
    apply data_lines_single.
  - apply (well_logged_fold on_stderr_line); [apply well_logged_stderr_line| |done].
    apply data_lines_single.
  - unfold on_exit. destruct code as [n|]; [destruct (n =? 0)|]; exact Hi.
  - destruct Hi as (Hlogs & Hwarn & Herr). split; [done|]. split; [done|]. simpl.
    intros l [Hl | ->%list_elem_of_singleton]%elem_of_app; [auto|]. right.
    by destruct message.
Qed.

(** X10.  The record a launch starts from is well formed, and whatever
    the child of a worker prints and however it ends, its record stays
    well formed: no logged line is empty or contains a line feed, every
    warning is one of the logged lines, and every error is a logged line
    or the report of an [error] event. *)
Theorem record_stays_well_logged :
  (forall l instanceId opts, well_logged (new_instance l instanceId opts)) /\
  (forall es i, well_logged i -> well_logged (handle_all es i)).
Proof.
  split.
  - intros l instanceId opts.
    split; [|split]; simpl; intros l0 Hin; by apply elem_of_nil in Hin.
  - induction es as [|e es IH]; intros i Hi; [done|].
    simpl. apply IH. by apply well_logged_handle.
Qed.

Lemma sample_instance_well_logged : well_logged sample_instance.
Proof. split; [|split]; simpl; intros l0 Hin; by apply elem_of_nil in Hin. Qed.

Lemma record_stays_well_logged_witness :
  well_logged sample_instance /\
  well_logged
    (handle_all [StdoutData two_lines; StderrData "Traceback"; ChildError "spawn ENOENT"]
                sample_instance).
Proof.
  split; [exact sample_instance_well_logged|].
  apply (proj2 record_stays_well_logged
           [StdoutData two_lines; StderrData "Traceback"; ChildError "spawn ENOENT"]
           sample_instance).
  exact sample_instance_well_logged.
Defined.

(** *** The readiness poll in any world *)

(** What a pass, or the rest of the loop, adds to the effect log. *)
Lemma count_app {A} (f : A -> bool) (a b : list A) :
  length (List.filter f (a ++ b)) = (length (List.filter f a) + length (List.filter f b))%nat.
Proof. by rewrite List.filter_app, length_app. Qed.

Lemma poll_attempt_effects w c instanceId (attempts interval attempt : Z) st :
  exists extra,
    (api_probes extra <= 1)%nat /\
    (sleeps extra <= if (attempt <? attempts - 1)%Z then 1 else 0)%nat /\
    Forall (polling interval) extra /\
    match poll_attempt w c instanceId (Js.Int attempts) interval attempt st with
    | inl (r, st') =>
        ps_trace st' = ps_trace st ++ extra /\
        (result_status r = "error" -> status (ps_instance st') = Error) /\
        (ready r = true <-> result_status r = "running")
    | inr st' => ps_trace st' = ps_trace st ++ extra
    end.
Proof.
  unfold poll_attempt. cbn [Js.less_than Js.minus_one].
  destruct (pid_truthy (pid (ps_instance st))) as [p|];
    [destruct (isProcessRunning w _ p)|]; cbn [negb];
    try (destruct (isApiReady _ _ _ _); [|destruct (hasFatalErrors _)]);
    destruct (attempt <? attempts - 1) eqn:Hlast;
    eexists; cbn [ps_trace await update];
    (split; [|split; [|split; [|repeat split]]]);
    rewrite <- ?app_assoc; cbn [app];
    try reflexivity; try done;
    try (unfold api_probes; cbn; lia); try (unfold sleeps; cbn; lia);
    by repeat constructor.
Qed.

Lemma poll_exhausted_effects w interval st :
  exists extra,
    api_probes extra = 0%nat /\ sleeps extra = 0%nat /\ Forall (polling interval) extra /\
    ps_trace (snd (poll_exhausted w st)) = ps_trace st ++ extra /\
    (result_status (fst (poll_exhausted w st)) = "error" ->
     status (ps_instance (snd (poll_exhausted w st))) = Error) /\
    (ready (fst (poll_exhausted w st)) = true <->
     result_status (fst (poll_exhausted w st)) = "running").
Proof.
  unfold poll_exhausted.
  destruct (pid_truthy (pid (ps_instance st))) as [p|].
  - destruct (isProcessRunning w _ p).
    + exists [EProcessProbe p]. cbn. repeat split; try done. by repeat constructor.
    + exists [EProcessProbe p]. cbn. repeat split; try done. by repeat constructor.
  - exists []. cbn. rewrite app_nil_r. repeat split; try done.
Qed.

Lemma poll_passes_effects w c instanceId attempts interval remaining :
  forall attempt st,
  exists extra,
    (api_probes extra <= remaining)%nat /\
    (sleeps extra <= Z.to_nat (attempts - 1 - attempt))%nat /\
    Forall (polling interval) extra /\
    ps_trace (snd (poll_passes w c instanceId (Js.Int attempts) interval remaining attempt st))
    = ps_trace st ++ extra /\
    (result_status (fst (poll_passes w c instanceId (Js.Int attempts) interval remaining
                                     attempt st))
     = "error" ->
     status (ps_instance (snd (poll_passes w c instanceId (Js.Int attempts) interval remaining
                                           attempt st))) = Error) /\
    (ready (fst (poll_passes w c instanceId (Js.Int attempts) interval remaining attempt st))
     = true <->
     result_status (fst (poll_passes w c instanceId (Js.Int attempts) interval remaining
                                     attempt st))
     = "running").
Proof.
  induction remaining as [|remaining IH]; intros attempt st.
  - cbn [poll_passes].
    destruct (poll_exhausted_effects w interval st) as (extra & Ha & Hs & Hp & Ht & He & Hr).
    exists extra. rewrite Ha, Hs. repeat split; try done; try lia; apply Hr.
  - cbn [poll_passes].
    destruct (poll_attempt_effects w c instanceId attempts interval attempt st)
      as (extra & Ha & Hs & Hp & Hrest).
    destruct (poll_attempt w c instanceId (Js.Int attempts) interval attempt st)
      as [[r st']|st'].
    + destruct Hrest as (Ht & He & Hr). exists extra. cbn [fst snd].
      split; [lia|]. split; [|done].
      destruct (Z.ltb_spec attempt (attempts - 1)); lia.
    + destruct (IH (attempt + 1) st') as (more & Ha' & Hs' & Hp' & Ht' & He' & Hr').
      exists (extra ++ more). unfold api_probes, sleeps in *. rewrite !count_app.
      split; [lia|]. split; [|split; [by apply Forall_app|]].
      * destruct (Z.ltb_spec attempt (attempts - 1)); lia.
      * rewrite Ht', Hrest, <- app_assoc. done.
Qed.

(** X11.  In every world, a readiness poll with a finite number [n] of
    attempts returns, and it is bounded and harmless: it makes at most [n]
    API probes and sleeps at most [n - 1] times, each time for the interval
    asked for; it performs nothing but probes and sleeps; it leaves the
    other workers' records alone; an answer "error" is always reflected in
    the record's status; and the answer is [ready] exactly when its status
    text is "running". *)
Theorem isInstanceReady_is_bounded w c instanceId maxAttempts interval n fuel :
  effective_attempts c maxAttempts = Js.Int n ->
  (Z.to_nat n < fuel)%nat ->
  exists r c' t,
    isInstanceReady w fuel c instanceId maxAttempts interval = Some (r, c', t) /\
    (api_probes t <= Z.to_nat n)%nat /\
    (sleeps t <= Z.to_nat n - 1)%nat /\
    Forall (polling (effective_interval c interval)) t /\
    (forall other, other <> instanceId -> instances c' !! other = instances c !! other) /\
    (result_status r = "error" -> status <$> instances c' !! instanceId = Some Error) /\
    (ready r = true <-> result_status r = "running").
Proof.
  intros Hn Hfuel. unfold isInstanceReady. rewrite Hn.
  destruct (instances c !! instanceId) as [instance|] eqn:Hlook.
  2: { eexists _, _, _. split; [reflexivity|]. cbn. repeat split; try done; lia. }
  assert (forall text,
            (text = "error" -> status instance = Error) -> text <> "running" ->
            exists r c' t,
              Some ({| ready := false; result_status := text |}, c, @nil effect)
              = Some (r, c', t) /\
              (api_probes t <= Z.to_nat n)%nat /\
              (sleeps t <= Z.to_nat n - 1)%nat /\
              Forall (polling (effective_interval c interval)) t /\
              (forall other, other <> instanceId ->
                             instances c' !! other = instances c !! other) /\
              (result_status r = "error" ->
               status <$> instances c' !! instanceId = Some Error) /\
              (ready r = true <-> result_status r = "running"))
    as Hearly.
  { intros text Herr Hrun. eexists _, _, _. split; [reflexivity|].
    cbn. split; [lia|]. split; [lia|]. split; [done|].
    split; [done|]. split; [|done]. intros ->. rewrite Hlook. cbn. by rewrite Herr. }
  rewrite (CliFacts.poll_loop_finite w c instanceId n (effective_interval c interval)
             (Z.to_nat n) fuel 0 {| ps_instance := instance; ps_trace := [] |})
    by (done || f_equal; lia).
  pose proof (poll_passes_effects w c instanceId n (effective_interval c interval)
                (Z.to_nat n) 0 {| ps_instance := instance; ps_trace := [] |})
    as (extra & Ha & Hs & Hp & Ht & He & Hr).
  destruct (status instance) eqn:Hst.
  3: { by apply Hearly. }
  3: { by apply Hearly. }
  all: destruct (poll_passes _ _ _ _ _ _ _ _) as [r st]; cbn [fst snd] in *.
  all: eexists _, _, _; (split; [reflexivity|]).
  all: rewrite Ht; cbn [app ps_trace instances with_instances].
  all: split; [done|]; split; [lia|]; split; [done|].
  all: split; [intros other Hne; by rewrite lookup_insert_ne|].
  all: split; [|done]; intros Herr; rewrite lookup_insert_eq; cbn; by rewrite He.
Qed.

Lemma isInstanceReady_is_bounded_witness :
  effective_attempts sample_cli (Some 10) = Js.Int 10 /\
  (Z.to_nat 10 < 11)%nat /\
  exists r c' t,
    isInstanceReady warming_world 11 sample_cli "w1" (Some 10) (Some 1000) = Some (r, c', t) /\
    (api_probes t <= Z.to_nat 10)%nat /\
    (sleeps t <= Z.to_nat 10 - 1)%nat /\
    Forall (polling (effective_interval sample_cli (Some 1000))) t /\
    (forall other, other <> "w1" -> instances c' !! other = instances sample_cli !! other) /\
    (result_status r = "error" -> status <$> instances c' !! "w1" = Some Error) /\
    (ready r = true <-> result_status r = "running").
Proof.
  split; [reflexivity|]. split; [vm_compute; lia|].
  apply (isInstanceReady_is_bounded warming_world sample_cli "w1" (Some 10) (Some 1000)
           10 11%nat).
  - reflexivity.
  - vm_compute. lia.
Defined.

(** *** [stopInstance] *)

Lemma wait_for_exit_effects w p remaining :
  forall st,
  exists extra,
    ps_trace (snd (wait_for_exit w p remaining st)) = ps_trace st ++ extra /\
    Forall (stopping p) extra /\
    (EKillKill p ∉ extra) /\
    (process_probes extra <= remaining)%nat /\
    (fst (wait_for_exit w p remaining st) = false -> process_probes extra = remaining).
Proof.
  induction remaining as [|remaining IH]; intros st.
  - exists []. cbn. rewrite app_nil_r. repeat split; try done. by intros ?%elem_of_nil.
  - cbn [wait_for_exit]. destruct (isProcessRunning w _ p); cbn [negb].
    + destruct (IH (await w (ESleep 500) (await w (EProcessProbe p) st)))
        as (extra & Ht & Hall & Hkill & Hle & Hn).
      exists ([EProcessProbe p; ESleep 500] ++ extra).
      rewrite Ht. cbn [await ps_trace]. rewrite <- !app_assoc. split; [done|].
      split; [by repeat constructor|]. split.
      { intros [Hin | Hin]%elem_of_app; [|done].
        apply elem_of_cons in Hin as [Hin | Hin%list_elem_of_singleton]; done. }
      unfold process_probes in *. rewrite count_app. cbn. split; [lia|].
      intros Hf. specialize (Hn Hf). lia.
    + exists [EProcessProbe p]. cbn. split; [done|]. split; [by repeat constructor|].
      split; [by intros ?%list_elem_of_singleton|]. split; [lia|done].
Qed.

Lemma terminate_effects w p instance :
  exists extra,
    ps_trace (snd (terminate w p {| ps_instance := instance; ps_trace := [] |})) = extra /\
    Forall (stopping p) extra /\
    (process_probes extra <= 10)%nat /\
    (EKillKill p ∈ extra -> process_probes extra = 10%nat /\ os w <> Windows) /\
    (fst (terminate w p {| ps_instance := instance; ps_trace := [] |}) = true ->
     ETaskkill p ∈ extra \/ EKillTerm p ∈ extra).
Proof.
  assert (os w <> Windows ->
          let out := (if kill_term_ok w
                      then let '(killed, st) :=
                             wait_for_exit w p 10
                               (await w (EKillTerm p) {| ps_instance := instance; ps_trace := [] |}) in
                           if killed then (true, st)
                           else (kill_kill_ok w, await w (EKillKill p) st)
                      else (false, await w (EKillTerm p)
                                         {| ps_instance := instance; ps_trace := [] |})) in
          exists extra,
            ps_trace (snd out) = extra /\ Forall (stopping p) extra /\
            (process_probes extra <= 10)%nat /\
            (EKillKill p ∈ extra -> process_probes extra = 10%nat /\ os w <> Windows) /\
            (fst out = true -> ETaskkill p ∈ extra \/ EKillTerm p ∈ extra)) as Hunix.
  { intros Hos. cbn zeta. destruct (kill_term_ok w).
    - destruct (wait_for_exit_effects w p 10
                  (await w (EKillTerm p) {| ps_instance := instance; ps_trace := [] |}))
        as (extra & Ht & Hall & Hkill & Hle & Hn).
      destruct (wait_for_exit w p 10 _) as [killed st]. cbn [fst snd] in *.
      cbn [await ps_trace app] in Ht. unfold process_probes in *.
      destruct killed; eexists; (split; [reflexivity|]); cbn [fst snd await ps_trace];
        rewrite Ht.
      + split; [by constructor|]. cbn. split; [lia|]. split.
        * by intros [Hin | Hin]%elem_of_cons.
        * intros _. right. apply list_elem_of_here.
      + split.
        { cbn [app]. constructor; [done|]. apply Forall_app. split; [done|by repeat constructor]. }
        rewrite count_app. cbn. specialize (Hn eq_refl). split; [lia|]. split.
        * intros _. split; [lia|done].
        * intros _. right. apply list_elem_of_here.
    - eexists. split; [reflexivity|]. cbn. split; [by repeat constructor|].
      split; [unfold process_probes; cbn; lia|]. split; [|done].
      by intros ?%list_elem_of_singleton. }
  unfold terminate. destruct (os w) eqn:Hos.
  - by apply Hunix.
  - by apply Hunix.
  - eexists. split; [reflexivity|]. cbn. split; [by repeat constructor|].
    split; [unfold process_probes; cbn; lia|]. split.
    + by intros ?%list_elem_of_singleton.
    + intros _. left. apply list_elem_of_here.
  - eexists. split; [reflexivity|]. cbn. split; [done|].
    split; [unfold process_probes; cbn; lia|]. split; [|done].
    by intros ?%elem_of_nil.
Qed.

Lemma stopInstance_record w c instanceId instance p :
  instances c !! instanceId = Some instance ->
  pid_truthy (pid instance) = Some p ->
  exists stored,
    instances (snd (fst (stopInstance w c instanceId))) !! instanceId = Some stored /\
    status stored = Stopped /\ process stored = None.
Proof.
  intros Hlook Hpid. unfold stopInstance. rewrite Hlook, Hpid.
  destruct (terminate w p _) as [killed st]. cbn zeta.
  eexists. cbn. rewrite lookup_insert_eq. done.
Qed.

(** X12.  [stopInstance] on a worker that has a pid always leaves its
    record [stopped] with no process handle, whatever the kill commands
    did and whatever it returns; it touches no other record; every signal
    and probe it issues targets that pid; it probes at most ten times, and
    sends SIGKILL only after ten probes found the process alive; and it
    returns [true] only if it sent a signal. *)
Theorem stopInstance_always_marks_stopped w c instanceId instance p :
  instances c !! instanceId = Some instance ->
  pid_truthy (pid instance) = Some p ->
  let out := stopInstance w c instanceId in
  (exists stored, instances (snd (fst out)) !! instanceId = Some stored /\
                  status stored = Stopped /\ process stored = None) /\
  (forall other, other <> instanceId ->
                 instances (snd (fst out)) !! other = instances c !! other) /\
  Forall (stopping p) (snd out) /\
  (process_probes (snd out) <= 10)%nat /\
  (EKillKill p ∈ snd out -> process_probes (snd out) = 10%nat /\ os w <> Windows) /\
  (fst (fst out) = true -> ETaskkill p ∈ snd out \/ EKillTerm p ∈ snd out).
Proof.
  intros Hlook Hpid. cbn zeta.
  split; [by eapply stopInstance_record|].
  unfold stopInstance. rewrite Hlook, Hpid.
  destruct (terminate_effects w p instance) as (extra & Ht & Hall & Hle & Hkill & Hsig).
  destruct (terminate w p _) as [killed st]. cbn [fst snd] in *. cbn zeta.
  split.
  - intros other Hne. cbn. by rewrite lookup_insert_ne.
  - destruct (process (ps_instance st)); cbn [ps_trace]; rewrite Ht.
    + unfold process_probes in *. rewrite count_app. cbn.
      split; [apply Forall_app; split; [done|by repeat constructor]|].
      split; [lia|]. split.
      * intros [Hin | Hin%list_elem_of_singleton]%elem_of_app; [|done].
        destruct (Hkill Hin). split; [lia|done].
      * intros Hk. destruct (Hsig Hk); [left|right]; apply elem_of_app; by left.
    + done.
Qed.

Lemma stopInstance_always_marks_stopped_witness :
  let out := stopInstance stubborn_world sample_cli "w1" in
  fst (fst out) = false /\
  (exists stored, instances (snd (fst out)) !! "w1" = Some stored /\
                  status stored = Stopped /\ process stored = None) /\
  (forall other, other <> "w1" ->
                 instances (snd (fst out)) !! other = instances sample_cli !! other) /\
  Forall (stopping 4242) (snd out) /\
  (process_probes (snd out) <= 10)%nat /\
  (EKillKill 4242 ∈ snd out ->
   process_probes (snd out) = 10%nat /\ os stubborn_world <> Windows) /\
  (fst (fst out) = true -> ETaskkill 4242 ∈ snd out \/ EKillTerm 4242 ∈ snd out).
Proof.
  split; [reflexivity|].
  apply (stopInstance_always_marks_stopped stubborn_world sample_cli "w1" sample_instance 4242).
  - reflexivity.
  - reflexivity.
Defined.

(** X13.  Once [stopInstance] has run on a worker with a pid, the worker is
    inert for the rest of the class, in any world: the readiness poll
    answers [{false, "stopped"}] at once, without a probe, and
    [queuePrompt] throws "is not running" without sending a request. *)
Theorem stopped_worker_is_inert
  w w' fuel fetch c instanceId instance p prompt maxAttempts interval :
  instances c !! instanceId = Some instance ->
  pid_truthy (pid instance) = Some p ->
  let c' := snd (fst (stopInstance w c instanceId)) in
  isInstanceReady w' fuel c' instanceId maxAttempts interval
  = Some ({| ready := false; result_status := "stopped" |}, c', []) /\
  queuePrompt fetch c' instanceId prompt
  = (inl ("Instance " +:+ instanceId +:+ " is not running"), []).
Proof.
  intros Hlook Hpid.
  destruct (stopInstance_record w c instanceId instance p Hlook Hpid)
    as (stored & Hstored & Hst & _).
  cbn zeta. unfold isInstanceReady, queuePrompt. rewrite Hstored, Hst. done.
Qed.

Lemma stopped_worker_is_inert_witness :
  let c' := snd (fst (stopInstance silent_world sample_cli "w1")) in
  isInstanceReady warming_world 0 c' "w1" None None
  = Some ({| ready := false; result_status := "stopped" |}, c', []) /\
  queuePrompt (fun _ => Responded 200 "{}" (inr "{}")) c' "w1" "{}"
  = (inl "Instance w1 is not running", []).
Proof.
  apply (stopped_worker_is_inert silent_world warming_world 0
           (fun _ => Responded 200 "{}" (inr "{}")) sample_cli "w1" sample_instance 4242
           "{}" None None).
  - reflexivity.
  - reflexivity.
Defined.

Lemma handlers_only_await w e st :
  handlers_only w -> pid (ps_instance (await w e st)) = pid (ps_instance st).
Proof.
  intros Hw. unfold await. cbn.
  destruct (Hw (length (ps_trace st)) (ps_instance st)) as [es ->].
  apply (grows_handle_all es).
Qed.

Lemma handlers_only_wait w p remaining :
  handlers_only w ->
  forall st, pid (ps_instance (snd (wait_for_exit w p remaining st))) = pid (ps_instance st).
Proof.
  intros Hw. induction remaining as [|remaining IH]; intros st; [done|].
  cbn [wait_for_exit]. destruct (isProcessRunning w _ p); cbn [negb].
  - rewrite IH. by rewrite !handlers_only_await.
  - cbn [snd]. by rewrite handlers_only_await.
Qed.

Lemma handlers_only_terminate w p st :
  handlers_only w ->
  pid (ps_instance (snd (terminate w p st))) = pid (ps_instance st).
Proof.
  intros Hw. unfold terminate.
  assert (pid (ps_instance
                 (snd (let st := await w (EKillTerm p) st in
                       if kill_term_ok w
                       then let '(killed, st) := wait_for_exit w p 10 st in
                            if killed then (true, st)
                            else (kill_kill_ok w, await w (EKillKill p) st)
                       else (false, st))))
          = pid (ps_instance st)) as Hunix.
  { cbn zeta. destruct (kill_term_ok w).
    - pose proof (handlers_only_wait w p 10 Hw (await w (EKillTerm p) st)) as Hwait.
      destruct (wait_for_exit w p 10 _) as [[|] st']; cbn [fst snd] in *.
      + by rewrite Hwait, handlers_only_await.
      + by rewrite handlers_only_await, Hwait, handlers_only_await.
    - cbn [snd]. by rewrite handlers_only_await. }
  destruct (os w); [exact Hunix|exact Hunix| |done].
  cbn [snd]. by rewrite handlers_only_await.
Qed.

(** X14.  [stopInstance] does not clear the pid.  When the record is only
    written by the child's handlers, a second [stopInstance] on the same
    worker therefore signals the same pid again, although the record
    already says [stopped]. *)
Theorem stopInstance_twice_signals_again w w' c instanceId instance p :
  handlers_only w ->
  instances c !! instanceId = Some instance ->
  pid_truthy (pid instance) = Some p ->
  os w' <> OtherOS ->
  let c' := snd (fst (stopInstance w c instanceId)) in
  exists signal rest,
    snd (stopInstance w' c' instanceId) = signal :: rest /\
    (signal = EKillTerm p \/ signal = ETaskkill p).
Proof.
  intros Hw Hlook Hpid Hos. cbn zeta.
  assert (exists stored, instances (snd (fst (stopInstance w c instanceId))) !! instanceId
                         = Some stored /\ pid stored = pid instance) as (stored & Hstored & Hp).
  { unfold stopInstance. rewrite Hlook, Hpid.
    pose proof (handlers_only_terminate w p {| ps_instance := instance; ps_trace := [] |} Hw)
      as Hkeep.
    destruct (terminate w p _) as [killed st]. cbn [fst snd] in *.
    eexists. cbn. rewrite lookup_insert_eq. split; [done|].
    by destruct (process (ps_instance st)). }
  unfold stopInstance at 1. rewrite Hstored, Hp, Hpid. unfold terminate.
  destruct (os w'); [| | |done].
  1, 2: destruct (kill_term_ok w');
    [destruct (wait_for_exit_effects w' p 10
                 (await w' (EKillTerm p) {| ps_instance := stored; ps_trace := [] |}))
       as (extra & Ht & _);
     destruct (wait_for_exit w' p 10 _) as [[|] st]; cbn [fst snd] in *|].
  all: cbn zeta; match goal with
       | |- context [process ?i] => destruct (process i)
       end; cbn [snd ps_trace await]; rewrite ?Ht; cbn [ps_trace await app];
       rewrite <- ?app_assoc; cbn [app]; eexists _, _; (split; [reflexivity|]); auto.
Qed.

Lemma stopInstance_twice_signals_again_witness :
  exists signal rest,
    snd (stopInstance silent_world (snd (fst (stopInstance silent_world sample_cli "w1"))) "w1")
    = signal :: rest /\
    (signal = EKillTerm 4242 \/ signal = ETaskkill 4242).
Proof.
  apply (stopInstance_twice_signals_again silent_world silent_world sample_cli "w1"
           sample_instance 4242).
  - intros t i. by exists [].
  - reflexivity.
  - reflexivity.
  - discriminate.
Defined.

(** *** The log accessor *)

(** X15.  [getInstanceLogs] returns the last [limit] logged lines, in
    order: the result is always a suffix of the log, of length
    [min limit (length logs)] for a positive [limit]; a [limit] of 0
    returns the whole log. *)
Theorem getInstanceLogs_is_a_suffix c instanceId instance limit :
  instances c !! instanceId = Some instance ->
  getInstanceLogs c instanceId limit `suffix_of` logs instance /\
  (0 < limit ->
   length (getInstanceLogs c instanceId limit)
   = Nat.min (Z.to_nat limit) (length (logs instance))) /\
  (limit = 0 -> getInstanceLogs c instanceId limit = logs instance).
Proof.
  intros Hlook. unfold getInstanceLogs, Js.slice_from. rewrite Hlook.
  split; [apply suffix_drop|]. split.
  - intros Hpos. rewrite length_drop.
    destruct (Z.ltb_spec (- limit) 0); lia.
  - intros ->. cbn. by rewrite Z.min_l by lia.
Qed.

Lemma getInstanceLogs_is_a_suffix_witness :
  getInstanceLogs chatty_cli "w1" 2 `suffix_of` logs chatty_instance /\
  (0 < 2 -> length (getInstanceLogs chatty_cli "w1" 2)
            = Nat.min (Z.to_nat 2) (length (logs chatty_instance))) /\
  (2 = 0 -> getInstanceLogs chatty_cli "w1" 2 = logs chatty_instance).
Proof.
  apply (getInstanceLogs_is_a_suffix chatty_cli "w1" chatty_instance 2). reflexivity.
Defined.

(** *** [queuePrompt] *)

(** X16.  [queuePrompt] sends at most one request, and none unless the
    worker is recorded as [running]; it resolves only when that worker's
    [/prompt] endpoint answered with a 2xx status and a body that parses,
    and then with the parsed body. *)
Theorem queuePrompt_resolves_only_on_2xx fetch c instanceId prompt :
  (length (snd (queuePrompt fetch c instanceId prompt)) <= 1)%nat /\
  ((status <$> instances c !! instanceId) <> Some Running ->
   snd (queuePrompt fetch c instanceId prompt) = []) /\
  (forall value,
     fst (queuePrompt fetch c instanceId prompt) = inr value ->
     exists instance http_status text,
       instances c !! instanceId = Some instance /\
       status instance = Running /\
       snd (queuePrompt fetch c instanceId prompt)
       = [Post (apiUrl instance +:+ "/prompt") prompt] /\
       fetch (Post (apiUrl instance +:+ "/prompt") prompt)
       = Responded http_status text (inr value) /\
       200 <= http_status <= 299).
Proof.
  unfold queuePrompt. destruct (instances c !! instanceId) as [instance|].
  2: { cbn. split; [lia|]. split; done. }
  destruct (status instance) eqn:Hst; cbn [fst snd length fmap option_fmap option_map];
    (split; [lia|]); (split; [try done; by rewrite Hst|]); try done.
  intros value. unfold call.
  destruct (fetch _) as [http_status text json| |message] eqn:Hfetch; try done.
  destruct (response_ok http_status) eqn:Hok; [|done].
  intros ->. exists instance, http_status, text. repeat split; try done.
  all: unfold response_ok in Hok; lia.
Qed.

(** *** The exported wrappers *)

Example wrappers_on_samples :
  launchComfyUI sample_launcher sample_env "/opt/ComfyUI" [("port", VNumber 8190)]
  = inl (ReferenceError "process") /\
  isComfyUIReady warming_world 0 sample_env default_instance None None
  = Some ({| ready := false; result_status := "not_found" |}, []) /\
  stopComfyInstance warming_world sample_env default_instance = (false, []).
Proof. repeat split. Qed.

(** X17.  The exported wrappers.  [launchComfyUI] always throws, as
    [launchInstance] does: for [process], or because the interpreter was
    not found.  [isComfyUIReady] and [stopComfyInstance] work on a new,
    empty [ComfyUICli]: for every instance record the first answers
    [{false, "not_found"}] and the second answers [false], and neither
    probes or signals anything. *)
Theorem wrappers_find_no_instance l w fuel env path opts instance maxAttempts interval :
  (exists err,
     launchComfyUI l env path opts = inl err /\
     (err = ReferenceError "process" \/
      exists e, err = LookupFailed e /\ getPythonPath l path = inl e)) /\
  isComfyUIReady w fuel env instance maxAttempts interval
  = Some ({| ready := false; result_status := "not_found" |}, []) /\
  stopComfyInstance w env instance = (false, []).
Proof.
  split; [|done].
  unfold launchComfyUI, initialize. cbn [construct initialized comfyuiPath].
  destruct (getPythonPath l path) as [e|python] eqn:Hlookup.
  { exists (LookupFailed e). split; [done|]. right. by exists e. }
  destruct (CliFacts.launchInstance_cases l (with_python python (construct env path))
              "default" opts)
    as [(p & _ & ->) | [(e & _ & He & ->) | (p & _ & _ & ->)]].
  - exists (ReferenceError "process"). auto.
  - cbn in He. congruence.
  - exists (ReferenceError "process"). auto.
Qed.

(** *** Launching *)

(** X18.  A launch stores no record: the instance map and the install path
    are as before, and what the call returns does not depend on what
    [spawn] would do.  The interpreter is looked up at most once per
    object: once the object knows a non-empty path, a launch leaves the
    object as it is and does not depend on the launcher at all. *)
Theorem launchInstance_stores_no_record l c instanceId opts :
  let c' := snd (launchInstance l c instanceId opts) in
  instances c' = instances c /\
  comfyuiPath c' = comfyuiPath c /\
  (forall l',
     getPythonPath l' (comfyuiPath c) = getPythonPath l (comfyuiPath c) ->
     launchInstance l' c instanceId opts = launchInstance l c instanceId opts) /\
  (known_python c' <> None ->
   forall l1 l2 instanceId' opts',
     launchInstance l1 c' instanceId' opts' = launchInstance l2 c' instanceId' opts' /\
     snd (launchInstance l1 c' instanceId' opts') = c').
Proof.
  assert (forall c0, known_python c0 <> None ->
            forall l1 l2 instanceId' opts',
              launchInstance l1 c0 instanceId' opts' = launchInstance l2 c0 instanceId' opts' /\
              snd (launchInstance l1 c0 instanceId' opts') = c0)
    as Hcached.
  { intros c0 Hk l1 l2 instanceId' opts'. unfold launchInstance.
    by destruct (known_python c0) as [python|]. }
  cbv zeta. split; [|split; [|split]].
  - destruct (CliFacts.launchInstance_cases l c instanceId opts)
      as [(p & _ & ->) | [(e & _ & _ & ->) | (p & _ & _ & ->)]]; done.
  - destruct (CliFacts.launchInstance_cases l c instanceId opts)
      as [(p & _ & ->) | [(e & _ & _ & ->) | (p & _ & _ & ->)]]; done.
  - intros l' Hsame. unfold launchInstance, initialize.
    destruct (known_python c) as [python|]; [done|].
    destruct (initialized c); by rewrite Hsame.
  - apply Hcached.
Qed.

End CliExtFacts.

(** ** More on the interpreter lookup *)

Module PythonExtFacts.
Import PythonUtils HostSamples PythonExt PythonExtSamples.

Lemma new_effects_app s extra cache env :
  new_effects s (mkState cache env (trace s ++ extra)) = extra.
Proof. unfold new_effects. cbn. by rewrite drop_app_length. Qed.

Local Ltac flatten_state :=
  unfold cache_set, upsert, log; cbn [trace pythonPathCache envVars];
  rewrite <- ?app_assoc; cbn [app].

(** The three ways [detect] can end. *)
Lemma detect_cases h s comfyuiPath :
  (exists venv version,
     validatePython h venv = Some version /\ non_empty venv = true /\
     upsert_throws h = None /\
     detect h s comfyuiPath
     = (inr venv,
        mkState (<[comfyuiPath := venv]> (pythonPathCache s))
                (<["PYTHON_PATH" :=
                     {| value := venv;
                        description := Some ("Automatically detected virtual environment (" +:+
                                             version +:+ ")") |}]> (envVars s))
                (trace s ++ [EScan comfyuiPath; EValidate venv;
                             EUpsertConfig "PYTHON_PATH" venv]))) \/
  (exists err venv,
     detect h s comfyuiPath
     = (inl err,
        mkState (pythonPathCache s) (envVars s)
                (trace s ++ [EScan comfyuiPath; EValidate venv;
                             EUpsertConfig "PYTHON_PATH" venv]))) \/
  (exists probes,
     Forall (fun e => exists v, e = EValidate v) probes /\
     detect h s comfyuiPath
     = (inr (PythonUtils.findSystemPython h),
        mkState (<[comfyuiPath := PythonUtils.findSystemPython h]> (pythonPathCache s))
                (envVars s)
                (trace s ++ [EScan comfyuiPath] ++ probes ++ [EFindSystem]))).
Proof.
  unfold detect.
  destruct (findPythonInVenv h comfyuiPath) as [venv|]; cbn match.
  2: { right. right. exists []. split; [done|]. by flatten_state. }
  destruct (non_empty venv) eqn:Hne.
  2: { right. right. exists []. split; [done|]. by flatten_state. }
  destruct (validatePython h venv) as [version|] eqn:Hval.
  - destruct (upsert_throws h) as [err|] eqn:Hup.
    + right. left. exists err, venv. by flatten_state.
    + left. exists venv, version. by flatten_state.
  - right. right. exists [EValidate venv]. split; [repeat constructor; by eexists|].
    by flatten_state.
Qed.

(** How a call that misses the cache gets to [detect]. *)
Lemma getPythonPath_miss h s comfyuiPath :
  pythonPathCache s !! comfyuiPath = None ->
  select_throws h = None ->
  (exists row,
     envVars s !! "PYTHON_PATH" = Some row /\ non_empty (value row) = true /\
     validatePython h (value row) <> None /\
     getPythonPath h s comfyuiPath
     = (inr (value row),
        mkState (<[comfyuiPath := value row]> (pythonPathCache s)) (envVars s)
                (trace s ++ [ESelectConfig "PYTHON_PATH"; EValidate (value row)]))) \/
  (exists probes,
     Forall (fun e => exists v, e = EValidate v) probes /\
     (forall row, envVars s !! "PYTHON_PATH" = Some row -> non_empty (value row) = true ->
                  validatePython h (value row) = None) /\
     getPythonPath h s comfyuiPath
     = detect h (mkState (pythonPathCache s) (envVars s)
                         (trace s ++ [ESelectConfig "PYTHON_PATH"] ++ probes))
              comfyuiPath).
Proof.
  intros Hmiss Hsel. unfold getPythonPath. rewrite Hmiss, Hsel. cbn [envVars log].
  destruct (envVars s !! "PYTHON_PATH") as [row|] eqn:Hrow.
  2: { right. exists []. split; [done|]. split; [done|]. by flatten_state. }
  destruct (non_empty (value row)) eqn:Hne.
  2: { right. exists []. split; [done|]. split; [|by flatten_state].
       intros ? [= <-]. by rewrite Hne. }
  destruct (validatePython h (value row)) as [version|] eqn:Hval.
  - left. exists row. rewrite Hval. repeat split; try done. by flatten_state.
  - right. exists [EValidate (value row)]. split; [repeat constructor; by eexists|].
    split; [by intros ? [= <-]|]. by flatten_state.
Qed.

Lemma scans_app t u : scans (t ++ u) = (scans t + scans u)%nat.
Proof. unfold scans. by rewrite filter_app, length_app. Qed.

Lemma scans_probes probes :
  Forall (fun e => exists v, e = EValidate v) probes -> scans probes = 0%nat.
Proof.
  induction 1 as [|e probes [v ->] _ IH]; [done|].
  unfold scans in *. by rewrite filter_cons_False.
Qed.

Lemma probes_no_upsert probes k v :
  Forall (fun e => exists v, e = EValidate v) probes -> EUpsertConfig k v ∉ probes.
Proof.
  intros Hall Hin. eapply Forall_forall in Hall; [|exact Hin]. by destruct Hall.
Qed.

Lemma probes_no_system probes :
  Forall (fun e => exists v, e = EValidate v) probes -> EFindSystem ∉ probes.
Proof.
  intros Hall Hin. eapply Forall_forall in Hall; [|exact Hin]. by destruct Hall.
Qed.

Lemma scans_cons e t : scans (e :: t) = ((if is_scan e then 1 else 0) + scans t)%nat.
Proof.
  unfold scans. destruct (is_scan e) eqn:He.
  - by rewrite filter_cons_True.
  - rewrite filter_cons_False; [done|]. by rewrite He.
Qed.

Lemma scans_nil : scans [] = 0%nat.
Proof. done. Qed.

Lemma detect_scans h s comfyuiPath :
  scans (trace (snd (detect h s comfyuiPath))) = S (scans (trace s)).
Proof.
  destruct (detect_cases h s comfyuiPath)
    as [(venv & version & _ & _ & _ & ->) | [(err & venv & ->) | (more & Hmore & ->)]];
    cbn [snd trace];
    rewrite ?scans_app, ?scans_cons, ?scans_nil, ?(scans_probes more) by done;
    cbn [is_scan]; lia.
Qed.

(** X19.  A virtual environment found by the scan is written to the
    config store, and from there it serves every install: after a call
    that stored the detected interpreter, and with the cache cleared, a
    call for any install path returns that interpreter again without
    scanning the disk and without writing to the store. *)
Theorem detected_venv_serves_every_install h s comfyuiPath path s1 other :
  getPythonPath h s comfyuiPath = (inr path, s1) ->
  EUpsertConfig "PYTHON_PATH" path ∈ new_effects s s1 ->
  value <$> envVars s1 !! "PYTHON_PATH" = Some path /\
  fst (getPythonPath h (clearPythonPathCache s1) other) = inr path /\
  scans (trace (snd (getPythonPath h (clearPythonPathCache s1) other))) = scans (trace s1) /\
  envVars (snd (getPythonPath h (clearPythonPathCache s1) other)) = envVars s1.
Proof.
  intros Hcall Hup.
  destruct (pythonPathCache s !! comfyuiPath) as [cached|] eqn:Hmiss.
  { unfold getPythonPath in Hcall. rewrite Hmiss in Hcall. injection Hcall as <- <-.
    unfold new_effects in Hup. rewrite drop_all in Hup. by apply elem_of_nil in Hup. }
  destruct (select_throws h) as [err|] eqn:Hsel.
  { unfold getPythonPath in Hcall. by rewrite Hmiss, Hsel in Hcall. }
  assert (exists version env,
            validatePython h path = Some version /\ non_empty path = true /\
            envVars s1 = <["PYTHON_PATH" :=
                             {| value := path;
                                description := Some ("Automatically detected virtual environment (" +:+
                                                     version +:+ ")") |}]> env)
    as (version & env & Hval & Hne & Henv).
  { destruct (getPythonPath_miss h s comfyuiPath Hmiss Hsel)
      as [(row & _ & _ & _ & Heq) | (probes & Hprobes & _ & Heq)]; rewrite Heq in Hcall.
    - injection Hcall as <- <-. rewrite new_effects_app in Hup.
      apply elem_of_cons in Hup as [Hup | Hup%list_elem_of_singleton]; done.
    - destruct (detect_cases h (mkState (pythonPathCache s) (envVars s)
                                        (trace s ++ [ESelectConfig "PYTHON_PATH"] ++ probes))
                             comfyuiPath)
        as [(venv & version & Hval & Hne & _ & Hd) | [(err & venv & Hd) | (more & Hmore & Hd)]];
        rewrite Hd in Hcall; [|done|].
      + injection Hcall as <- <-. by eexists _, _.
      + injection Hcall as <- <-. exfalso. cbn [trace] in Hup.
        rewrite <- !app_assoc, new_effects_app in Hup. cbn in Hup.
        apply elem_of_cons in Hup as [Hup | Hup]; [done|].
        apply elem_of_app in Hup as [Hup | Hup];
          [exact (probes_no_upsert _ _ _ Hprobes Hup)|].
        apply elem_of_cons in Hup as [Hup | Hup]; [done|].
        apply elem_of_app in Hup as [Hup | Hup%list_elem_of_singleton];
          [exact (probes_no_upsert _ _ _ Hmore Hup)|done]. }
  split; [by rewrite Henv, lookup_insert_eq|].
  unfold getPythonPath, clearPythonPathCache. cbn [pythonPathCache envVars log trace].
  rewrite lookup_empty, Hsel, Henv, lookup_insert_eq. cbn [value]. rewrite Hne, Hval.
  cbn [fst snd cache_set trace envVars]. rewrite <- Henv. split; [done|]. split; [|done].
  cbn [log trace]. rewrite !scans_app, !scans_cons, scans_nil. cbn [is_scan]. lia.
Qed.

Lemma detected_venv_serves_every_install_witness :
  let s1 := snd (getPythonPath venv_host fresh_state "/opt/ComfyUI") in
  value <$> envVars s1 !! "PYTHON_PATH" = Some "/opt/ComfyUI/venv/bin/python" /\
  fst (getPythonPath venv_host (clearPythonPathCache s1) "/srv/other")
  = inr "/opt/ComfyUI/venv/bin/python" /\
  scans (trace (snd (getPythonPath venv_host (clearPythonPathCache s1) "/srv/other")))
  = scans (trace s1) /\
  envVars (snd (getPythonPath venv_host (clearPythonPathCache s1) "/srv/other")) = envVars s1.
Proof.
  apply (detected_venv_serves_every_install venv_host fresh_state "/opt/ComfyUI"
           "/opt/ComfyUI/venv/bin/python").
  - reflexivity.
  - vm_compute. do 3 apply list_elem_of_further. apply list_elem_of_here.
Defined.

(** X20.  The system interpreter used as a fallback is cached but not
    written to the config store: the store is as it was, and once the
    cache is cleared the next call for the same install scans the disk
    again. *)
Theorem system_fallback_is_not_persisted h s comfyuiPath path s1 :
  getPythonPath h s comfyuiPath = (inr path, s1) ->
  EFindSystem ∈ new_effects s s1 ->
  path = PythonUtils.findSystemPython h /\
  envVars s1 = envVars s /\
  scans (trace (snd (getPythonPath h (clearPythonPathCache s1) comfyuiPath)))
  = S (scans (trace s1)).
Proof.
  intros Hcall Hsys.
  destruct (pythonPathCache s !! comfyuiPath) as [cached|] eqn:Hmiss.
  { unfold getPythonPath in Hcall. rewrite Hmiss in Hcall. injection Hcall as <- <-.
    unfold new_effects in Hsys. rewrite drop_all in Hsys. by apply elem_of_nil in Hsys. }
  destruct (select_throws h) as [err|] eqn:Hsel.
  { unfold getPythonPath in Hcall. by rewrite Hmiss, Hsel in Hcall. }
  destruct (getPythonPath_miss h s comfyuiPath Hmiss Hsel)
    as [(row & _ & _ & _ & Heq) | (probes & Hprobes & Hbad & Heq)]; rewrite Heq in Hcall.
  { injection Hcall as <- <-. rewrite new_effects_app in Hsys.
    apply elem_of_cons in Hsys as [Hsys | Hsys%list_elem_of_singleton]; done. }
  destruct (detect_cases h (mkState (pythonPathCache s) (envVars s)
                                    (trace s ++ [ESelectConfig "PYTHON_PATH"] ++ probes))
                         comfyuiPath)
    as [(venv & version & Hval & Hne & _ & Hd) | [(err & venv & Hd) | (more & Hmore & Hd)]];
    rewrite Hd in Hcall; [|done|].
  { injection Hcall as <- <-. exfalso. cbn [trace] in Hsys.
    rewrite <- !app_assoc, new_effects_app in Hsys. cbn in Hsys.
    apply elem_of_cons in Hsys as [Hsys | Hsys]; [done|].
    apply elem_of_app in Hsys as [Hsys | Hsys]; [exact (probes_no_system _ Hprobes Hsys)|].
    repeat (apply elem_of_cons in Hsys as [Hsys | Hsys]; [done|]).
    by apply elem_of_nil in Hsys. }
  injection Hcall as <- <-. split; [done|]. split; [done|].
  set (s1 := mkState _ _ _).
  destruct (getPythonPath_miss h (clearPythonPathCache s1) comfyuiPath (lookup_empty _) Hsel)
    as [(row & Hrow & Hne & Hval & _) | (probes' & Hprobes' & _ & ->)].
  { by specialize (Hbad row Hrow Hne). }
  rewrite detect_scans. cbn [trace clearPythonPathCache].
  by rewrite !scans_app, (scans_probes probes'), !Nat.add_0_r.
Qed.

Lemma system_fallback_is_not_persisted_witness :
  let s1 := snd (getPythonPath bare_host fresh_state "/opt/ComfyUI") in
  "/usr/bin/python3" = PythonUtils.findSystemPython bare_host /\
  envVars s1 = envVars fresh_state /\
  scans (trace (snd (getPythonPath bare_host (clearPythonPathCache s1) "/opt/ComfyUI")))
  = S (scans (trace s1)).
Proof.
  apply (system_fallback_is_not_persisted bare_host fresh_state "/opt/ComfyUI"
           "/usr/bin/python3").
  - reflexivity.
  - vm_compute. do 2 apply list_elem_of_further. apply list_elem_of_here.
Defined.

(** X21.  After [POST /] of the [config/python] route has saved a path,
    [GET /] returns that path; an install that is not in the cache is then
    resolved to it without a disk scan; an install that is in the cache
    keeps its old interpreter, since the route does not clear the cache. *)
Theorem set_python_misses_cached_installs h explain s pythonPath descr saved version s1 :
  set_python h explain s pythonPath descr = (Saved saved version, s1) ->
  saved = pythonPath /\
  (exists d, get_python s1 = Some (pythonPath, Some d)) /\
  (forall comfyuiPath cached,
     pythonPathCache s !! comfyuiPath = Some cached ->
     getPythonPath h s1 comfyuiPath = (inr cached, s1)) /\
  (forall comfyuiPath,
     pythonPathCache s !! comfyuiPath = None -> select_throws h = None ->
     pythonPath <> "" ->
     fst (getPythonPath h s1 comfyuiPath) = inr pythonPath /\
     scans (trace (snd (getPythonPath h s1 comfyuiPath))) = scans (trace s1)).
Proof.
  unfold set_python.
  destruct (validatePython h pythonPath) as [v|] eqn:Hval; [|done].
  destruct (upsert_throws h); [done|].
  intros [= <- <- <-]. split; [done|]. split; [|split].
  - unfold get_python. cbn. rewrite lookup_insert_eq. by eexists.
  - intros comfyuiPath cached Hc. unfold getPythonPath. cbn. by rewrite Hc.
  - intros comfyuiPath Hmiss Hsel Hne. unfold getPythonPath.
    cbn [upsert log pythonPathCache envVars trace]. rewrite Hmiss, Hsel, lookup_insert_eq.
    cbn [value]. unfold non_empty. rewrite (proj2 (String.eqb_neq _ _) Hne). cbn [negb].
    rewrite Hval. cbn [fst snd cache_set trace]. split; [done|].
    cbn [log upsert trace]. rewrite !scans_app, !scans_cons, scans_nil. cbn [is_scan]. lia.
Qed.

Lemma set_python_misses_cached_installs_witness :
  let s1 := snd (set_python venv_host (fun _ => "ENOENT") cached_state
                            "/opt/venv/bin/python" None) in
  "/opt/venv/bin/python" = "/opt/venv/bin/python" /\
  (exists d, get_python s1 = Some ("/opt/venv/bin/python", Some d)) /\
  (forall comfyuiPath cached,
     pythonPathCache cached_state !! comfyuiPath = Some cached ->
     getPythonPath venv_host s1 comfyuiPath = (inr cached, s1)) /\
  (forall comfyuiPath,
     pythonPathCache cached_state !! comfyuiPath = None -> select_throws venv_host = None ->
     "/opt/venv/bin/python" <> "" ->
     fst (getPythonPath venv_host s1 comfyuiPath) = inr "/opt/venv/bin/python" /\
     scans (trace (snd (getPythonPath venv_host s1 comfyuiPath))) = scans (trace s1)).
Proof.
  apply (set_python_misses_cached_installs venv_host (fun _ => "ENOENT") cached_state
           "/opt/venv/bin/python" None "/opt/venv/bin/python" "Python 3.11.4").
  reflexivity.
Defined.

(** *** [findSystemPython] *)

Lemma split_nonempty sep s : Js.split sep s <> [].
Proof.
  destruct s as [|c s]; [done|]. cbn [Js.split].
  destruct (Ascii.eqb c sep); [done|]. by destruct (Js.split sep s).
Qed.

(** X22.  [findSystemPython] never returns an empty path or more than one
    line: it answers with the first line of the trimmed output of the
    lookup command, and with a bare command name when that line is empty
    or the command fails. *)
Theorem findSystemPython_is_a_single_line isWindows which :
  findSystemPython isWindows which <> "" /\
  Js.includes (findSystemPython isWindows which) (String (ascii_of_nat 10) "") = false /\
  (forall result, which = inr result ->
     findSystemPython isWindows which ∈ Js.split (ascii_of_nat 10) (Js.trim result) \/
     findSystemPython isWindows which = (if isWindows then "python" else "python3")).
Proof.
  unfold findSystemPython. destruct which as [err|result].
  { split; [done|]. split; [done|]. done. }
  destruct (Js.split (ascii_of_nat 10) (Js.trim result)) as [|first others] eqn:Hs.
  { by destruct (split_nonempty _ _ Hs). }
  cbn [hd]. destruct (String.eqb first "") eqn:Hfirst.
  - split; [by destruct isWindows|]. split; [by destruct isWindows|]. intros ? [= <-]. by right.
  - apply String.eqb_neq in Hfirst. split; [done|]. split.
    + apply (CliExtFacts.split_no_sep (ascii_of_nat 10) (Js.trim result)).
      rewrite Hs. apply list_elem_of_here.
    + intros ? [= <-]. left. rewrite Hs. apply list_elem_of_here.
Qed.

End PythonExtFacts.

(** ** More on the port search *)

Module PortExtFacts.
Import PortUtils HostSamples.

Lemma findAvailablePort_budget listen fuel : forall base p,
  findAvailablePort listen fuel base = Found p -> (Z.to_nat (p - base) < fuel)%nat.
Proof.
  induction fuel as [|fuel IH]; intros base p; [done|].
  cbn [findAvailablePort]. destruct (isPortAvailable listen base) as [[|]|]; [| |done].
  - intros [= <-]. lia.
  - intros Hfound. specialize (IH _ _ Hfound).
    destruct (PortFacts.findAvailablePort_sound _ _ _ _ Hfound) as [Hle _]. lia.
Qed.

(** X23.  The port found does not depend on where in the occupied range
    the search starts, nor on how long it is allowed to run: if the search
    from [base] finds [p], so does the search from every port between
    [base] and [p], and a search from [p] itself finds [p] at its first
    probe. *)
Theorem findAvailablePort_is_stable listen fuel base p :
  findAvailablePort listen fuel base = Found p ->
  (forall base' fuel', base <= base' <= p -> (fuel <= fuel')%nat ->
                       findAvailablePort listen fuel' base' = Found p) /\
  findAvailablePort listen 1 p = Found p.
Proof.
  intros Hfound.
  destruct (PortFacts.findAvailablePort_sound _ _ _ _ Hfound) as (Hle & Hp & Hbelow).
  pose proof (findAvailablePort_budget _ _ _ _ Hfound) as Hfuel.
  split.
  - intros base' fuel' Hrange Hmore.
    apply PortFacts.findAvailablePort_complete; [lia|done| |lia].
    intros q Hq. apply Hbelow. lia.
  - apply PortFacts.findAvailablePort_complete; [lia|done| |lia]. intros q Hq. lia.
Qed.

Lemma findAvailablePort_is_stable_witness :
  (forall base' fuel', 8188 <= base' <= 8190 -> (3 <= fuel')%nat ->
                       findAvailablePort two_workers_up fuel' base' = Found 8190) /\
  findAvailablePort two_workers_up 1 8190 = Found 8190.
Proof.
  apply (findAvailablePort_is_stable two_workers_up 3 8188 8190). reflexivity.
Defined.

End PortExtFacts.

(** ** The worker routes *)

Module InstancesFacts.
Import Schema Instances InstancesSamples.

(** *** Decimal numerals *)

Lemma is_digit_pretty d : is_digit (pretty_N_char d) = true.
Proof. unfold pretty_N_char. by repeat case_match. Qed.

Lemma digit_value_pretty d :
  (d < 10)%N -> Js.digit_value (pretty_N_char d) = Some (Z.of_N d).
Proof.
  intros Hd.
  assert (d = 0 \/ d = 1 \/ d = 2 \/ d = 3 \/ d = 4 \/ d = 5 \/ d = 6 \/ d = 7 \/
          d = 8 \/ d = 9)%N as Hcases by lia.
  repeat (destruct Hcases as [-> | Hcases]; [reflexivity|]). by subst.
Qed.

Lemma all_digits_go x : forall s, all_digits s = true -> all_digits (pretty_N_go x s) = true.
Proof.
  induction (N.lt_wf_0 x) as [x _ IH]. intros s Hs.
  destruct (N.eq_dec x 0%N) as [-> | Hx]; [by rewrite pretty_N_go_0|].
  rewrite pretty_N_go_step by lia. apply IH.
  - apply N.div_lt; lia.
  - cbn. by rewrite is_digit_pretty.
Qed.

Lemma read_digits_go x :
  (0 < x)%N ->
  forall s, Js.read_digits 10 Js.digit_value (pretty_N_go x s) None
            = Js.read_digits 10 Js.digit_value s (Some (Z.of_N x)).
Proof.
  induction (N.lt_wf_0 x) as [x _ IH]. intros Hx s.
  rewrite pretty_N_go_step by done.
  assert (x `mod` 10 < 10)%N as Hmod by (by apply N.mod_lt).
  destruct (N.eq_dec (x `div` 10)%N 0%N) as [Hdiv | Hdiv].
  - rewrite Hdiv, pretty_N_go_0. cbn [Js.read_digits].
    rewrite digit_value_pretty by done. f_equal. f_equal. cbv [default from_option Datatypes.id].
    pose proof (N.div_mod x 10 ltac:(done)). lia.
  - assert (x `div` 10 < x)%N as Hlt by (apply N.div_lt; lia).
    assert (0 < x `div` 10)%N as Hpos by (by apply N.neq_0_lt_0).
    rewrite (IH _ Hlt Hpos). cbn [Js.read_digits].
    rewrite digit_value_pretty by done. f_equal. f_equal. cbv [default from_option Datatypes.id].
    pose proof (N.div_mod x 10 ltac:(done)). lia.
Qed.

Lemma all_digits_pretty n : 0 <= n -> all_digits (pretty n) = true.
Proof.
  intros Hn. destruct n as [|x|x]; [done| |lia].
  unfold pretty, pretty_Z, pretty, pretty_positive, pretty, pretty_N.
  rewrite decide_False by done. by apply all_digits_go.
Qed.


Lemma is_digit_not_space c : is_digit c = true -> Js.is_space c = false.
Proof.
  unfold is_digit, Js.is_space. generalize (nat_of_ascii c) as n. intros n Hn.
  apply andb_true_iff in Hn as [H1%Nat.leb_le H2%Nat.leb_le].
  apply orb_false_iff. split.
  - apply andb_false_iff. right. apply Nat.leb_gt. lia.
  - apply Nat.eqb_neq. lia.
Qed.

Lemma trim_start_digits t : all_digits t = true -> Js.trim_start t = t.
Proof.
  destruct t as [|c t]; [done|]. cbn. intros [Hc _]%andb_true_iff.
  by rewrite is_digit_not_space.
Qed.

Lemma trim_end_digits t : all_digits t = true -> Js.trim_end t = t.
Proof.
  induction t as [|c t IH]; [done|]. cbn. intros [Hc Ht]%andb_true_iff.
  rewrite (IH Ht), is_digit_not_space by done. by destruct t.
Qed.

Lemma trim_digits t : all_digits t = true -> Js.trim t = t.
Proof.
  intros Ht. unfold Js.trim. rewrite trim_start_digits by done. by apply trim_end_digits.
Qed.

Local Ltac each_digit c H :=
  destruct c as [[] [] [] [] [] [] [] []]; try discriminate H.

Lemma read_unsigned_digits t :
  all_digits t = true -> Js.read_unsigned t = Js.read_digits 10 Js.digit_value t None.
Proof.
  destruct t as [|c1 t]; [done|]. intros Ht.
  assert (is_digit c1 = true) as H1 by (by apply andb_true_iff in Ht as [? _]).
  assert (all_digits t = true) as H2 by (by apply andb_true_iff in Ht as [_ ?]).
  clear Ht. each_digit c1 H1; try reflexivity.
  destruct t as [|c2 t]; [done|].
  assert (is_digit c2 = true) as H3 by (by apply andb_true_iff in H2 as [? _]).
  clear H2. each_digit c2 H3; reflexivity.
Qed.

Lemma parseInt_digits t :
  all_digits t = true -> Js.parseInt t = Js.read_digits 10 Js.digit_value t None.
Proof.
  intros Ht. unfold Js.parseInt. rewrite trim_start_digits by done.
  rewrite <- read_unsigned_digits by done.
  destruct t as [|c1 t]; [done|].
  assert (is_digit c1 = true) as H1 by (by apply andb_true_iff in Ht as [? _]).
  clear Ht. each_digit c1 H1; reflexivity.
Qed.

Lemma parseInt_pretty n : 0 <= n -> Js.parseInt (Js.trim (pretty n)) = Some n.
Proof.
  intros Hn. rewrite trim_digits, parseInt_digits by (by apply all_digits_pretty).
  destruct n as [|x|x]; [done| |lia].
  unfold pretty, pretty_Z, pretty, pretty_positive, pretty, pretty_N.
  rewrite decide_False by done. by rewrite read_digits_go.
Qed.

(** *** [join] and [split] *)

Lemma is_digit_not_comma c : is_digit c = true -> Ascii.eqb c "," = false.
Proof. intros Hc. destruct (Ascii.eqb_spec c ","); [by subst|done]. Qed.

Lemma split_digits t : all_digits t = true -> Js.split "," t = [t].
Proof.
  induction t as [|c t IH]; [done|]. cbn [all_digits Js.split].
  intros [Hc Ht]%andb_true_iff. by rewrite is_digit_not_comma, IH.
Qed.

Lemma split_digits_comma t rest :
  all_digits t = true -> Js.split "," (t +:+ "," +:+ rest) = t :: Js.split "," rest.
Proof.
  induction t as [|c t IH]; [done|]. cbn [all_digits].
  intros [Hc Ht]%andb_true_iff.
  change (String c t +:+ "," +:+ rest) with (String c (t +:+ "," +:+ rest)).
  cbn [Js.split]. by rewrite is_digit_not_comma, IH.
Qed.

Lemma split_join items :
  items <> [] -> Forall (fun item => all_digits item = true) items ->
  Js.split "," (JsArray.join "," items) = items.
Proof.
  induction items as [|item items IH]; [done|]. intros _ Hall.
  apply Forall_cons in Hall as [Hitem Hall].
  destruct items as [|next items]; [by apply split_digits|].
  change (JsArray.join "," (item :: next :: items))
    with (item +:+ "," +:+ JsArray.join "," (next :: items)).
  rewrite split_digits_comma by done. f_equal. by apply IH.
Qed.

(** X24.  The selector [POST /] stores for an array of device indices is
    read back by the metric sampler as exactly those indices, in order:
    [join] and [split]-[trim]-[parseInt] are inverse on non-empty arrays
    of non-negative integers.  An empty array is stored as the empty
    string, which the sampler reads as a single non-numeric token. *)
Theorem gpu_selector_round_trip s newId name port optionsString indices :
  indices <> [] -> Forall (fun n => 0 <= n) indices ->
  Monitoring.parse_selector
    (gpuIndices (fst (create s newId name port (GpuArray indices) optionsString)))
  = Some <$> indices /\
  Monitoring.parse_selector
    (gpuIndices (fst (create s newId name port (GpuArray []) optionsString)))
  = [None].
Proof.
  intros Hne Hall. split; [|reflexivity].
  cbn [create fst gpuIndices body_gpuIndices]. unfold Monitoring.parse_selector.
  rewrite split_join.
  - clear Hne. induction Hall as [|n indices Hn _ IH]; [done|].
    cbn [map fmap list_fmap]. rewrite parseInt_pretty by done. f_equal. exact IH.
  - by destruct indices.
  - clear Hne. induction Hall as [|n indices Hn _ IH]; [done|].
    cbn [map]. constructor; [by apply all_digits_pretty|done].
Qed.

Lemma gpu_selector_round_trip_witness :
  Monitoring.parse_selector
    (gpuIndices (fst (create empty_table "w9" "gpu01" 8190 (GpuArray [0; 1; 12]) "{}")))
  = Some <$> [0; 1; 12] /\
  Monitoring.parse_selector
    (gpuIndices (fst (create empty_table "w9" "gpu01" 8190 (GpuArray []) "{}")))
  = [None].
Proof.
  apply (gpu_selector_round_trip empty_table "w9" "gpu01" 8190 "{}" [0; 1; 12]).
  - discriminate.
  - repeat constructor; lia.
Defined.

(** *** Stopping and checking a worker *)

Lemma select_update i (f : worker -> worker) s :
  (forall w, worker_id (f w) = worker_id w) ->
  select (update i f s) i = map f (select s i).
Proof.
  intros Hf. unfold select, update. cbn [comfyInstances].
  induction (comfyInstances s) as [|w ws IH]; [done|].
  cbn [map List.filter]. destruct (has_id i w) eqn:Hw.
  - unfold has_id at 1. rewrite Hf. fold (has_id i w). rewrite Hw. cbn [map]. by f_equal.
  - by rewrite Hw.
Qed.

Lemma select_log e s i : select (log e s) i = select s i.
Proof. done. Qed.

Lemma update_rows i (f : worker -> worker) s w :
  w ∈ comfyInstances (update i f s) -> worker_id w = i ->
  (forall w, worker_id (f w) = worker_id w) ->
  exists w0, w0 ∈ comfyInstances s /\ w = f w0.
Proof.
  unfold update. cbn [comfyInstances]. intros Hin Hid Hf.
  apply list_elem_of_In, List.in_map_iff in Hin as (w0 & Hw & Hin).
  exists w0. split; [by apply list_elem_of_In|].
  destruct (has_id i w0) eqn:H0; [done|]. subst w.
  unfold has_id in H0. apply String.eqb_neq in H0. done.
Qed.

(** X25.  [POST /:id/stop] acts once: when it answers with success, every
    row with the id is [stopped] and has no pid, whether or not the kill
    command worked; at most one kill command was issued; a second stop is
    answered "not running" and a health check reports "not running", and
    neither touches the process or the table. *)
Theorem stop_route_acts_once h h' s i :
  fst (stop h s i) = Stopped i ->
  let s1 := snd (stop h s i) in
  (forall w, w ∈ comfyInstances s1 -> worker_id w = i ->
             worker_state w = WStopped /\ pid w = None) /\
  (length (trace s1) <= S (length (trace s)))%nat /\
  stop h' s1 i = (StopNotRunning, s1) /\
  health h' s1 i = (NotRunning i WStopped, s1).
Proof.
  unfold stop. destruct (select s i) as [|instance rest] eqn:Hsel; [done|].
  destruct (Cli.pid_truthy (pid instance)) as [p|] eqn:Hpid; [|done].
  intros _. cbn [snd].
  set (s0 := match os h with
             | Cli.Linux | Cli.MacOS => log (EKill p) s
             | Cli.Windows => log (ETaskkill p) s
             | Cli.OtherOS => s
             end).
  assert (select s0 i = instance :: rest) as Hsel0.
  { unfold s0. by destruct (os h). }
  assert (select (update i set_stopped s0) i = set_stopped instance :: map set_stopped rest)
    as Hsel1 by (by rewrite select_update, Hsel0).
  split; [|split; [|split]].
  - intros w Hin Hid.
    destruct (update_rows i set_stopped s0 w Hin Hid ltac:(done)) as (w0 & _ & ->). done.
  - unfold s0. destruct (os h); cbn; rewrite ?length_app; cbn; lia.
  - by rewrite Hsel1.
  - unfold health. by rewrite Hsel1.
Qed.

Lemma stop_route_acts_once_witness :
  let s1 := snd (stop dead_host one_worker "W") in
  (forall w, w ∈ comfyInstances s1 -> worker_id w = "W" ->
             worker_state w = WStopped /\ pid w = None) /\
  (length (trace s1) <= S (length (trace one_worker)))%nat /\
  stop dead_host s1 "W" = (StopNotRunning, s1) /\
  health dead_host s1 "W" = (NotRunning "W" WStopped, s1).
Proof.
  apply (stop_route_acts_once dead_host dead_host one_worker "W"). reflexivity.
Defined.

(** X26.  A verdict "unhealthy" of [GET /:id/health] is final for the
    route: it is given only when the process probe or the API probe
    failed, it sets every row with the id to [error], and every later
    health check then reports "not running" without probing anything; a
    verdict "healthy" leaves the table as it was.  A check makes at most
    two probes. *)
Theorem health_verdict_is_final h h' s i :
  (length (trace (snd (health h s i))) <= 2 + length (trace s))%nat /\
  (fst (health h s i) = Healthy i ->
   comfyInstances (snd (health h s i)) = comfyInstances s) /\
  (forall processRunning apiResponding,
     fst (health h s i) = Unhealthy i processRunning apiResponding ->
     let s1 := snd (health h s i) in
     (processRunning = false \/ apiResponding = false) /\
     (forall w, w ∈ comfyInstances s1 -> worker_id w = i -> worker_state w = WError) /\
     health h' s1 i = (NotRunning i WError, s1)).
Proof.
  unfold health. destruct (select s i) as [|instance rest] eqn:Hsel.
  { cbn. split; [lia|]. done. }
  destruct (Cli.pid_truthy (pid instance)) as [p|] eqn:Hpid.
  2: { cbn. split; [lia|]. done. }
  destruct (worker_state instance) eqn:Hst.
  2, 3: cbn; (split; [lia|]); done.
  set (probe := match os h with
                | Cli.Linux | Cli.MacOS => (ps_exit h (length (trace s)) p =? 0, log (EPs p) s)
                | Cli.Windows =>
                    (Js.includes (tasklist_text h (length (trace s)) p) (pretty p),
                     log (ETasklist p) s)
                | Cli.OtherOS => (false, s)
                end).
  assert (select (snd probe) i = instance :: rest /\
          (length (trace (snd probe)) <= 1 + length (trace s))%nat /\
          comfyInstances (snd probe) = comfyInstances s) as (Hsel0 & Hlen & Hrows).
  { unfold probe. destruct (os h); cbn; rewrite ?length_app; cbn; repeat split; try done; lia. }
  destruct probe as [isRunning s0]. cbn [fst snd] in *.
  destruct (negb isRunning || negb _) eqn:Hbad; cbn [fst snd].
  - split; [cbn; rewrite length_app; cbn; lia|]. split; [done|].
    intros processRunning apiResponding [= <- <-]. split; [|split].
    + apply orb_true_iff in Hbad as [Hb | Hb]; apply negb_true_iff in Hb; auto.
    + intros w Hin Hid.
      by destruct (update_rows i set_error _ w Hin Hid ltac:(done)) as (w0 & _ & ->).
    + rewrite select_update by done. rewrite select_log, Hsel0. cbn [map].
      by destruct (Cli.pid_truthy (pid (set_error instance))).
  - split; [cbn; rewrite length_app; cbn; lia|]. split; [done|]. done.
Qed.

Lemma health_verdict_is_final_witness :
  fst (health dead_host one_worker "W") = Unhealthy "W" false false /\
  (false = false \/ false = false) /\
  (forall w, w ∈ comfyInstances (snd (health dead_host one_worker "W")) ->
             worker_id w = "W" -> worker_state w = WError) /\
  health dead_host (snd (health dead_host one_worker "W")) "W"
  = (NotRunning "W" WError, snd (health dead_host one_worker "W")).
Proof.
  split; [reflexivity|].
  apply (proj2 (proj2 (health_verdict_is_final dead_host dead_host one_worker "W"))).
  reflexivity.
Defined.

End InstancesFacts.

(** ** More on the metric sampler *)

Module MonitoringExtFacts.
Import Schema Monitoring MonitoringSamples.

Lemma record_all_frame row devs ws : forall s,
  comfyInstances (fold_left (record_instance row devs) ws s) = comfyInstances s /\
  envVars (fold_left (record_instance row devs) ws s) = envVars s.
Proof.
  induction ws as [|w ws IH]; intros s; [done|]. cbn [fold_left].
  destruct (IH (record_instance row devs s w)) as [-> ->].
  by destruct (MonitoringFacts.record_instance_rows row devs s w) as (-> & -> & _).
Qed.

Lemma find_device_elem devs n d :
  find_device devs (Some n) = Some d -> d ∈ devs /\ index d = n.
Proof.
  cbn. intros Hfind. apply List.find_some in Hfind as [Hin Heq].
  split; [by apply list_elem_of_In|]. by apply Z.eqb_eq.
Qed.

Lemma rows_for_provenance row devs w m :
  m ∈ rows_for row devs w ->
  exists d, d ∈ devs /\ m = row w (index d) d /\
            Some (index d) ∈ parse_selector (gpuIndices w).
Proof.
  unfold rows_for. intros Hin. apply list_elem_of_In, List.in_flat_map in Hin
    as (tok & Htok & Hin).
  destruct tok as [n|]; [|done].
  destruct (find_device devs (Some n)) as [d|] eqn:Hfind; [|done].
  destruct Hin as [<- | []]. destruct (find_device_elem _ _ _ Hfind) as [Hd <-].
  exists d. split; [done|]. split; [done|]. by apply list_elem_of_In.
Qed.

(** X27.  A sampler tick only appends to the metric table and never
    touches the worker table or the config store; every row it appends
    belongs to a worker whose row says [running] and to a device of the
    inventory whose index is one of the integers of that worker's
    selector.  This holds for both versions of [recordMetrics]. *)
Theorem recordMetrics_only_appends p s :
  (comfyInstances (recordMetrics p s) = comfyInstances s /\
   envVars (recordMetrics p s) = envVars s /\
   resourceMetrics s `prefix_of` resourceMetrics (recordMetrics p s) /\
   forall m, m ∈ appended s (recordMetrics p s) ->
     exists w d comfyuiPath,
       envVars s !! "COMFYUI_PATH" = Some comfyuiPath /\
       w ∈ comfyInstances s /\ worker_state w = WRunning /\
       d ∈ devices (getGPUInfo p comfyuiPath) /\
       Some (index d) ∈ parse_selector (gpuIndices w) /\
       m = sample_row (getSystemMetrics p) w (index d) d) /\
  (comfyInstances (recordMetrics_smi p s) = comfyInstances s /\
   envVars (recordMetrics_smi p s) = envVars s /\
   resourceMetrics s `prefix_of` resourceMetrics (recordMetrics_smi p s) /\
   forall m, m ∈ appended s (recordMetrics_smi p s) ->
     exists w d,
       w ∈ comfyInstances s /\ worker_state w = WRunning /\
       d ∈ getGPUMetrics p /\
       Some (index d) ∈ parse_selector (gpuIndices w) /\
       m = sample_row_smi (getSystemMetrics p) w (index d) d).
Proof.
  assert (forall w, w ∈ List.filter running (comfyInstances s) ->
                    w ∈ comfyInstances s /\ worker_state w = WRunning) as Hrun.
  { intros w Hin. apply list_elem_of_In, List.filter_In in Hin as [Hin Hr].
    split; [by apply list_elem_of_In|]. by apply bool_decide_eq_true in Hr. }
  split.
  - unfold recordMetrics, appended.
    destruct (List.filter running (comfyInstances s)) as [|w0 ws] eqn:Hws.
    { rewrite drop_all. repeat split; try done. by intros m ?%elem_of_nil. }
    destruct (envVars s !! "COMFYUI_PATH") as [comfyuiPath|] eqn:Hpath.
    2: { rewrite drop_all. repeat split; try done. by intros m ?%elem_of_nil. }
    destruct (record_all_frame (sample_row (getSystemMetrics p))
                (devices (getGPUInfo p comfyuiPath)) (w0 :: ws) s) as [-> ->].
    rewrite MonitoringFacts.record_all_rows, drop_app_length.
    split; [done|]. split; [done|]. split; [by apply prefix_app_r|].
    intros m Hin. apply list_elem_of_In, List.in_flat_map in Hin as (w & Hw & Hin).
    apply list_elem_of_In in Hw, Hin.
    destruct (rows_for_provenance _ _ _ _ Hin) as (d & Hd & -> & Htok).
    destruct (Hrun w Hw) as [Hin' Hst]. by exists w, d, comfyuiPath.
  - unfold recordMetrics_smi, appended.
    destruct (List.filter running (comfyInstances s)) as [|w0 ws] eqn:Hws.
    { rewrite drop_all. repeat split; try done. by intros m ?%elem_of_nil. }
    destruct (record_all_frame (sample_row_smi (getSystemMetrics p))
                (getGPUMetrics p) (w0 :: ws) s) as [-> ->].
    rewrite MonitoringFacts.record_all_rows, drop_app_length.
    split; [done|]. split; [done|]. split; [by apply prefix_app_r|].
    intros m Hin. apply list_elem_of_In, List.in_flat_map in Hin as (w & Hw & Hin).
    apply list_elem_of_In in Hw, Hin.
    destruct (rows_for_provenance _ _ _ _ Hin) as (d & Hd & -> & Htok).
    destruct (Hrun w Hw) as [Hin' Hst]. by exists w, d.
Qed.

End MonitoringExtFacts.

(** ** The log parser and the child's environment *)

Module ParserFacts.
Import BuildArgs Cli CliSamples CliExt LogParser PlatformEnv.

Lemma on_stdout_line_files line i :
  Cli.logs (on_stdout_line line i) = Cli.logs i ++ [line] /\
  errors (on_stdout_line line i) = errors i ++ (if is_error line then [line] else []) /\
  warnings (on_stdout_line line i)
  = warnings i ++ (if is_error line then [] else if is_warning line then [line] else []).
Proof.
  unfold on_stdout_line. fold (is_error line). fold (is_warning line).
  destruct (is_error line); [|destruct (is_warning line)]; cbn; by rewrite ?app_nil_r.
Qed.

(** X28.  The stdout handler of a launched child and [ComfyLogParser]
    classify lines alike: after a chunk of output the record's log grew by
    the chunk's non-empty lines, its errors by what [getErrors] finds in
    them, and its warnings by what [getWarnings] finds in them except the
    lines that are also errors, which the handler files as errors only. *)
Theorem stdout_handler_agrees_with_parser data i :
  let parser := addLogs (data_lines data) new_parser in
  Cli.logs (on_stdout_data data i) = Cli.logs i ++ LogParser.logs parser /\
  errors (on_stdout_data data i) = errors i ++ getErrors parser /\
  warnings (on_stdout_data data i)
  = warnings i ++ List.filter (fun l => negb (is_error l)) (getWarnings parser).
Proof.
  unfold on_stdout_data, getErrors, getWarnings, addLogs, new_parser.
  cbn [LogParser.logs app]. revert i.
  induction (data_lines data) as [|line lines IH]; intros i.
  { cbn. by rewrite !app_nil_r. }
  cbn [fold_left List.filter].
  destruct (IH (on_stdout_line line i)) as (-> & -> & ->).
  destruct (on_stdout_line_files line i) as (-> & -> & ->).
  rewrite <- !app_assoc.
  destruct (is_error line) eqn:He; destruct (is_warning line) eqn:Hw;
    cbn [List.filter app negb]; rewrite ?He; cbn [negb app]; done.
Qed.

(** X29.  [getPlatformEnv] changes at most the two variables
    [CUDA_VISIBLE_DEVICES] and [PYTORCH_ENABLE_MPS_FALLBACK].  On Linux
    and Windows a [cudaDevice] option restricts the child to the device
    the record shows; on every other platform the record still shows the
    [cudaDevice] but the child's environment does not mention it. *)
Theorem getPlatformEnv_matches_attribution pf process_env opts :
  (forall key, key <> "CUDA_VISIBLE_DEVICES" -> key <> "PYTORCH_ENABLE_MPS_FALLBACK" ->
               getPlatformEnv pf process_env opts !! key = process_env !! key) /\
  (get_option "cudaDevice" opts <> VUndefined ->
   device_attribution pf opts = toString (get_option "cudaDevice" opts) /\
   getPlatformEnv pf process_env opts !! "CUDA_VISIBLE_DEVICES"
   = match pf with
     | Linux | Windows => Some (device_attribution pf opts)
     | _ => process_env !! "CUDA_VISIBLE_DEVICES"
     end).
Proof.
  split.
  - intros key Hc Hm. unfold getPlatformEnv.
    destruct pf; try done.
    + destruct (get_option "cudaDevice" opts); try done; by rewrite lookup_insert_ne.
    + destruct (truthy _); [by rewrite lookup_insert_ne|done].
    + destruct (get_option "cudaDevice" opts); try done; by rewrite lookup_insert_ne.
  - intros Hset. unfold device_attribution, getPlatformEnv.
    destruct (get_option "cudaDevice" opts) eqn:Hc; [done|..];
      (split; [done|]); destruct pf; try done; try (by rewrite lookup_insert_eq);
      destruct (truthy _); try done; by rewrite lookup_insert_ne.
Qed.

Lemma getPlatformEnv_matches_attribution_witness :
  device_attribution MacOS [("cudaDevice", VNumber 1)] = "1" /\
  getPlatformEnv MacOS ∅ [("cudaDevice", VNumber 1)] !! "CUDA_VISIBLE_DEVICES" = None /\
  getPlatformEnv Linux ∅ [("cudaDevice", VNumber 1)] !! "CUDA_VISIBLE_DEVICES" = Some "1".
Proof.
  destruct (proj2 (getPlatformEnv_matches_attribution MacOS ∅ [("cudaDevice", VNumber 1)]))
    as [Hrec Henv]; [discriminate|].
  destruct (proj2 (getPlatformEnv_matches_attribution Linux ∅ [("cudaDevice", VNumber 1)]))
    as [_ Hlinux]; [discriminate|].
  split; [exact Hrec|]. split; [exact Henv|exact Hlinux].
Defined.

End ParserFacts.
